(** * Denver happy-hour pipeline: scraper, crawler, extractor and frontend filter

    A shallow embedding of the JavaScript sources of the pipeline
    (scraper.js, crawler.js, extractor.js, App.jsx) together with the part
    of the ECMAScript runtime they rely on: strings as sequences of UTF-16
    code units, [String.prototype] helpers, and the backtracking regular
    expression matcher of the language specification. *)

From Stdlib Require Import String List NArith ZArith Bool Arith Lia.
Import ListNotations.

Set Implicit Arguments.

(* ===================================================================== *)
(** * Part I: definitions                                                 *)
(* ===================================================================== *)

(** ** JavaScript strings *)

(** A string is a sequence of UTF-16 code units. *)
Definition char := N.
Definition jsstring := list char.
Bind Scope N_scope with char.

(** ASCII literals of the sources. *)
Definition str (s : string) : jsstring :=
  map (fun b => Byte.to_N b) (list_byte_of_string s).

Definition char_eqb (a b : char) : bool := N.eqb a b.

Fixpoint jsstring_eqb (a b : jsstring) : bool :=
  match a, b with
  | [], [] => true
  | x :: a', y :: b' => char_eqb x y && jsstring_eqb a' b'
  | _, _ => false
  end.

Definition in_range (lo hi c : char) : bool := (N.leb lo c && N.leb c hi)%bool.

Definition isAsciiUpper (c : char) : bool := in_range 65 90 c.
Definition isAsciiLower (c : char) : bool := in_range 97 122 c.
Definition isAsciiDigit (c : char) : bool := in_range 48 57 c.
Definition isAscii (c : char) : bool := N.ltb c 128.

(** [String.prototype.toLowerCase], one code unit at a time, for the
    scripts of the scraper, the crawler and the extractor, which only
    look for ASCII words in the lower-cased text.  Basic Latin and
    Latin-1 are mapped as Unicode does; so are the two code units outside
    ASCII whose lower case contains an ASCII letter: U+0130 (capital I
    with dot above, which becomes "i" followed by U+0307) and U+212A (the
    Kelvin sign, which becomes "k").  Every other code unit maps to units
    outside ASCII in Unicode and is left as it is here.  The frontend
    compares two lower-cased texts of the user; for it the function is
    modelled over all of Unicode, as [toLowerCaseUnicode] below. *)
Definition lowerUnit (c : char) : jsstring :=
  if isAsciiUpper c then [c + 32]%N
  else if (in_range 192 222 c && negb (N.eqb c 215))%bool then [c + 32]%N
  else if N.eqb c 304 then [105; 775]%N
  else if N.eqb c 8490 then [107]%N
  else if N.eqb c 8491 then [229]%N
  else [c].

Definition toLowerCase (s : jsstring) : jsstring := flat_map lowerUnit s.

(** [String.prototype.toUpperCase] on Basic Latin and Latin-1 (U+00DF
    becomes "SS", U+00B5 and U+00FF leave Latin-1). *)
Definition upperUnit (c : char) : jsstring :=
  if isAsciiLower c then [c - 32]%N
  else if (in_range 224 254 c && negb (N.eqb c 247))%bool then [c - 32]%N
  else if N.eqb c 223 then [83; 83]%N
  else if N.eqb c 181 then [924]%N
  else if N.eqb c 255 then [376]%N
  else [c].

Definition toUpperCase (s : jsstring) : jsstring := flat_map upperUnit s.

(** WhiteSpace and LineTerminator code units: what [trim] strips and what
    the class escape [\s] contains. *)
Definition isWhiteSpace (c : char) : bool :=
  (in_range 9 13 c || N.eqb c 32 || N.eqb c 160 || N.eqb c 5760
   || in_range 8192 8202 c || N.eqb c 8232 || N.eqb c 8233 || N.eqb c 8239
   || N.eqb c 8287 || N.eqb c 12288 || N.eqb c 65279)%bool.

Fixpoint trimStart (s : jsstring) : jsstring :=
  match s with
  | c :: s' => if isWhiteSpace c then trimStart s' else s
  | [] => []
  end.

Definition trimEnd (s : jsstring) : jsstring := rev (trimStart (rev s)).

Definition trim (s : jsstring) : jsstring := trimEnd (trimStart s).

(** [s.startsWith(p)] *)
Fixpoint startsWith (s p : jsstring) : bool :=
  match p, s with
  | [], _ => true
  | a :: p', b :: s' => char_eqb a b && startsWith s' p'
  | _ :: _, [] => false
  end.

(** [s.endsWith(p)] *)
Definition endsWith (s p : jsstring) : bool := startsWith (rev s) (rev p).

(** [s.includes(p)] *)
Fixpoint includes (s p : jsstring) : bool :=
  startsWith s p ||
  match s with
  | [] => false
  | _ :: s' => includes s' p
  end.

(** [s.slice(0, n)] for a non-negative [n]. *)
Definition slice0 (s : jsstring) (n : nat) : jsstring := firstn n s.

(** A JavaScript [Set] of strings, in insertion order. *)
Definition StringSet := list jsstring.

Definition set_has (s : StringSet) (x : jsstring) : bool :=
  existsb (jsstring_eqb x) s.

Definition set_add (s : StringSet) (x : jsstring) : StringSet :=
  if set_has s x then s else s ++ [x].

(** [[...new Set(xs)]] *)
Definition set_of_list (xs : list jsstring) : StringSet :=
  fold_left set_add xs [].

(** A computation: it returns, throws, or runs for ever. *)
Inductive run (A : Type) : Type :=
| Done (a : A)
| Throws
| Loops.
Arguments Done {A} a.
Arguments Throws {A}.
Arguments Loops {A}.

Definition andThen {A B : Type} (m : run A) (f : A -> run B) : run B :=
  match m with
  | Done a => f a
  | Throws => Throws
  | Loops => Loops
  end.

Notation "'do' x <- m ; k" := (andThen m (fun x => k))
  (at level 10, x name, m at level 100, k at level 200).

(** ** Regular expressions *)

(** Patterns, as the grammar of the language has them.  A character class,
    a class escape and a single pattern character are all [Chars]: a list
    of inclusive code-unit ranges, possibly inverted. *)
Inductive regex : Type :=
| Empty
| Chars (invert : bool) (ranges : list (char * char))
| Seq (r1 r2 : regex)
| Alt (r1 r2 : regex)
| Repeat (r : regex) (min : nat) (max : option nat) (greedy : bool)
| Group (n : nat) (r : regex)
| AssertStart
| AssertEnd
| WordBoundary.

(** A regular expression object: its pattern and the flags [i] and [g]. *)
Record RegExp : Type := mkRegExp {
  pattern : regex;
  ignoreCase : bool;
  global : bool
}.

(** The matcher's state: the input before the current position (nearest
    code unit first), the input from the current position on, the
    captures so far, and [endIndex], counted from the position at which
    the match was started. *)
Record MatchState : Type := mkState {
  before : jsstring;
  after : jsstring;
  captures : list (nat * jsstring);
  endIndex : nat
}.

Definition Continuation := MatchState -> option MatchState.
Definition Matcher := MatchState -> Continuation -> option MatchState.

Definition remaining (x : MatchState) : nat := length (after x).

Definition swapCase (c : char) : char :=
  if isAsciiUpper c then (c + 32)%N
  else if isAsciiLower c then (c - 32)%N
  else c.

Definition in_ranges (rs : list (char * char)) (c : char) : bool :=
  existsb (fun r => in_range (fst r) (snd r) c) rs.

(** Membership of a code unit in a class.  With the [i] flag two code
    units match when they canonicalize alike; for the classes of these
    sources, whose members are ASCII, white space or the en dash, that is
    so exactly when they are equal or are the two cases of an ASCII
    letter (Canonicalize never maps a code unit outside ASCII into
    ASCII). *)
Definition class_mem (ic : bool) (rs : list (char * char)) (c : char) : bool :=
  in_ranges rs c || (ic && in_ranges rs (swapCase c)).

Definition isWordChar (c : char) : bool :=
  isAsciiLower c || isAsciiUpper c || isAsciiDigit c || N.eqb c 95.

Definition wordBefore (x : MatchState) : bool :=
  match before x with
  | c :: _ => isWordChar c
  | [] => false
  end.

Definition wordAfter (x : MatchState) : bool :=
  match after x with
  | c :: _ => isWordChar c
  | [] => false
  end.

Fixpoint remove_capture (n : nat) (caps : list (nat * jsstring)) : list (nat * jsstring) :=
  match caps with
  | [] => []
  | (k, v) :: caps' =>
      if Nat.eqb k n then remove_capture n caps' else (k, v) :: remove_capture n caps'
  end.

Definition set_capture (n : nat) (v : jsstring) (x : MatchState) : MatchState :=
  mkState (before x) (after x) ((n, v) :: remove_capture n (captures x)) (endIndex x).

Definition clear_captures (ns : list nat) (x : MatchState) : MatchState :=
  mkState (before x) (after x)
          (fold_left (fun caps n => remove_capture n caps) ns (captures x))
          (endIndex x).

Fixpoint get_capture (n : nat) (caps : list (nat * jsstring)) : option jsstring :=
  match caps with
  | [] => None
  | (k, v) :: caps' => if Nat.eqb k n then Some v else get_capture n caps'
  end.

(** The groups a pattern contains: a quantifier resets them at each turn. *)
Fixpoint groupsOf (r : regex) : list nat :=
  match r with
  | Seq r1 r2 | Alt r1 r2 => groupsOf r1 ++ groupsOf r2
  | Repeat r' _ _ _ => groupsOf r'
  | Group n r' => n :: groupsOf r'
  | _ => []
  end.

(** The input between two states of one match. *)
Definition consumed (x y : MatchState) : jsstring :=
  firstn (endIndex y - endIndex x) (after x).

Definition isZero (n : nat) : bool := Nat.eqb n 0.

(** RepeatMatcher of the language specification.  [fuel] bounds the number
    of turns; a turn either lowers [min] or, once [min] is 0, must move
    the position forward, so [min + remaining x + 1] turns are never used
    up (see [RepeatMatcher_fuel]). *)
Fixpoint RepeatMatcher (fuel : nat) (m : Matcher) (min : nat) (max : option nat)
    (greedy : bool) (groups : list nat) (x : MatchState) (c : Continuation)
    : option MatchState :=
  match fuel with
  | 0 => None
  | S fuel' =>
      match max with
      | Some 0 => c x
      | _ =>
          let d : Continuation := fun y =>
            if isZero min && Nat.eqb (endIndex y) (endIndex x) then None
            else RepeatMatcher fuel' m (pred min) (option_map pred max) greedy groups y c in
          let xr := clear_captures groups x in
          if negb (isZero min) then m xr d
          else if negb greedy then
            match c x with
            | Some z => Some z
            | None => m xr d
            end
          else
            match m xr d with
            | Some z => Some z
            | None => c x
            end
      end
  end.

(** CompileSubpattern: the matcher of a pattern under the [i] flag. *)
Fixpoint compile (ic : bool) (r : regex) : Matcher :=
  match r with
  | Empty => fun x c => c x
  | Chars invert rs => fun x c =>
      match after x with
      | [] => None
      | ch :: rest =>
          if xorb invert (class_mem ic rs ch)
          then c (mkState (ch :: before x) rest (captures x) (S (endIndex x)))
          else None
      end
  | Seq r1 r2 => fun x c => compile ic r1 x (fun y => compile ic r2 y c)
  | Alt r1 r2 => fun x c =>
      match compile ic r1 x c with
      | Some z => Some z
      | None => compile ic r2 x c
      end
  | Repeat r' min max greedy => fun x c =>
      RepeatMatcher (S (min + remaining x)) (compile ic r') min max greedy
                    (groupsOf r') x c
  | Group n r' => fun x c =>
      compile ic r' x (fun y => c (set_capture n (consumed x y) y))
  | AssertStart => fun x c =>
      match before x with
      | [] => c x
      | _ :: _ => None
      end
  | AssertEnd => fun x c =>
      match after x with
      | [] => c x
      | _ :: _ => None
      end
  | WordBoundary => fun x c =>
      if xorb (wordBefore x) (wordAfter x) then c x else None
  end.

(** The result of a successful [exec]: [index], the matched text
    ([match[0]]), the captures and the position after the match. *)
Record MatchResult : Type := mkResult {
  index : nat;
  matched : jsstring;
  groups : list (nat * jsstring);
  rest_before : jsstring;
  rest_after : jsstring
}.

Definition capture (m : MatchResult) (n : nat) : option jsstring :=
  get_capture n (groups m).

Definition matchAt (re : RegExp) (bef aft : jsstring) : option MatchResult :=
  let x := mkState bef aft [] 0 in
  match compile (ignoreCase re) (pattern re) x (fun y => Some y) with
  | Some z => Some (mkResult (length bef) (consumed x z) (captures z) (before z) (after z))
  | None => None
  end.

(** RegExpBuiltinExec from a given position: the first position from
    there on at which the pattern matches. *)
Fixpoint execFrom (re : RegExp) (bef aft : jsstring) : option MatchResult :=
  match matchAt re bef aft with
  | Some m => Some m
  | None =>
      match aft with
      | [] => None
      | ch :: aft' => execFrom re (ch :: bef) aft'
      end
  end.

(** [re.exec(s)] with [lastIndex] 0, [s.match(re)] for a [re] without the
    [g] flag, and [re.test(s)]. *)
Definition exec (re : RegExp) (s : jsstring) : option MatchResult :=
  execFrom re [] s.

Definition test (re : RegExp) (s : jsstring) : bool :=
  match exec re s with
  | Some _ => true
  | None => false
  end.

(** The loop [while ((match = re.exec(s)) !== null) { ... }] of a [g]
    pattern, as the list of its matches.  Each [exec] starts at the
    [lastIndex] the previous one left; a match that leaves [lastIndex]
    where it was is found again for ever. *)
Fixpoint execLoop (fuel : nat) (re : RegExp) (bef aft : jsstring)
    : run (list MatchResult) :=
  match execFrom re bef aft with
  | None => Done []
  | Some m =>
      if Nat.ltb (length (rest_after m)) (length aft) then
        match fuel with
        | 0 => Loops
        | S fuel' =>
            do ms <- execLoop fuel' re (rest_before m) (rest_after m);
            Done (m :: ms)
        end
      else Loops
  end.

Definition execAll (re : RegExp) (s : jsstring) : run (list MatchResult) :=
  execLoop (length s) re [] s.

Definition groupCount (re : RegExp) : nat := length (groupsOf (pattern re)).

(** GetSubstitution: the replacement text of one match.  [$$] is a dollar
    sign, [$&] the matched text, [$n] the n-th capture (empty when it did
    not take part) if the pattern has that many groups. *)
Fixpoint getSubstitution (m : MatchResult) (ngroups : nat) (template : jsstring)
    : jsstring :=
  match template with
  | [] => []
  | c :: t =>
      if N.eqb c 36 then
        match t with
        | d :: t' =>
            if N.eqb d 36 then 36%N :: getSubstitution m ngroups t'
            else if N.eqb d 38 then matched m ++ getSubstitution m ngroups t'
            else if in_range 49 57 d && Nat.leb (N.to_nat (d - 48)) ngroups then
              match capture m (N.to_nat (d - 48)) with
              | Some v => v ++ getSubstitution m ngroups t'
              | None => getSubstitution m ngroups t'
              end
            else c :: getSubstitution m ngroups t
        | [] => [c]
        end
      else c :: getSubstitution m ngroups t
  end.

(** [s.replace(re, template)] for a [re] without the [g] flag: the first
    match only. *)
Definition replaceFirst (re : RegExp) (template s : jsstring) : jsstring :=
  match exec re s with
  | None => s
  | Some m =>
      firstn (index m) s ++ getSubstitution m (groupCount re) template ++ rest_after m
  end.

(** [s.replace(re, template)] for a [re] with the [g] flag, from the
    position that [bef] and [aft] describe.  After an empty match
    [lastIndex] moves one code unit on. *)
Fixpoint replaceLoop (fuel : nat) (re : RegExp) (template bef aft : jsstring)
    : jsstring :=
  match execFrom re bef aft with
  | None => aft
  | Some m =>
      let skipped := firstn (index m - length bef) aft in
      let sub := getSubstitution m (groupCount re) template in
      match fuel with
      | 0 => aft
      | S fuel' =>
          match matched m with
          | [] =>
              match rest_after m with
              | [] => skipped ++ sub
              | ch :: aft' =>
                  skipped ++ sub ++
                  ch :: replaceLoop fuel' re template (ch :: rest_before m) aft'
              end
          | _ :: _ =>
              skipped ++ sub ++
              replaceLoop fuel' re template (rest_before m) (rest_after m)
          end
      end
  end.

Definition replace (re : RegExp) (template s : jsstring) : jsstring :=
  if global re then replaceLoop (S (length s)) re template [] s
  else replaceFirst re template s.

(** *** Writing patterns *)

Fixpoint seq (rs : list regex) : regex :=
  match rs with
  | [] => Empty
  | [r] => r
  | r :: rs' => Seq r (seq rs')
  end.

Fixpoint alt (rs : list regex) : regex :=
  match rs with
  | [] => Empty
  | [r] => r
  | r :: rs' => Alt r (alt rs')
  end.

Definition chr (c : char) : regex := Chars false [(c, c)].
Definition lit (s : string) : regex := seq (map chr (str s)).
Definition words (ws : list string) : regex := alt (map lit ws).
Definition opt (r : regex) : regex := Repeat r 0 (Some 1) true.
Definition star (r : regex) : regex := Repeat r 0 None true.
Definition lazyStar (r : regex) : regex := Repeat r 0 None false.
Definition plus (r : regex) : regex := Repeat r 1 None true.
Definition times (lo hi : nat) (r : regex) : regex := Repeat r lo (Some hi) true.

(** [\d] and [\s] *)
Definition digit : regex := Chars false [(48, 57)]%N.
Definition spaceRanges : list (char * char) :=
  [(9, 13); (32, 32); (160, 160); (5760, 5760); (8192, 8202); (8232, 8233);
   (8239, 8239); (8287, 8287); (12288, 12288); (65279, 65279)]%N.
Definition space : regex := Chars false spaceRanges.

(** The code units of ["-"], ["."], [":"], ["$"] and of the en dash. *)
Definition hyphen : char := 45.
Definition dot : char := 46.
Definition colon : char := 58.
Definition dollar : char := 36.
Definition enDash : char := 8211.

(** ** scraper.js *)

(** [/[^a-z0-9]+/g] *)
Definition nonAlnumRuns : RegExp :=
  mkRegExp (plus (Chars true [(97, 122); (48, 57)]%N)) false true.

(** [/(^-|-$)/g] *)
Definition edgeHyphens : RegExp :=
  mkRegExp (Group 1 (Alt (Seq AssertStart (chr hyphen)) (Seq (chr hyphen) AssertEnd)))
           false true.

(** Turn a venue name into a URL-friendly slug. *)
Definition slugify (name : jsstring) : jsstring :=
  replace edgeHyphens (str "")
    (replace nonAlnumRuns (str "-") (toLowerCase name)).

(** A card as [scrapeGoogleMaps] returns it. *)
Record ScrapedVenue : Type := mkScraped {
  scraped_name : jsstring;
  scraped_address : jsstring;
  scraped_neighborhood : jsstring;
  scraped_website : option jsstring
}.

Record Venue : Type := mkVenue {
  id : jsstring;
  name : jsstring;
  address : jsstring;
  neighborhood : jsstring;
  website : option jsstring;
  scraped_at : jsstring
}.

(** An entry of the curated lists: name, address, website. *)
Definition curated (n a w : string) : jsstring * jsstring * option jsstring :=
  (str n, str a, Some (str w)).

(** An entry whose website is [null]. *)
Definition curatedNoSite (n a : string) : jsstring * jsstring * option jsstring :=
  (str n, str a, None).

Definition lodoVenues : list (jsstring * jsstring * option jsstring) :=
  [ curated "Falling Rock Tap House" "1919 Blake St, Denver, CO 80202" "https://fallingrocktaphouse.com";
    curated "Wynkoop Brewing Company" "1634 18th St, Denver, CO 80202" "https://wynkoop.com";
    curated "Terminal Bar" "1701 Wynkoop St, Denver, CO 80202" "https://theterminalbar.com";
    curated "Herb's Hideout" "2057 Larimer St, Denver, CO 80205" "https://herbshideout.com";
    curated "The Cruise Room" "1600 17th St, Denver, CO 80202" "https://thecruiseroom.com";
    curatedNoSite "Retro Room" "1801 Wynkoop St, Denver, CO 80202";
    curated "Viewhouse Eatery" "2015 Market St, Denver, CO 80205" "https://viewhouse.com";
    curated "Nallen's Irish Pub" "1429 Market St, Denver, CO 80202" "https://nallensirishpub.com";
    curated "Star Bar Denver" "2137 Larimer St, Denver, CO 80205" "https://starbardenver.com";
    curated "The 1UP - LoDo" "1925 Blake St, Denver, CO 80202" "https://the1up.com";
    curated "Great Divide Brewing" "2201 Arapahoe St, Denver, CO 80205" "https://greatdivide.com";
    curated "Jagged Mountain Craft Brewery" "1139 20th St, Denver, CO 80202" "https://jaggedmountainbrewery.com" ].

(** The eleventh name is written in the source with the code units
    U+00C3 U+00B1 between "Se" and "or Bear". *)
Definition lohiVenues : list (jsstring * jsstring * option jsstring) :=
  [ curated "Linger" "2030 W 30th Ave, Denver, CO 80211" "https://lingerdenver.com";
    curated "LoHi SteakBar" "3200 Tejon St, Denver, CO 80211" "https://lohisteakbar.com";
    curated "Avanti Food & Beverage" "3200 Pecos St, Denver, CO 80211" "https://avantifandb.com";
    curated "Little Man Ice Cream" "2620 16th St, Denver, CO 80211" "https://littlemanicecream.com";
    curated "Williams & Graham" "3160 Tejon St, Denver, CO 80211" "https://williamsandgraham.com";
    curated "Highland Tap and Burger" "2219 W 32nd Ave, Denver, CO 80211" "https://highlandtapandburger.com";
    curated "Ale House at Amato's" "2501 16th St, Denver, CO 80211" "https://alehousedenver.com";
    curatedNoSite "Reiver's Bar" "1085 S Gaylord St, Denver, CO 80209";
    curated "Garibaldi Mexican Bistro" "3055 Zuni St, Denver, CO 80211" "https://garibaldimexican.com";
    curated "El Camino Community Tavern" "3628 W 32nd Ave, Denver, CO 80211" "https://elcaminotavern.com";
    (str "Se" ++ [195; 177]%N ++ str "or Bear", str "3301 Tejon St, Denver, CO 80211",
     Some (str "https://senorbeardenver.com"));
    curated "The Way Back" "3279 Navajo St, Denver, CO 80211" "https://thewaybackdenver.com" ].

Definition fallbackVenue (nbhd ts : jsstring) (v : jsstring * jsstring * option jsstring)
    : Venue :=
  let '(n, a, w) := v in mkVenue (slugify n) n a nbhd w ts.

(** [getFallbackVenues], with [ts] the value of [now()]. *)
Definition getFallbackVenues (ts : jsstring) : list Venue :=
  map (fallbackVenue (str "LoDo") ts) lodoVenues ++
  map (fallbackVenue (str "LoHi") ts) lohiVenues.

(** [venues.filter((v) => { if (seen.has(v.id)) return false;
    seen.add(v.id); return true; })], the set [seen] passed along. *)
Fixpoint dedupFilter (seen : StringSet) (venues : list Venue) : list Venue :=
  match venues with
  | [] => []
  | v :: venues' =>
      if set_has seen (id v) then dedupFilter seen venues'
      else v :: dedupFilter (set_add seen (id v)) venues'
  end.

Definition venueOfScraped (ts : jsstring) (v : ScrapedVenue) : Venue :=
  mkVenue (slugify (scraped_name v)) (scraped_name v)
          (match scraped_address v with [] => str "" | a => a end)
          (scraped_neighborhood v) (scraped_website v) ts.

(** The main function of the scraper: [scrape] is what [scrapeGoogleMaps]
    returned, or [None] when it threw; the result is the array written to
    venues.json. *)
Definition scraperMain (scrape : option (list ScrapedVenue)) (ts : jsstring)
    : list Venue :=
  match scrape with
  | Some scraped =>
      if Nat.leb 10 (length scraped)
      then dedupFilter [] (map (venueOfScraped ts) scraped)
      else getFallbackVenues ts
  | None => getFallbackVenues ts
  end.

(** *** The cards of the results feed *)

(** What the callback of [page.evaluate] reads of a card: the text of
    its first [div.fontHeadlineSmall] ([None] without one), the
    [aria-label] of its first [a[aria-label]] ([None] without one), the
    texts of its [span[jstcache]] elements and the [href] attributes of
    its [a[href]] elements, in document order. *)
Record Card : Type := mkCard {
  headline : option jsstring;
  ariaLabel : option jsstring;
  spans : list jsstring;
  links : list jsstring
}.

(** [s.split(sep)] for a separator of one code unit. *)
Fixpoint split (sep : char) (s : jsstring) : list jsstring :=
  match s with
  | [] => [[]]
  | c :: s' =>
      if char_eqb c sep then [] :: split sep s'
      else
        match split sep s' with
        | part :: parts => (c :: part) :: parts
        | [] => [[c]]
        end
  end.

(** [parts.join(sep)] *)
Fixpoint join (sep : jsstring) (parts : list jsstring) : jsstring :=
  match parts with
  | [] => []
  | [part] => part
  | part :: parts' => part ++ sep ++ join sep parts'
  end.

(** [/Denver|CO/] *)
Definition denverOrCO : RegExp := mkRegExp (Alt (lit "Denver") (lit "CO")) false false.

(** The address read from the [aria-label]: its lines after the first. *)
Definition labelAddress (label : option jsstring) : jsstring :=
  match label with
  | Some l =>
      match split 10 l with
      | _ :: part :: parts => trim (join (str ", ") (part :: parts))
      | _ => str ""
      end
  | None => str ""
  end.

(** The address read from the spans: the loop of [spans.forEach]. *)
Definition spanAddress (texts : list jsstring) : jsstring :=
  fold_left (fun address s =>
               let text := trim s in
               if test denverOrCO text && Nat.ltb 10 (length text) then text else address)
            texts (str "").

Definition cardAddress (card : Card) : jsstring :=
  match labelAddress (ariaLabel card) with
  | [] => spanAddress (spans card)
  | address => address
  end.

(** The loop of [links.forEach]. *)
Definition cardWebsite (hrefs : list jsstring) : option jsstring :=
  fold_left (fun website href =>
               if negb (isZero (length href)) && negb (includes href (str "google.com"))
                  && startsWith href (str "http")
               then Some href else website)
            hrefs None.

(** The callback of [cards.forEach]: the venue pushed for a card, if
    any. *)
Definition cardVenue (nbhd : jsstring) (card : Card) : option ScrapedVenue :=
  match headline card with
  | Some text =>
      match trim text with
      | [] => None
      | name => Some (mkScraped name (cardAddress card) nbhd (cardWebsite (links card)))
      end
  | None => None
  end.

Fixpoint parseCards (nbhd : jsstring) (cards : list Card) : list ScrapedVenue :=
  match cards with
  | [] => []
  | card :: cards' =>
      match cardVenue nbhd card with
      | Some v => v :: parseCards nbhd cards'
      | None => parseCards nbhd cards'
      end
  end.

(** The searches: query and neighborhood. *)
Definition SEARCHES : list (jsstring * jsstring) :=
  [ (str "happy hour bars LoDo Denver", str "LoDo");
    (str "happy hour bars LoHi Denver", str "LoHi") ].

(** The loop over the searches: [feed query] is the list of the cards of
    the feed once the page of the query is loaded and scrolled, or
    [None] when a step of the search throws ([browser.newContext],
    [context.newPage], [page.goto], [page.waitForSelector], a step of the
    scroll loop, the evaluation of the cards or [context.close]). *)
Fixpoint scrapeSearches (feed : jsstring -> option (list Card))
    (searches : list (jsstring * jsstring)) (allVenues : list ScrapedVenue)
    : option (list ScrapedVenue) :=
  match searches with
  | [] => Some allVenues
  | (query, nbhd) :: searches' =>
      match feed query with
      | Some cards => scrapeSearches feed searches' (allVenues ++ parseCards nbhd cards)
      | None => None
      end
  end.

(** [scrapeGoogleMaps]: [launched] says whether one of the two calls of
    [chromium.launch] returns, [closes] whether [browser.close()] in the
    [finally] block returns; the result is [None] when the function
    throws.  The [finally] block runs after the loop whether the loop
    threw or not: when the loop threw the function throws whatever
    [browser.close()] does, and when the loop ended it returns
    [allVenues] only if [browser.close()] returns. *)
Definition scrapeGoogleMaps (launched : bool) (feed : jsstring -> option (list Card))
    (closes : bool) : option (list ScrapedVenue) :=
  if launched then
    match scrapeSearches feed SEARCHES [] with
    | Some allVenues => if closes then Some allVenues else None
    | None => None
    end
  else None.

(** ** extractor.js *)

Definition DAYS_OF_WEEK : list jsstring :=
  map str ["Monday"; "Tuesday"; "Wednesday"; "Thursday"; "Friday"; "Saturday"; "Sunday"]%string.

(** [(?:am|pm|AM|PM)] and [(?:am|pm|a\.m\.|p\.m\.)] *)
Definition meridiemPlain : regex := words ["am"; "pm"; "AM"; "PM"]%string.
Definition meridiemDotted : regex := words ["am"; "pm"; "a.m."; "p.m."]%string.

(** [\d{1,2}(?::\d{2})?\s*(?:...)?] with the given meridiem alternatives *)
Definition clock (meridiem : regex) : regex :=
  seq [times 1 2 digit; opt (seq [chr colon; times 2 2 digit]); star space; opt meridiem].

(** [[-–to]+] *)
Definition rangeSign : regex :=
  plus (Chars false [(hyphen, hyphen); (enDash, enDash); (116, 116); (111, 111)]%N).

(** [/(\d{1,2}(?::\d{2})?\s*(?:am|pm|AM|PM)?)\s*[-–to]+\s*(\d{1,2}(?::\d{2})?\s*(?:am|pm|AM|PM)?)/gi]
    and
    [/happy\s*hour[s]?\s*[:.]?\s*(\d{1,2}(?::\d{2})?\s*(?:am|pm|AM|PM)?)\s*[-–to]+\s*(\d{1,2}(?::\d{2})?\s*(?:am|pm|AM|PM)?)/gi] *)
Definition TIME_PATTERNS : list RegExp :=
  [ mkRegExp
      (seq [Group 1 (clock meridiemPlain); star space; rangeSign; star space;
            Group 2 (clock meridiemPlain)])
      true true;
    mkRegExp
      (seq [lit "happy"; star space; lit "hour"; opt (chr 115); star space;
            opt (Chars false [(colon, colon); (dot, dot)]); star space;
            Group 1 (clock meridiemPlain); star space; rangeSign; star space;
            Group 2 (clock meridiemPlain)])
      true true ].

Definition price : regex :=
  seq [chr dollar; plus digit; opt (seq [chr dot; times 2 2 digit])].

Definition FOOD_PATTERNS : list RegExp :=
  [ (* /\$\d+(?:\.\d{2})?\s+(?:off\s+)?(?:appetizer|app|wing|taco|nacho|slider|fries|pizza|burger|bite|snack|plate|food)/gi *)
    mkRegExp
      (seq [price; plus space; opt (seq [lit "off"; plus space]);
            words ["appetizer"; "app"; "wing"; "taco"; "nacho"; "slider"; "fries";
                   "pizza"; "burger"; "bite"; "snack"; "plate"; "food"]%string])
      true true;
    (* /half[\s-]?(?:off|price)\s+(?:appetizer|app|food|menu|bite|snack)/gi *)
    mkRegExp
      (seq [lit "half"; opt (Chars false (spaceRanges ++ [(hyphen, hyphen)]));
            words ["off"; "price"]%string; plus space;
            words ["appetizer"; "app"; "food"; "menu"; "bite"; "snack"]%string])
      true true;
    (* /(?:appetizer|app|food|bite|snack)s?\s+(?:for\s+)?\$\d+/gi *)
    mkRegExp
      (seq [words ["appetizer"; "app"; "food"; "bite"; "snack"]%string; opt (chr 115);
            plus space; opt (seq [lit "for"; plus space]); chr dollar; plus digit])
      true true;
    (* /\$\d+(?:\.\d{2})?\s+(?:taco|wing|slider|pizza|nacho|burger|bite)/gi *)
    mkRegExp
      (seq [price; plus space;
            words ["taco"; "wing"; "slider"; "pizza"; "nacho"; "burger"; "bite"]%string])
      true true;
    (* /(?:free|complimentary)\s+(?:appetizer|food|snack|bite|pizza)/gi *)
    mkRegExp
      (seq [words ["free"; "complimentary"]%string; plus space;
            words ["appetizer"; "food"; "snack"; "bite"; "pizza"]%string])
      true true;
    (* /(?:food|kitchen)\s+special/gi *)
    mkRegExp
      (seq [words ["food"; "kitchen"]%string; plus space; lit "special"])
      true true ].

Definition DRINK_PATTERNS : list RegExp :=
  [ (* /\$\d+(?:\.\d{2})?\s+(?:off\s+)?(?:beer|draft|pint|well|cocktail|wine|margarita|marg|shot|drink|spirit|pour|rail|domestic|craft|import|ipa|lager|ale)/gi *)
    mkRegExp
      (seq [price; plus space; opt (seq [lit "off"; plus space]);
            words ["beer"; "draft"; "pint"; "well"; "cocktail"; "wine"; "margarita";
                   "marg"; "shot"; "drink"; "spirit"; "pour"; "rail"; "domestic";
                   "craft"; "import"; "ipa"; "lager"; "ale"]%string])
      true true;
    (* /half[\s-]?(?:off|price)\s+(?:beer|draft|pint|well|cocktail|wine|drink|bottle|glass)/gi *)
    mkRegExp
      (seq [lit "half"; opt (Chars false (spaceRanges ++ [(hyphen, hyphen)]));
            words ["off"; "price"]%string; plus space;
            words ["beer"; "draft"; "pint"; "well"; "cocktail"; "wine"; "drink";
                   "bottle"; "glass"]%string])
      true true;
    (* /(?:beer|draft|pint|well|cocktail|wine|margarita|drink|pour)s?\s+(?:for\s+)?\$\d+/gi *)
    mkRegExp
      (seq [words ["beer"; "draft"; "pint"; "well"; "cocktail"; "wine"; "margarita";
                   "drink"; "pour"]%string; opt (chr 115);
            plus space; opt (seq [lit "for"; plus space]); chr dollar; plus digit])
      true true;
    (* /\$\d+(?:\.\d{2})?\s+(?:domestic|craft|import|house|select|featured)\s+(?:beer|draft|pint|wine|cocktail)/gi *)
    mkRegExp
      (seq [price; plus space;
            words ["domestic"; "craft"; "import"; "house"; "select"; "featured"]%string;
            plus space;
            words ["beer"; "draft"; "pint"; "wine"; "cocktail"]%string])
      true true;
    (* /(?:buy\s+one|bogo)\s+(?:get\s+one\s+)?(?:free|half)/gi *)
    mkRegExp
      (seq [Alt (seq [lit "buy"; plus space; lit "one"]) (lit "bogo"); plus space;
            opt (seq [lit "get"; plus space; lit "one"; plus space]);
            words ["free"; "half"]%string])
      true true;
    (* /(?:drink|cocktail|beer|wine)\s+special/gi *)
    mkRegExp
      (seq [words ["drink"; "cocktail"; "beer"; "wine"]%string; plus space; lit "special"])
      true true ].

Definition normalizeDay (dayStr : jsstring) : option jsstring :=
  let lower := trim (toLowerCase dayStr) in
  find (fun day => startsWith (toLowerCase day) (slice0 lower 3)) DAYS_OF_WEEK.

(** [arr.indexOf(x)]: the first index of [x], or -1. *)
Fixpoint indexOf (arr : list jsstring) (x : jsstring) : Z :=
  match arr with
  | [] => (-1)%Z
  | y :: arr' =>
      if jsstring_eqb y x then 0%Z
      else let i := indexOf arr' x in if Z.ltb i 0 then (-1)%Z else (i + 1)%Z
  end.

Definition fullDayNames : regex :=
  words ["monday"; "tuesday"; "wednesday"; "thursday"; "friday"; "saturday"; "sunday"]%string.

(** [/(monday|tuesday|wednesday|thursday|friday|saturday|sunday)\s*[-–]?\s*(?:through|thru|to)?\s*[-–]?\s*(monday|tuesday|wednesday|thursday|friday|saturday|sunday)/gi] *)
Definition rangePattern : RegExp :=
  mkRegExp
    (seq [Group 1 fullDayNames; star space;
          opt (Chars false [(hyphen, hyphen); (enDash, enDash)]); star space;
          opt (words ["through"; "thru"; "to"]%string); star space;
          opt (Chars false [(hyphen, hyphen); (enDash, enDash)]); star space;
          Group 2 fullDayNames])
    true true.

(** [(mon(?:day)?|tue(?:s(?:day)?)?|wed(?:nesday)?|thu(?:rs(?:day)?)?|fri(?:day)?|sat(?:urday)?|sun(?:day)?)] *)
Definition dayNames : regex :=
  Group 1 (alt [Seq (lit "mon") (opt (lit "day"));
                Seq (lit "tue") (opt (Seq (lit "s") (opt (lit "day"))));
                Seq (lit "wed") (opt (lit "nesday"));
                Seq (lit "thu") (opt (Seq (lit "rs") (opt (lit "day"))));
                Seq (lit "fri") (opt (lit "day"));
                Seq (lit "sat") (opt (lit "urday"));
                Seq (lit "sun") (opt (lit "day"))]).

(** [/\b(mon(?:day)?|tue(?:s(?:day)?)?|wed(?:nesday)?|thu(?:rs(?:day)?)?|fri(?:day)?|sat(?:urday)?|sun(?:day)?)\b/gi] *)
Definition dayPattern : RegExp :=
  mkRegExp (seq [WordBoundary; dayNames; WordBoundary]) true true.

(** [DAYS_OF_WEEK[i]] added to the set, for an index within the array. *)
Definition addDayAt (days : StringSet) (i : Z) : StringSet :=
  match nth_error DAYS_OF_WEEK (Z.to_nat i) with
  | Some d => set_add days d
  | None => days
  end.

(** [for (let i = startIdx; i !== (endIdx + 1) % 7; i = (i + 1) % 7)
      days.add(DAYS_OF_WEEK[i]);] *)
Fixpoint rangeLoop (fuel : nat) (i stop : Z) (days : StringSet) : run StringSet :=
  if Z.eqb i stop then Done days
  else
    match fuel with
    | 0 => Loops
    | S fuel' => rangeLoop fuel' ((i + 1) mod 7)%Z stop (addDayAt days i)
    end.

(** The body of the loop over the matches of [rangePattern]. *)
Definition addRange (days : StringSet) (m : MatchResult) : run StringSet :=
  match capture m 1, capture m 2 with
  | Some m1, Some m2 =>
      match normalizeDay m1, normalizeDay m2 with
      | Some start, Some end_ =>
          let startIdx := indexOf DAYS_OF_WEEK start in
          let endIdx := indexOf DAYS_OF_WEEK end_ in
          if Z.leb 0 startIdx && Z.leb 0 endIdx then
            do days' <- rangeLoop 7 startIdx ((endIdx + 1) mod 7)%Z days;
            Done (addDayAt days' endIdx)
          else Done days
      | _, _ => Done days
      end
  | _, _ => Throws
  end.

(** The body of the loop over the matches of [dayPattern]. *)
Definition addDay (days : StringSet) (m : MatchResult) : run StringSet :=
  match capture m 1 with
  | Some m1 =>
      match normalizeDay m1 with
      | Some day => Done (set_add days day)
      | None => Done days
      end
  | None => Throws
  end.

Fixpoint forEachMatch (body : StringSet -> MatchResult -> run StringSet)
    (ms : list MatchResult) (days : StringSet) : run StringSet :=
  match ms with
  | [] => Done days
  | m :: ms' => do days' <- body days m; forEachMatch body ms' days'
  end.

(** [extractDays]: the array of days, or [None] for [null]. *)
Definition extractDays (text : jsstring) : run (option (list jsstring)) :=
  let lower := toLowerCase text in
  if includes lower (str "daily") || includes lower (str "every day")
     || includes lower (str "7 days")
  then Done (Some DAYS_OF_WEEK)
  else if includes lower (str "weekday")
  then Done (Some (map str ["Monday"; "Tuesday"; "Wednesday"; "Thursday"; "Friday"]%string))
  else
    let days :=
      if includes lower (str "weekend")
      then set_add (set_add [] (str "Saturday")) (str "Sunday")
      else [] in
    do ranges <- execAll rangePattern text;
    do days <- forEachMatch addRange ranges days;
    do mentions <- execAll dayPattern text;
    do days <- forEachMatch addDay mentions days;
    Done (if Nat.ltb 0 (length days) then Some days else None).

(** [/^\d{1,2}(AM|PM)$/i], [/(AM|PM)/i], [/^\d{1,2}\s*(AM|PM)$/i],
    [/(\d+)\s*(AM|PM)/i] and [/(\d)(AM|PM)/i] *)
Definition hourMeridiem : RegExp :=
  mkRegExp (seq [AssertStart; times 1 2 digit; Group 1 (words ["AM"; "PM"]%string); AssertEnd])
           true false.
Definition meridiemOnly : RegExp :=
  mkRegExp (Group 1 (words ["AM"; "PM"]%string)) true false.
Definition hourSpaceMeridiem : RegExp :=
  mkRegExp (seq [AssertStart; times 1 2 digit; star space;
                 Group 1 (words ["AM"; "PM"]%string); AssertEnd])
           true false.
Definition digitsSpaceMeridiem : RegExp :=
  mkRegExp (seq [Group 1 (plus digit); star space; Group 2 (words ["AM"; "PM"]%string)])
           true false.
Definition digitMeridiem : RegExp :=
  mkRegExp (seq [Group 1 digit; Group 2 (words ["AM"; "PM"]%string)]) true false.

(** [normalizeTime]: [timeStr] is [None] for [undefined], the result
    [None] for [null]. *)
Definition normalizeTime (timeStr : option jsstring) : option jsstring :=
  match timeStr with
  | None | Some [] => None
  | Some timeStr =>
      let t := toUpperCase (trim timeStr) in
      let t := if test hourMeridiem t then replace meridiemOnly (str ":00 $1") t else t in
      let t := if test hourSpaceMeridiem t
               then replace digitsSpaceMeridiem (str "$1:00 $2") t else t in
      let t := replace digitMeridiem (str "$1 $2") t in
      Some t
  end.

(** [/happy\s*hour[^.]*?(\d{1,2}(?::\d{2})?\s*(?:am|pm|a\.m\.|p\.m\.)?)\s*[-–to]+\s*(\d{1,2}(?::\d{2})?\s*(?:am|pm|a\.m\.|p\.m\.)?)/i] *)
Definition happyHourContext : RegExp :=
  mkRegExp
    (seq [lit "happy"; star space; lit "hour"; lazyStar (Chars true [(dot, dot)]);
          Group 1 (clock meridiemDotted); star space; rangeSign; star space;
          Group 2 (clock meridiemDotted)])
    true false.

Record Times : Type := mkTimes {
  times_start : option jsstring;
  times_end : option jsstring
}.

Fixpoint firstTimeRange (patterns : list RegExp) (text : jsstring) : Times :=
  match patterns with
  | [] => mkTimes None None
  | p :: patterns' =>
      match exec p text with
      | Some m => mkTimes (normalizeTime (capture m 1)) (normalizeTime (capture m 2))
      | None => firstTimeRange patterns' text
      end
  end.

Definition extractTimes (text : jsstring) : Times :=
  match exec happyHourContext text with
  | Some m => mkTimes (normalizeTime (capture m 1)) (normalizeTime (capture m 2))
  | None => firstTimeRange TIME_PATTERNS text
  end.

Fixpoint extractDealsFrom (text : jsstring) (patterns : list RegExp) (deals : StringSet)
    : run StringSet :=
  match patterns with
  | [] => Done deals
  | p :: patterns' =>
      do ms <- execAll p text;
      extractDealsFrom text patterns'
        (fold_left (fun deals m => set_add deals (trim (matched m))) ms deals)
  end.

Definition extractDeals (text : jsstring) (patterns : list RegExp)
    : run (option (list jsstring)) :=
  do deals <- extractDealsFrom text patterns [];
  Done (if Nat.ltb 0 (length deals) then Some deals else None).

(** A field of the happy-hour record: a string or an array of strings. *)
Inductive value : Type :=
| VString (s : jsstring)
| VArray (l : list jsstring).

Definition unknown : value := VString (str "unknown").

Record HappyHour : Type := mkHappyHour {
  days : value;
  start_time : value;
  end_time : value;
  food_deals : value;
  drink_deals : value
}.

(** [a || 'unknown'] for an array or [null], and for a string or [null]. *)
Definition arrayOrUnknown (a : option (list jsstring)) : value :=
  match a with
  | Some l => VArray l
  | None => unknown
  end.

Definition stringOrUnknown (s : option jsstring) : value :=
  match s with
  | Some (c :: s') => VString (c :: s')
  | Some [] | None => unknown
  end.

Definition extractHappyHourInfo (rawText : jsstring) : run HappyHour :=
  if isZero (length rawText) || includes rawText (str "No website available")
     || includes rawText (str "Unable to crawl")
  then Done (mkHappyHour unknown unknown unknown unknown unknown)
  else
    do days <- extractDays rawText;
    let times := extractTimes rawText in
    do foodDeals <- extractDeals rawText FOOD_PATTERNS;
    do drinkDeals <- extractDeals rawText DRINK_PATTERNS;
    Done (mkHappyHour (arrayOrUnknown days)
                      (stringOrUnknown (times_start times))
                      (stringOrUnknown (times_end times))
                      (arrayOrUnknown foodDeals)
                      (arrayOrUnknown drinkDeals)).

(** An entry of happy_hours.json. *)
Record VenueInfo : Type := mkVenueInfo {
  info_id : jsstring;
  info_name : jsstring;
  info_address : jsstring;
  info_neighborhood : jsstring;
  info_website : option jsstring;
  happy_hour : option HappyHour
}.

(** The files the extractor reads: venues.json (parsed) if it exists, and
    the files of data/raw by name. *)
Record Files : Type := mkFiles {
  venuesFile : option (list Venue);
  rawFile : jsstring -> option jsstring
}.

(** What a run of the extractor ends in: [process.exit(1)], or
    happy_hours.json written with the given array. *)
Inductive Ended : Type :=
| Exit1
| Wrote (results : list VenueInfo).

Fixpoint extractAll (fs : Files) (venues : list Venue) : run (list VenueInfo) :=
  match venues with
  | [] => Done []
  | venue :: venues' =>
      let rawText :=
        match rawFile fs (id venue ++ str ".txt") with
        | Some content => content
        | None => str ""
        end in
      do happyHour <- extractHappyHourInfo rawText;
      do results <- extractAll fs venues';
      Done (mkVenueInfo (id venue) (name venue) (address venue) (neighborhood venue)
                        (website venue) (Some happyHour) :: results)
  end.

Definition main (fs : Files) : run Ended :=
  match venuesFile fs with
  | None => Done Exit1
  | Some venues => do results <- extractAll fs venues; Done (Wrote results)
  end.

(** ** crawler.js *)

Definition INTERESTING_KEYWORDS : list jsstring :=
  map str ["happy"; "special"; "menu"; "drink"; "hour"; "deal"; "promo"; "offer"; "food"]%string.

Definition MAX_PAGES_PER_VENUE : nat := 5.

(** An [a[href]] element of the page: [a.href] and [a.textContent || '']. *)
Record Anchor : Type := mkAnchor {
  href : jsstring;
  textContent : jsstring
}.

Definition interesting (a : Anchor) : bool :=
  let lowerHref := toLowerCase (href a) in
  let lowerText := toLowerCase (trim (textContent a)) in
  existsb (fun kw => includes lowerHref kw || includes lowerText kw) INTERESTING_KEYWORDS.

(** The head of every raw text file, and the two bodies written for a
    venue that is not crawled: by [crawlVenue] when it has no website, by
    [generateFallbackRawFiles] when the browser cannot be launched. *)
Definition newline : char := 10.

Definition rawHeader (venue : Venue) (site : jsstring) : jsstring :=
  str "Venue: " ++ name venue ++ [newline] ++
  str "Address: " ++ address venue ++ [newline] ++
  str "Neighborhood: " ++ neighborhood venue ++ [newline] ++
  str "Website: " ++ site ++ [newline; newline].

Definition noWebsiteText (venue : Venue) : jsstring :=
  rawHeader venue (str "none") ++ str "No website available for crawling." ++ [newline].

Definition fallbackRawText (venue : Venue) : jsstring :=
  rawHeader venue (match website venue with
                   | Some (c :: w) => c :: w
                   | Some [] | None => str "none"
                   end)
  ++ str "Unable to crawl website. No raw text available." ++ [newline].

Section Crawler.

(** [new URL(s).hostname], or [None] when the constructor throws. *)
Variable hostname : jsstring -> option jsstring.

Definition sameSite (baseHost href : jsstring) : bool :=
  match hostname href with
  | Some h => jsstring_eqb h baseHost || endsWith h (str "." ++ baseHost)
  | None => false
  end.

(** [findRelevantLinks]: [page] is the list of the anchors of the page,
    or [None] when [page.evaluate] throws. *)
Definition findRelevantLinks (page : option (list Anchor)) (baseUrl : jsstring)
    : list jsstring :=
  match page with
  | None => []
  | Some anchors =>
      let links := map href (filter interesting anchors) in
      match hostname baseUrl with
      | None => []
      | Some baseHost =>
          let unique := filter (sameSite baseHost) (set_of_list links) in
          firstn MAX_PAGES_PER_VENUE unique
      end
  end.

End Crawler.

(** *** Crawling the venues *)

(** A page after a navigation: what [page.evaluate] returns in
    [extractPageText] ([None] when it throws), and the anchors that
    [findRelevantLinks] reads ([None] when its evaluation throws). *)
Record Page : Type := mkPage {
  bodyText : option jsstring;
  anchors : option (list Anchor)
}.

(** What [page.goto] followed by [page.waitForTimeout] ends in: an error
    with its message, or the page. *)
Inductive Visit : Type :=
| Failed (message : jsstring)
| Loaded (page : Page).

(** What the browser does while one venue is crawled: whether
    [browser.newContext] and [context.newPage] return, what the visit of
    the homepage and of each link ends in, and whether [context.close]
    returns. *)
Record Session : Type := mkSession {
  opened : bool;
  home : Visit;
  subpage : jsstring -> Visit;
  closed : bool
}.

(** Chromium: whether [chromium.launch] returns, and the session of the
    venue at each position of the list. *)
Record Chromium : Type := mkChromium {
  launches : bool;
  session : nat -> Session
}.

Definition extractPageText (page : Page) : jsstring :=
  match bodyText page with
  | Some text => text
  | None => str ""
  end.

(** The directory data/raw, by file name, and [fs.writeFileSync] of a
    file of this directory.  The write is taken to go through, which it
    does for a file name without path separator in the directory that
    [ensureDirs] made; the file names of the crawler are [id ++ ".txt"],
    and the theorems on its files are stated for ids that are slugs (an
    id like "a/b" would name a file in a directory that does not exist,
    and the write would throw). *)
Definition RawDir := jsstring -> option jsstring.

Definition writeFileSync (dir : RawDir) (file content : jsstring) : RawDir :=
  fun f => if jsstring_eqb f file then Some content else dir f.

(** What a call ends in: it returns or it throws, the directory as the
    call left it. *)
Inductive Outcome : Type :=
| Returned (dir : RawDir)
| Threw (dir : RawDir).

Section CrawlVenue.

Variable hostname : jsstring -> option jsstring.

(** The text added for one link of [relevantLinks]. *)
Definition subpageSection (s : Session) (link : jsstring) : jsstring :=
  str "=== " ++ link ++ str " ===" ++ [newline] ++
  match subpage s link with
  | Loaded page => extractPageText page ++ [newline; newline]
  | Failed message => str "Failed to fetch: " ++ message ++ [newline; newline]
  end.

(** [allText] at the end of [crawlVenue], for a venue with a website. *)
Definition crawledText (s : Session) (venue : Venue) (site : jsstring) : jsstring :=
  rawHeader venue site ++
  match home s with
  | Loaded page =>
      str "=== HOMEPAGE ===" ++ [newline] ++ extractPageText page ++ [newline; newline] ++
      flat_map (subpageSection s) (findRelevantLinks hostname (anchors page) site)
  | Failed message => str "Failed to fetch homepage: " ++ message ++ [newline]
  end.

Definition crawlVenue (s : Session) (dir : RawDir) (venue : Venue) : Outcome :=
  match website venue with
  | None | Some [] =>
      Returned (writeFileSync dir (id venue ++ str ".txt") (noWebsiteText venue))
  | Some site =>
      if negb (opened s) then Threw dir
      else if negb (closed s) then Threw dir
      else Returned (writeFileSync dir (id venue ++ str ".txt") (crawledText s venue site))
  end.

Fixpoint generateFallbackRawFiles (dir : RawDir) (venues : list Venue) : RawDir :=
  match venues with
  | [] => dir
  | venue :: venues' =>
      generateFallbackRawFiles
        (writeFileSync dir (id venue ++ str ".txt") (fallbackRawText venue)) venues'
  end.

(** [for (const venue of venues) await crawlVenue(browser, venue)], from
    the venue at position [k] on. *)
Fixpoint crawlFrom (w : Chromium) (k : nat) (dir : RawDir) (venues : list Venue)
    : Outcome :=
  match venues with
  | [] => Returned dir
  | venue :: venues' =>
      match crawlVenue (session w k) dir venue with
      | Returned dir' => crawlFrom w (S k) dir' venues'
      | Threw dir' => Threw dir'
      end
  end.

(** The main function of the crawler: [None] for [process.exit(1)] in
    [loadVenues], before anything is written, else data/raw as the run
    leaves it.  Nothing is written after the [try] block: whether
    [browser.close()] in the [finally] block returns or throws (the run
    then ends with exit code 1) the directory is the same. *)
Definition crawlerMain (w : Chromium) (fs : Files) : option RawDir :=
  match venuesFile fs with
  | None => None
  | Some venues =>
      if launches w then
        match crawlFrom w 0 (rawFile fs) venues with
        | Returned dir => Some dir
        | Threw dir => Some (generateFallbackRawFiles dir venues)
        end
      else Some (generateFallbackRawFiles (rawFile fs) venues)
  end.

End CrawlVenue.

(** ** [String.prototype.toLowerCase] over all of Unicode *)

(** The string is read as code points (a high surrogate followed by a low
    one is one code point, any other code unit is a code point by
    itself), each code point is mapped by the case mappings of the Unicode
    Character Database (UnicodeData.txt and the mappings of
    SpecialCasing.txt that depend on no language, version 14.0), and the
    result is written back as code units. *)
Definition isHighSurrogate (c : char) : bool := in_range 55296 56319 c.
Definition isLowSurrogate (c : char) : bool := in_range 56320 57343 c.

(** StringToCodePoints *)
Fixpoint toCodePoints (s : jsstring) : list N :=
  match s with
  | [] => []
  | hi :: rest =>
      match rest with
      | [] => [hi]
      | lo :: rest' =>
          if isHighSurrogate hi && isLowSurrogate lo
          then (65536 + (hi - 55296) * 1024 + (lo - 56320))%N :: toCodePoints rest'
          else hi :: toCodePoints rest
      end
  end.

(** UTF16EncodeCodePoint *)
Definition fromCodePoint (cp : N) : jsstring :=
  if N.ltb cp 65536 then [cp]
  else [55296 + (cp - 65536) / 1024; 56320 + (cp - 65536) mod 1024]%N.

(** The simple lower-case mappings: [(first, last, step, target)] maps
    the code points [first], [first + step], ..., [last] to [target],
    [target + step], ... *)
Definition lowerTable : list (N * N * N * N) :=
  [
    (65, 90, 1, 97); (192, 214, 1, 224); (216, 222, 1, 248); (256, 302, 2, 257);
    (306, 310, 2, 307); (313, 327, 2, 314); (330, 374, 2, 331); (376, 376, 1, 255);
    (377, 381, 2, 378); (385, 385, 1, 595); (386, 388, 2, 387); (390, 390, 1, 596);
    (391, 391, 1, 392); (393, 394, 1, 598); (395, 395, 1, 396); (398, 398, 1, 477);
    (399, 399, 1, 601); (400, 400, 1, 603); (401, 401, 1, 402); (403, 403, 1, 608);
    (404, 404, 1, 611); (406, 406, 1, 617); (407, 407, 1, 616); (408, 408, 1, 409);
    (412, 412, 1, 623); (413, 413, 1, 626); (415, 415, 1, 629); (416, 420, 2, 417);
    (422, 422, 1, 640); (423, 423, 1, 424); (425, 425, 1, 643); (428, 428, 1, 429);
    (430, 430, 1, 648); (431, 431, 1, 432); (433, 434, 1, 650); (435, 437, 2, 436);
    (439, 439, 1, 658); (440, 440, 1, 441); (444, 444, 1, 445); (452, 452, 1, 454);
    (453, 453, 1, 454); (455, 455, 1, 457); (456, 456, 1, 457); (458, 458, 1, 460);
    (459, 475, 2, 460); (478, 494, 2, 479); (497, 497, 1, 499); (498, 500, 2, 499);
    (502, 502, 1, 405); (503, 503, 1, 447); (504, 542, 2, 505); (544, 544, 1, 414);
    (546, 562, 2, 547); (570, 570, 1, 11365); (571, 571, 1, 572); (573, 573, 1, 410);
    (574, 574, 1, 11366); (577, 577, 1, 578); (579, 579, 1, 384); (580, 580, 1, 649);
    (581, 581, 1, 652); (582, 590, 2, 583); (880, 882, 2, 881); (886, 886, 1, 887);
    (895, 895, 1, 1011); (902, 902, 1, 940); (904, 906, 1, 941); (908, 908, 1, 972);
    (910, 911, 1, 973); (913, 929, 1, 945); (931, 939, 1, 963); (975, 975, 1, 983);
    (984, 1006, 2, 985); (1012, 1012, 1, 952); (1015, 1015, 1, 1016); (1017, 1017, 1, 1010);
    (1018, 1018, 1, 1019); (1021, 1023, 1, 891); (1024, 1039, 1, 1104); (1040, 1071, 1, 1072);
    (1120, 1152, 2, 1121); (1162, 1214, 2, 1163); (1216, 1216, 1, 1231); (1217, 1229, 2, 1218);
    (1232, 1326, 2, 1233); (1329, 1366, 1, 1377); (4256, 4293, 1, 11520); (4295, 4295, 1, 11559);
    (4301, 4301, 1, 11565); (5024, 5103, 1, 43888); (5104, 5109, 1, 5112); (7312, 7354, 1, 4304);
    (7357, 7359, 1, 4349); (7680, 7828, 2, 7681); (7838, 7838, 1, 223); (7840, 7934, 2, 7841);
    (7944, 7951, 1, 7936); (7960, 7965, 1, 7952); (7976, 7983, 1, 7968); (7992, 7999, 1, 7984);
    (8008, 8013, 1, 8000); (8025, 8031, 2, 8017); (8040, 8047, 1, 8032); (8072, 8079, 1, 8064);
    (8088, 8095, 1, 8080); (8104, 8111, 1, 8096); (8120, 8121, 1, 8112); (8122, 8123, 1, 8048);
    (8124, 8124, 1, 8115); (8136, 8139, 1, 8050); (8140, 8140, 1, 8131); (8152, 8153, 1, 8144);
    (8154, 8155, 1, 8054); (8168, 8169, 1, 8160); (8170, 8171, 1, 8058); (8172, 8172, 1, 8165);
    (8184, 8185, 1, 8056); (8186, 8187, 1, 8060); (8188, 8188, 1, 8179); (8486, 8486, 1, 969);
    (8490, 8490, 1, 107); (8491, 8491, 1, 229); (8498, 8498, 1, 8526); (8544, 8559, 1, 8560);
    (8579, 8579, 1, 8580); (9398, 9423, 1, 9424); (11264, 11311, 1, 11312); (11360, 11360, 1, 11361);
    (11362, 11362, 1, 619); (11363, 11363, 1, 7549); (11364, 11364, 1, 637); (11367, 11371, 2, 11368);
    (11373, 11373, 1, 593); (11374, 11374, 1, 625); (11375, 11375, 1, 592); (11376, 11376, 1, 594);
    (11378, 11378, 1, 11379); (11381, 11381, 1, 11382); (11390, 11391, 1, 575); (11392, 11490, 2, 11393);
    (11499, 11501, 2, 11500); (11506, 11506, 1, 11507); (42560, 42604, 2, 42561); (42624, 42650, 2, 42625);
    (42786, 42798, 2, 42787); (42802, 42862, 2, 42803); (42873, 42875, 2, 42874); (42877, 42877, 1, 7545);
    (42878, 42886, 2, 42879); (42891, 42891, 1, 42892); (42893, 42893, 1, 613); (42896, 42898, 2, 42897);
    (42902, 42920, 2, 42903); (42922, 42922, 1, 614); (42923, 42923, 1, 604); (42924, 42924, 1, 609);
    (42925, 42925, 1, 620); (42926, 42926, 1, 618); (42928, 42928, 1, 670); (42929, 42929, 1, 647);
    (42930, 42930, 1, 669); (42931, 42931, 1, 43859); (42932, 42946, 2, 42933); (42948, 42948, 1, 42900);
    (42949, 42949, 1, 642); (42950, 42950, 1, 7566); (42951, 42953, 2, 42952); (42960, 42960, 1, 42961);
    (42966, 42968, 2, 42967); (42997, 42997, 1, 42998); (65313, 65338, 1, 65345); (66560, 66599, 1, 66600);
    (66736, 66771, 1, 66776); (66928, 66938, 1, 66967); (66940, 66954, 1, 66979); (66956, 66962, 1, 66995);
    (66964, 66965, 1, 67003); (68736, 68786, 1, 68800); (71840, 71871, 1, 71872); (93760, 93791, 1, 93792);
    (125184, 125217, 1, 125218)
  ]%N.

(** The code points with the property Case_Ignorable, and the cased code
    points (Lowercase, Uppercase or titlecase letters) that are not
    case-ignorable, as ranges. *)
Definition caseIgnorableRanges : list (N * N) :=
  [
    (39, 39); (46, 46); (58, 58); (94, 94); (96, 96); (168, 168);
    (173, 173); (175, 175); (180, 180); (183, 184); (688, 879); (884, 885);
    (890, 890); (900, 901); (903, 903); (1155, 1161); (1369, 1369); (1375, 1375);
    (1425, 1469); (1471, 1471); (1473, 1474); (1476, 1477); (1479, 1479); (1524, 1524);
    (1536, 1541); (1552, 1562); (1564, 1564); (1600, 1600); (1611, 1631); (1648, 1648);
    (1750, 1757); (1759, 1768); (1770, 1773); (1807, 1807); (1809, 1809); (1840, 1866);
    (1958, 1968); (2027, 2037); (2042, 2042); (2045, 2045); (2070, 2093); (2137, 2139);
    (2184, 2184); (2192, 2193); (2200, 2207); (2249, 2306); (2362, 2362); (2364, 2364);
    (2369, 2376); (2381, 2381); (2385, 2391); (2402, 2403); (2417, 2417); (2433, 2433);
    (2492, 2492); (2497, 2500); (2509, 2509); (2530, 2531); (2558, 2558); (2561, 2562);
    (2620, 2620); (2625, 2626); (2631, 2632); (2635, 2637); (2641, 2641); (2672, 2673);
    (2677, 2677); (2689, 2690); (2748, 2748); (2753, 2757); (2759, 2760); (2765, 2765);
    (2786, 2787); (2810, 2815); (2817, 2817); (2876, 2876); (2879, 2879); (2881, 2884);
    (2893, 2893); (2901, 2902); (2914, 2915); (2946, 2946); (3008, 3008); (3021, 3021);
    (3072, 3072); (3076, 3076); (3132, 3132); (3134, 3136); (3142, 3144); (3146, 3149);
    (3157, 3158); (3170, 3171); (3201, 3201); (3260, 3260); (3263, 3263); (3270, 3270);
    (3276, 3277); (3298, 3299); (3328, 3329); (3387, 3388); (3393, 3396); (3405, 3405);
    (3426, 3427); (3457, 3457); (3530, 3530); (3538, 3540); (3542, 3542); (3633, 3633);
    (3636, 3642); (3654, 3662); (3761, 3761); (3764, 3772); (3782, 3782); (3784, 3789);
    (3864, 3865); (3893, 3893); (3895, 3895); (3897, 3897); (3953, 3966); (3968, 3972);
    (3974, 3975); (3981, 3991); (3993, 4028); (4038, 4038); (4141, 4144); (4146, 4151);
    (4153, 4154); (4157, 4158); (4184, 4185); (4190, 4192); (4209, 4212); (4226, 4226);
    (4229, 4230); (4237, 4237); (4253, 4253); (4348, 4348); (4957, 4959); (5906, 5908);
    (5938, 5939); (5970, 5971); (6002, 6003); (6068, 6069); (6071, 6077); (6086, 6086);
    (6089, 6099); (6103, 6103); (6109, 6109); (6155, 6159); (6211, 6211); (6277, 6278);
    (6313, 6313); (6432, 6434); (6439, 6440); (6450, 6450); (6457, 6459); (6679, 6680);
    (6683, 6683); (6742, 6742); (6744, 6750); (6752, 6752); (6754, 6754); (6757, 6764);
    (6771, 6780); (6783, 6783); (6823, 6823); (6832, 6862); (6912, 6915); (6964, 6964);
    (6966, 6970); (6972, 6972); (6978, 6978); (7019, 7027); (7040, 7041); (7074, 7077);
    (7080, 7081); (7083, 7085); (7142, 7142); (7144, 7145); (7149, 7149); (7151, 7153);
    (7212, 7219); (7222, 7223); (7288, 7293); (7376, 7378); (7380, 7392); (7394, 7400);
    (7405, 7405); (7412, 7412); (7416, 7417); (7468, 7530); (7544, 7544); (7579, 7679);
    (8125, 8125); (8127, 8129); (8141, 8143); (8157, 8159); (8173, 8175); (8189, 8190);
    (8203, 8207); (8216, 8217); (8228, 8228); (8231, 8231); (8234, 8238); (8288, 8292);
    (8294, 8303); (8305, 8305); (8319, 8319); (8336, 8348); (8400, 8432); (11388, 11389);
    (11503, 11505); (11631, 11631); (11647, 11647); (11744, 11775); (11823, 11823); (12293, 12293);
    (12330, 12333); (12337, 12341); (12347, 12347); (12441, 12446); (12540, 12542); (40981, 40981);
    (42232, 42237); (42508, 42508); (42607, 42610); (42612, 42621); (42623, 42623); (42652, 42655);
    (42736, 42737); (42752, 42785); (42864, 42864); (42888, 42890); (42994, 42996); (43000, 43001);
    (43010, 43010); (43014, 43014); (43019, 43019); (43045, 43046); (43052, 43052); (43204, 43205);
    (43232, 43249); (43263, 43263); (43302, 43309); (43335, 43345); (43392, 43394); (43443, 43443);
    (43446, 43449); (43452, 43453); (43471, 43471); (43493, 43494); (43561, 43566); (43569, 43570);
    (43573, 43574); (43587, 43587); (43596, 43596); (43632, 43632); (43644, 43644); (43696, 43696);
    (43698, 43700); (43703, 43704); (43710, 43711); (43713, 43713); (43741, 43741); (43756, 43757);
    (43763, 43764); (43766, 43766); (43867, 43871); (43881, 43883); (44005, 44005); (44008, 44008);
    (44013, 44013); (64286, 64286); (64434, 64450); (65024, 65039); (65043, 65043); (65056, 65071);
    (65106, 65106); (65109, 65109); (65279, 65279); (65287, 65287); (65294, 65294); (65306, 65306);
    (65342, 65342); (65344, 65344); (65392, 65392); (65438, 65439); (65507, 65507); (65529, 65531);
    (66045, 66045); (66272, 66272); (66422, 66426); (67456, 67461); (67463, 67504); (67506, 67514);
    (68097, 68099); (68101, 68102); (68108, 68111); (68152, 68154); (68159, 68159); (68325, 68326);
    (68900, 68903); (69291, 69292); (69446, 69456); (69506, 69509); (69633, 69633); (69688, 69702);
    (69744, 69744); (69747, 69748); (69759, 69761); (69811, 69814); (69817, 69818); (69821, 69821);
    (69826, 69826); (69837, 69837); (69888, 69890); (69927, 69931); (69933, 69940); (70003, 70003);
    (70016, 70017); (70070, 70078); (70089, 70092); (70095, 70095); (70191, 70193); (70196, 70196);
    (70198, 70199); (70206, 70206); (70367, 70367); (70371, 70378); (70400, 70401); (70459, 70460);
    (70464, 70464); (70502, 70508); (70512, 70516); (70712, 70719); (70722, 70724); (70726, 70726);
    (70750, 70750); (70835, 70840); (70842, 70842); (70847, 70848); (70850, 70851); (71090, 71093);
    (71100, 71101); (71103, 71104); (71132, 71133); (71219, 71226); (71229, 71229); (71231, 71232);
    (71339, 71339); (71341, 71341); (71344, 71349); (71351, 71351); (71453, 71455); (71458, 71461);
    (71463, 71467); (71727, 71735); (71737, 71738); (71995, 71996); (71998, 71998); (72003, 72003);
    (72148, 72151); (72154, 72155); (72160, 72160); (72193, 72202); (72243, 72248); (72251, 72254);
    (72263, 72263); (72273, 72278); (72281, 72283); (72330, 72342); (72344, 72345); (72752, 72758);
    (72760, 72765); (72767, 72767); (72850, 72871); (72874, 72880); (72882, 72883); (72885, 72886);
    (73009, 73014); (73018, 73018); (73020, 73021); (73023, 73029); (73031, 73031); (73104, 73105);
    (73109, 73109); (73111, 73111); (73459, 73460); (78896, 78904); (92912, 92916); (92976, 92982);
    (92992, 92995); (94031, 94031); (94095, 94111); (94176, 94177); (94179, 94180); (110576, 110579);
    (110581, 110587); (110589, 110590); (113821, 113822); (113824, 113827); (118528, 118573); (118576, 118598);
    (119143, 119145); (119155, 119170); (119173, 119179); (119210, 119213); (119362, 119364); (121344, 121398);
    (121403, 121452); (121461, 121461); (121476, 121476); (121499, 121503); (121505, 121519); (122880, 122886);
    (122888, 122904); (122907, 122913); (122915, 122916); (122918, 122922); (123184, 123197); (123566, 123566);
    (123628, 123631); (125136, 125142); (125252, 125259); (127995, 127999); (917505, 917505); (917536, 917631);
    (917760, 917999)
  ]%N.

Definition casedRanges : list (N * N) :=
  [
    (65, 90); (97, 122); (170, 170); (181, 181); (186, 186); (192, 214);
    (216, 246); (248, 442); (444, 447); (452, 659); (661, 687); (880, 883);
    (886, 887); (891, 893); (895, 895); (902, 902); (904, 906); (908, 908);
    (910, 929); (931, 1013); (1015, 1153); (1162, 1327); (1329, 1366); (1376, 1416);
    (4256, 4293); (4295, 4295); (4301, 4301); (4304, 4346); (4349, 4351); (5024, 5109);
    (5112, 5117); (7296, 7304); (7312, 7354); (7357, 7359); (7424, 7467); (7531, 7543);
    (7545, 7578); (7680, 7957); (7960, 7965); (7968, 8005); (8008, 8013); (8016, 8023);
    (8025, 8025); (8027, 8027); (8029, 8029); (8031, 8061); (8064, 8116); (8118, 8124);
    (8126, 8126); (8130, 8132); (8134, 8140); (8144, 8147); (8150, 8155); (8160, 8172);
    (8178, 8180); (8182, 8188); (8450, 8450); (8455, 8455); (8458, 8467); (8469, 8469);
    (8473, 8477); (8484, 8484); (8486, 8486); (8488, 8488); (8490, 8493); (8495, 8500);
    (8505, 8505); (8508, 8511); (8517, 8521); (8526, 8526); (8544, 8575); (8579, 8580);
    (9398, 9449); (11264, 11387); (11390, 11492); (11499, 11502); (11506, 11507); (11520, 11557);
    (11559, 11559); (11565, 11565); (42560, 42605); (42624, 42651); (42786, 42863); (42865, 42887);
    (42891, 42894); (42896, 42954); (42960, 42961); (42963, 42963); (42965, 42969); (42997, 42998);
    (43002, 43002); (43824, 43866); (43872, 43880); (43888, 43967); (64256, 64262); (64275, 64279);
    (65313, 65338); (65345, 65370); (66560, 66639); (66736, 66771); (66776, 66811); (66928, 66938);
    (66940, 66954); (66956, 66962); (66964, 66965); (66967, 66977); (66979, 66993); (66995, 67001);
    (67003, 67004); (68736, 68786); (68800, 68850); (71840, 71903); (93760, 93823); (119808, 119892);
    (119894, 119964); (119966, 119967); (119970, 119970); (119973, 119974); (119977, 119980); (119982, 119993);
    (119995, 119995); (119997, 120003); (120005, 120069); (120071, 120074); (120077, 120084); (120086, 120092);
    (120094, 120121); (120123, 120126); (120128, 120132); (120134, 120134); (120138, 120144); (120146, 120485);
    (120488, 120512); (120514, 120538); (120540, 120570); (120572, 120596); (120598, 120628); (120630, 120654);
    (120656, 120686); (120688, 120712); (120714, 120744); (120746, 120770); (120772, 120779); (122624, 122633);
    (122635, 122654); (125184, 125251); (127280, 127305); (127312, 127337); (127344, 127369)
  ]%N.

Definition in_codepoint_ranges (rs : list (N * N)) (cp : N) : bool :=
  existsb (fun r => N.leb (fst r) cp && N.leb cp (snd r)) rs.

Definition isCaseIgnorable (cp : N) : bool := in_codepoint_ranges caseIgnorableRanges cp.
Definition isCased (cp : N) : bool := in_codepoint_ranges casedRanges cp.

(** The lower case of a code point other than the capital sigma: U+0130
    becomes "i" followed by U+0307, a code point of the table its image,
    any other code point itself. *)
Definition lowerCodePoint (cp : N) : list N :=
  if N.eqb cp 304 then [105; 775]%N
  else
    match find (fun e => let '(first, last, step, _) := e in
                         N.leb first cp && N.leb cp last
                         && N.eqb ((cp - first) mod step) 0) lowerTable with
    | Some (first, _, _, target) => [target + (cp - first)]%N
    | None => [cp]
    end.

(** The first of the code points that is not case-ignorable is a cased
    letter. *)
Fixpoint casedLetterNext (cps : list N) : bool :=
  match cps with
  | [] => false
  | cp :: cps' => if isCaseIgnorable cp then casedLetterNext cps' else isCased cp
  end.

(** Final_Sigma: the capital sigma comes after a cased letter and not
    before one, case-ignorable code points between them set aside;
    [bef] holds the code points before, the last one first. *)
Definition finalSigma (bef aft : list N) : bool :=
  casedLetterNext bef && negb (casedLetterNext aft).

Fixpoint lowerCodePoints (bef aft : list N) : list N :=
  match aft with
  | [] => []
  | cp :: aft' =>
      (if N.eqb cp 931
       then [if finalSigma bef aft' then 962 else 963]%N
       else lowerCodePoint cp)
      ++ lowerCodePoints (cp :: bef) aft'
  end.

Definition toLowerCaseUnicode (s : jsstring) : jsstring :=
  flat_map fromCodePoint (lowerCodePoints [] (toCodePoints s)).

(** ** App.jsx *)

(** [hh.days.includes(day)] for an array [hh.days]. *)
Definition array_includes (l : list jsstring) (x : jsstring) : bool :=
  existsb (jsstring_eqb x) l.

(** The callback of [data.filter] in [App]. *)
Definition keeps (neighborhood day search : jsstring) (venue : VenueInfo) : bool :=
  if negb (jsstring_eqb neighborhood (str "All"))
     && negb (jsstring_eqb (info_neighborhood venue) neighborhood)
  then false
  else if negb (jsstring_eqb day (str "All"))
     && match happy_hour venue with
        | None => true
        | Some hh =>
            match days hh with
            | VArray l => negb (array_includes l day)
            | VString _ => true
            end
        end
  then false
  else if negb (isZero (length (trim search)))
     && negb (includes (toLowerCaseUnicode (info_name venue))
                       (toLowerCaseUnicode (trim search)))
  then false
  else true.

Definition filtered (data : list VenueInfo) (neighborhood day search : jsstring)
    : list VenueInfo :=
  filter (keeps neighborhood day search) data.

(** ** FilterBar.jsx *)

Definition NEIGHBORHOODS : list jsstring := map str ["All"; "LoDo"; "LoHi"]%string.

Definition DAYS : list jsstring :=
  map str ["Sunday"; "Monday"; "Tuesday"; "Wednesday"; "Thursday"; "Friday"; "Saturday"]%string.

(** [todayName], with [getDay] the value of [new Date().getDay()]:
    [None] for [undefined]. *)
Definition todayName (getDay : nat) : option jsstring := nth_error DAYS getDay.

(** ** VenueCard.jsx *)

(** [hh && Array.isArray(hh.days) && hh.days.length > 0] *)
Definition hasHappyHour (venue : VenueInfo) : bool :=
  match happy_hour venue with
  | Some hh =>
      match days hh with
      | VArray l => Nat.ltb 0 (length l)
      | VString _ => false
      end
  | None => false
  end.

(** The text of the badge of a day: [d.slice(0, 3)]. *)
Definition dayBadge (d : jsstring) : jsstring := slice0 d 3.

(** ** Notions for the statements and the proofs *)

Fixpoint nullable (r : regex) : bool :=
  match r with
  | Empty | AssertStart | AssertEnd | WordBoundary => true
  | Chars _ _ => false
  | Seq r1 r2 => nullable r1 && nullable r2
  | Alt r1 r2 => nullable r1 || nullable r2
  | Repeat r' min max _ =>
      isZero min || nullable r' || match max with Some 0 => true | _ => false end
  | Group _ r' => nullable r'
  end.

Definition mem_nat (n : nat) (l : list nat) : bool := existsb (Nat.eqb n) l.

Fixpoint defCaptures (n : nat) (r : regex) : bool :=
  match r with
  | Seq r1 r2 => (defCaptures n r1 && negb (mem_nat n (groupsOf r2))) || defCaptures n r2
  | Alt r1 r2 => defCaptures n r1 && defCaptures n r2
  | Group k r' => Nat.eqb k n || defCaptures n r'
  | _ => false
  end.

Definition hasCap (n : nat) (x : MatchState) : Prop :=
  get_capture n (captures x) <> None.

(** [follows x y]: the state [y] is the state [x] moved forward over some
    text [w]. *)
Definition follows (x y : MatchState) : Prop :=
  exists w, after x = w ++ after y /\ before y = rev w ++ before x /\
            endIndex y = endIndex x + length w.

(** What a successful match of [r] from [x] to [y] guarantees. *)
Definition advances (r : regex) (x y : MatchState) : Prop :=
  follows x y /\
  remaining y <= remaining x /\
  endIndex y + remaining y = endIndex x + remaining x /\
  (nullable r = false -> remaining y < remaining x) /\
  (forall n, defCaptures n r = true \/ (hasCap n x /\ ~ In n (groupsOf r)) -> hasCap n y).

(** A matcher calls its continuation at positions from its own on only. *)
Definition forward (m : Matcher) : Prop :=
  forall x c1 c2,
    (forall y, remaining y <= remaining x ->
               endIndex y + remaining y = endIndex x + remaining x -> c1 y = c2 y) ->
    m x c1 = m x c2.

(** Where a pattern can start: [starts ic r ch] holds when a match of [r]
    may consume [ch] first. *)
Fixpoint starts (ic : bool) (r : regex) (ch : char) : bool :=
  match r with
  | Chars invert rs => xorb invert (class_mem ic rs ch)
  | Seq r1 r2 => starts ic r1 ch || (nullable r1 && starts ic r2 ch)
  | Alt r1 r2 => starts ic r1 ch || starts ic r2 ch
  | Repeat r' _ _ _ => starts ic r' ch
  | Group _ r' => starts ic r' ch
  | _ => false
  end.

Definition wellCaptured (re : RegExp) (m : MatchResult) : Prop :=
  forall n, defCaptures n (pattern re) = true -> capture m n <> None.

(** A set of days: names of [DAYS_OF_WEEK], none twice. *)
Definition daySet (l : list jsstring) : Prop :=
  NoDup l /\ Forall (fun d => In d DAYS_OF_WEEK) l.

Definition allUnknown : HappyHour := mkHappyHour unknown unknown unknown unknown unknown.

(** [text] contains [phrase]. *)
Definition contains (text phrase : jsstring) : Prop :=
  exists pre post, text = pre ++ phrase ++ post.



(** The three filters of the frontend, as the specification words them. *)
Definition neighborhoodMatches (neighborhood : jsstring) (venue : VenueInfo) : bool :=
  jsstring_eqb neighborhood (str "All") || jsstring_eqb (info_neighborhood venue) neighborhood.

Definition dayMatches (day : jsstring) (venue : VenueInfo) : bool :=
  jsstring_eqb day (str "All") ||
  match happy_hour venue with
  | Some hh =>
      match days hh with
      | VArray l => array_includes l day
      | VString _ => false
      end
  | None => false
  end.

Definition nameMatches (search name : jsstring) : bool :=
  isZero (length (trim search)) ||
  includes (toLowerCaseUnicode name) (toLowerCaseUnicode (trim search)).

Definition searchMatches (search : jsstring) (venue : VenueInfo) : bool :=
  nameMatches search (info_name venue).

Definition satisfies (neighborhood day search : jsstring) (venue : VenueInfo) : bool :=
  neighborhoodMatches neighborhood venue && dayMatches day venue && searchMatches search venue.

(** [litMatches w s]: the text [s] begins with the word [w] of a pattern
    with the [i] flag. *)
Fixpoint litMatches (w s : jsstring) : bool :=
  match w, s with
  | [], _ => true
  | a :: w', b :: s' => class_mem true [(a, a)] b && litMatches w' s'
  | _ :: _, [] => false
  end.

(** One or two digits. *)
Definition isHourText (h : jsstring) : bool :=
  (Nat.eqb (length h) 1 || Nat.eqb (length h) 2) && forallb isAsciiDigit h.

(** "am" or "pm", each letter in either case. *)
Definition isMeridiemText (m : jsstring) : bool :=
  match m with
  | [a; b] =>
      (N.eqb a 97 || N.eqb a 65 || N.eqb a 112 || N.eqb a 80) && (N.eqb b 109 || N.eqb b 77)
  | _ => false
  end.

Definition digitUnits : list char := [48; 49; 50; 51; 52; 53; 54; 55; 56; 57]%N.

Definition hourTexts : list jsstring :=
  map (fun d => [d]) digitUnits ++
  flat_map (fun d1 => map (fun d2 => [d1; d2]) digitUnits) digitUnits.

Definition meridiemTexts : list jsstring :=
  flat_map (fun a => map (fun b => [a; b]) [109; 77]%N) [97; 65; 112; 80]%N.

Definition normalizesTo (t expected : jsstring) : bool :=
  match normalizeTime (Some t) with
  | Some t' => jsstring_eqb t' expected
  | None => false
  end.

(** The days from the [i]-th to the [j]-th of the week, both included,
    going round the week. *)
Definition cyclicRange (i j : nat) : list jsstring :=
  map (fun k => nth ((i + k) mod 7) DAYS_OF_WEEK [])
      (List.seq 0 ((j + 7 - i) mod 7 + 1)).

Fixpoint days_eqb (a b : list jsstring) : bool :=
  match a, b with
  | [], [] => true
  | x :: a', y :: b' => jsstring_eqb x y && days_eqb a' b'
  | _, _ => false
  end.

Definition rangeExpands (i j : nat) : bool :=
  match extractDays (nth i DAYS_OF_WEEK [] ++ str "-" ++ nth j DAYS_OF_WEEK []) with
  | Done (Some l) => days_eqb l (cyclicRange i j)
  | _ => false
  end.

Definition weekdays : list jsstring :=
  map str ["Monday"; "Tuesday"; "Wednesday"; "Thursday"; "Friday"]%string.

Definition namesDay (d : string) (m : MatchResult) : Prop := capture m 1 = Some (str d).

(** A lower-case ASCII letter or a digit: what [[a-z0-9]] holds. *)
Definition isSlugAlnum (c : char) : bool := isAsciiLower c || isAsciiDigit c.

Definition isAsciiAlnum (c : char) : bool :=
  isAsciiLower c || isAsciiUpper c || isAsciiDigit c.

(** What [replace(/[^a-z0-9]+/g, '-')] returns: each run of other code
    units becomes one hyphen ([inRun] says that a run is being read). *)
Fixpoint collapse (inRun : bool) (s : jsstring) : jsstring :=
  match s with
  | [] => []
  | c :: s' =>
      if isSlugAlnum c then c :: collapse false s'
      else if inRun then collapse true s'
      else hyphen :: collapse true s'
  end.

(** What [replace(/(^-|-$)/g, '')] returns past the start of the string:
    a hyphen at the end is dropped. *)
Fixpoint dropEndHyphen (s : jsstring) : jsstring :=
  match s with
  | [] => []
  | [c] => if N.eqb c hyphen then [] else [c]
  | c :: s' => c :: dropEndHyphen s'
  end.

(** And from the start of the string: a hyphen there is dropped too. *)
Definition dropEdgeHyphens (s : jsstring) : jsstring :=
  match s with
  | [] => []
  | c :: s' => if N.eqb c hyphen then dropEndHyphen s' else c :: dropEndHyphen s'
  end.

Definition alnumAhead (rest : jsstring) : Prop :=
  match rest with
  | [] => True
  | c :: _ => isSlugAlnum c = true
  end.

(** A code unit of a slug. *)
Definition isSlugUnit (c : char) : bool := isSlugAlnum c || N.eqb c hyphen.

(** No two hyphens side by side; with [afterHyphen], no hyphen at the
    start either. *)
Fixpoint hyphensApart (afterHyphen : bool) (s : jsstring) : Prop :=
  match s with
  | [] => True
  | c :: s' =>
      if N.eqb c hyphen then afterHyphen = false /\ hyphensApart true s'
      else hyphensApart false s'
  end.

Fixpoint endsWithHyphen (s : jsstring) : bool :=
  match s with
  | [] => false
  | [c] => N.eqb c hyphen
  | _ :: s' => endsWithHyphen s'
  end.

(** A venue without a website: [!venue.website]. *)
Definition noWebsite (v : Venue) : Prop := website v = None \/ website v = Some [].

(** The raw text the extractor reads for a venue. *)
Definition rawTextOf (dir : RawDir) (v : Venue) : jsstring :=
  match dir (id v ++ str ".txt") with
  | Some content => content
  | None => str ""
  end.

(** The session of a venue fails: a context or a page cannot be opened
    for it, or the context cannot be closed. *)
Definition sessionFails (w : Chromium) (k : nat) (v : Venue) : Prop :=
  ~ noWebsite v /\ (opened (session w k) = false \/ closed (session w k) = false).

(** What [crawlVenue] writes for the venue at position [k] when it
    returns. *)
Definition venueTextOf (hostname : jsstring -> option jsstring) (w : Chromium)
    (k : nat) (v : Venue) : jsstring :=
  match website v with
  | None | Some [] => noWebsiteText v
  | Some site => crawledText hostname (session w k) v site
  end.

(** The ids are slugs: lower-case ASCII letters, digits and hyphens, as
    the scraper writes them.  The file name [id ++ ".txt"] then has no
    path separator and names a file in data/raw itself, so that the
    write by [fs.writeFileSync] into the directory made by [ensureDirs]
    goes through. *)
Definition slugIds (venues : list Venue) : Prop :=
  Forall (fun v => forallb isSlugUnit (id v) = true) venues.

(** The text of a page as the raw file has it: the text that the
    evaluation in the page returns, or nothing when it throws. *)
Inductive pageTextIs (page : Page) : jsstring -> Prop :=
| text_evaluated t : bodyText page = Some t -> pageTextIs page t
| text_failed : bodyText page = None -> pageTextIs page [].

(** The section of the raw file for a link: a line with the link between
    "=== " and " ===", then the text of the page and an empty line, or,
    when the page cannot be fetched, "Failed to fetch: " with the message
    of the error and an empty line. *)
Inductive sectionIs (s : Session) (link : jsstring) : jsstring -> Prop :=
| section_loaded page t :
    subpage s link = Loaded page -> pageTextIs page t ->
    sectionIs s link (str "=== " ++ link ++ str " ===" ++ [10%N] ++ t ++ [10; 10]%N)
| section_failed message :
    subpage s link = Failed message ->
    sectionIs s link (str "=== " ++ link ++ str " ===" ++ [10%N] ++
                      str "Failed to fetch: " ++ message ++ [10; 10]%N).

(** The four lines at the head of a raw file and the empty line after
    them. *)
Definition headLines (v : Venue) (site : jsstring) : jsstring :=
  str "Venue: " ++ name v ++ [10%N] ++
  str "Address: " ++ address v ++ [10%N] ++
  str "Neighborhood: " ++ neighborhood v ++ [10%N] ++
  str "Website: " ++ site ++ [10; 10]%N.

(** The raw file of a venue that [crawlVenue] has crawled in the session
    [s]: for a venue without website the head with "none" and one line;
    for a homepage that cannot be fetched the head and one line with the
    message of the error; else the head, the section of the homepage and
    one section for each of the links that [findRelevantLinks] gives for
    the homepage, in their order. *)
Inductive rawFileIs (hostname : jsstring -> option jsstring) (s : Session) (v : Venue)
    : jsstring -> Prop :=
| raw_noWebsite :
    noWebsite v ->
    rawFileIs hostname s v
      (headLines v (str "none") ++ str "No website available for crawling." ++ [10%N])
| raw_homeFailed site message :
    website v = Some site -> site <> [] -> home s = Failed message ->
    rawFileIs hostname s v
      (headLines v site ++ str "Failed to fetch homepage: " ++ message ++ [10%N])
| raw_crawled site page t sections :
    website v = Some site -> site <> [] -> home s = Loaded page ->
    pageTextIs page t ->
    Forall2 (sectionIs s) (findRelevantLinks hostname (anchors page) site) sections ->
    length sections <= 5 ->
    rawFileIs hostname s v
      (headLines v site ++ str "=== HOMEPAGE ===" ++ [10%N] ++ t ++ [10; 10]%N ++
       concat sections).

(** The address or the trimmed text of the anchor, in lower case, holds
    one of the nine keywords. *)
Definition mentionsKeyword (a : Anchor) : Prop :=
  exists kw,
    In kw (map str ["happy"; "special"; "menu"; "drink"; "hour"; "deal"; "promo"; "offer";
                    "food"]%string) /\
    (contains (toLowerCase (href a)) kw \/
     contains (toLowerCase (trim (textContent a))) kw).

(** The link is a URL whose host is the host [base] of the site or a
    subdomain of it. *)
Definition onSite (hostname : jsstring -> option jsstring) (base link : jsstring) : Prop :=
  exists host, hostname link = Some host /\
               (host = base \/ exists sub, host = sub ++ str "." ++ base).

(** The anchor at position [i] of the page is the first of the anchors
    with a keyword that has the address [link]. *)
Definition firstAnchorAt (anchors : list Anchor) (i : nat) (link : jsstring) : Prop :=
  (exists a, nth_error anchors i = Some a /\ href a = link /\ mentionsKeyword a) /\
  (forall j a, j < i -> nth_error anchors j = Some a -> mentionsKeyword a -> href a <> link).

(** Positions that grow from each one to the next. *)
Fixpoint increasing (l : list nat) : Prop :=
  match l with
  | [] => True
  | p :: l' => Forall (fun q => p < q) l' /\ increasing l'
  end.

Definition startsNonSpace (s : jsstring) : Prop :=
  match s with
  | [] => True
  | c :: _ => isWhiteSpace c = false
  end.

(** The white space code units, which [trim] strips. *)
Definition whiteSpaceUnit (c : char) : Prop :=
  ((9 <= c <= 13) \/ c = 32 \/ c = 160 \/ c = 5760 \/ (8192 <= c <= 8202) \/ c = 8232
   \/ c = 8233 \/ c = 8239 \/ c = 8287 \/ c = 12288 \/ c = 65279)%N.

(** [matches ic r x y]: the pattern [r] can take the matcher from the
    state [x] to the state [y].  The matcher of a pattern succeeds only
    through such a step (see [compile_matches]). *)
Inductive matches (ic : bool) : regex -> MatchState -> MatchState -> Prop :=
| matches_Empty x : matches ic Empty x x
| matches_Chars invert rs x ch rest :
    after x = ch :: rest ->
    xorb invert (class_mem ic rs ch) = true ->
    matches ic (Chars invert rs) x
            (mkState (ch :: before x) rest (captures x) (S (endIndex x)))
| matches_Seq r1 r2 x y z :
    matches ic r1 x y -> matches ic r2 y z -> matches ic (Seq r1 r2) x z
| matches_Alt_l r1 r2 x y : matches ic r1 x y -> matches ic (Alt r1 r2) x y
| matches_Alt_r r1 r2 x y : matches ic r2 x y -> matches ic (Alt r1 r2) x y
| matches_Repeat_stop r min max greedy x :
    isZero min = true \/ max = Some 0 ->
    matches ic (Repeat r min max greedy) x x
| matches_Repeat_turn r min max greedy x y z :
    max <> Some 0 ->
    matches ic r (clear_captures (groupsOf r) x) y ->
    (isZero min = true -> endIndex y <> endIndex x) ->
    matches ic (Repeat r (pred min) (option_map pred max) greedy) y z ->
    matches ic (Repeat r min max greedy) x z
| matches_Group n r x y :
    matches ic r x y -> matches ic (Group n r) x (set_capture n (consumed x y) y)
| matches_AssertStart x : before x = [] -> matches ic AssertStart x x
| matches_AssertEnd x : after x = [] -> matches ic AssertEnd x x
| matches_WordBoundary x :
    xorb (wordBefore x) (wordAfter x) = true -> matches ic WordBoundary x x.

Definition timeRange (meridiem : regex) : list regex :=
  [Group 1 (clock meridiem); star space; rangeSign; star space; Group 2 (clock meridiem)].

Definition startsWithDigit (s : option jsstring) : Prop :=
  exists d w, isAsciiDigit d = true /\ s = Some (d :: w).

(** The code units a pattern can start with, for a pattern that starts
    with single code units. *)
Fixpoint firstUnits (r : regex) : option (list char) :=
  match r with
  | Chars false [(a, b)] => if N.eqb a b then Some [a] else None
  | Seq r1 r2 => if nullable r1 then None else firstUnits r1
  | Alt r1 r2 =>
      match firstUnits r1, firstUnits r2 with
      | Some l1, Some l2 => Some (l1 ++ l2)
      | _, _ => None
      end
  | Group _ r' => firstUnits r'
  | _ => None
  end.

Definition isPrintable (c : char) : bool := in_range 33 126 c.

(** A pattern of the deals: it takes at least one code unit, and starts
    with a printable ASCII character. *)
Definition dealPattern (re : RegExp) : bool :=
  negb (nullable (pattern re)) &&
  match firstUnits (pattern re) with
  | Some l => forallb isPrintable l
  | None => false
  end.

(** A phrase of a text: a piece of it, not empty, with no white space at
    its ends. *)
Definition phraseOf (text d : jsstring) : Prop :=
  d <> [] /\ trim d = d /\ contains text d.

Definition phrasesOf (text : jsstring) (r : option (list jsstring)) : Prop :=
  match r with
  | None => True
  | Some l => l <> [] /\ NoDup l /\ Forall (phraseOf text) l
  end.

Definition dealSet (text : jsstring) (deals : StringSet) : Prop :=
  NoDup deals /\ Forall (phraseOf text) deals.

(** A time field of a record: the text "unknown", or a text that starts
    with a digit. *)
Definition timeField (v : value) : Prop :=
  v = unknown \/ exists d t, isAsciiDigit d = true /\ v = VString (d :: t).

(** A deals field of a record: the text "unknown", or a list of phrases
    of the raw text. *)
Definition dealsField (rawText : jsstring) (v : value) : Prop :=
  v = unknown \/
  exists l, v = VArray l /\ l <> [] /\ NoDup l /\ Forall (phraseOf rawText) l.

Definition isMinuteText (mm : jsstring) : bool :=
  Nat.eqb (length mm) 2 && forallb isAsciiDigit mm.

Definition minuteTexts : list jsstring :=
  flat_map (fun d1 => map (fun d2 => [d1; d2]) digitUnits) digitUnits.

(** A link that the scraper takes for the website of a venue. *)
Definition externalLink (href : jsstring) : Prop :=
  href <> [] /\ ~ contains href (str "google.com") /\ exists path, href = str "http" ++ path.

Definition isExternalLink (href : jsstring) : bool :=
  negb (isZero (length href)) && negb (includes href (str "google.com"))
  && startsWith href (str "http").



(** A card with a headline that is not blank. *)
Definition hasName (card : Card) : bool :=
  match headline card with
  | Some text => negb (isZero (length (trim text)))
  | None => false
  end.

(** The venue that is pushed for a card with a name. *)
Definition venueOfCard (nbhd : jsstring) (card : Card) (v : ScrapedVenue) : Prop :=
  (exists text, headline card = Some text /\ scraped_name v = trim text) /\
  scraped_name v <> [] /\ trim (scraped_name v) = scraped_name v /\
  scraped_address v = cardAddress card /\
  scraped_neighborhood v = nbhd /\
  scraped_website v = cardWebsite (links card).

Definition lodoQuery : jsstring := str "happy hour bars LoDo Denver".
Definition lohiQuery : jsstring := str "happy hour bars LoHi Denver".

(** The set [b] is the set [a] with days added after it. *)
Definition extends (a b : StringSet) : Prop := exists l, b = a ++ l.

Definition wholeWeekPhrase (lower : jsstring) : Prop :=
  contains lower (str "daily") \/ contains lower (str "every day")
  \/ contains lower (str "7 days").

(** [b] is the lower-case letter [a], in lower or in upper case. *)
Definition sameLetter (a b : char) : bool := N.eqb b a || N.eqb b (a - 32).

Fixpoint sameLetters (tok w : jsstring) : bool :=
  match tok, w with
  | [], [] => true
  | a :: tok', b :: w' => sameLetter a b && sameLetters tok' w'
  | _, _ => false
  end.

(** The spellings of the days that [dayPattern] knows. *)
Definition spellings : list (jsstring * jsstring) :=
  [ (str "mon", str "Monday"); (str "monday", str "Monday");
    (str "tue", str "Tuesday"); (str "tues", str "Tuesday"); (str "tuesday", str "Tuesday");
    (str "wed", str "Wednesday"); (str "wednesday", str "Wednesday");
    (str "thu", str "Thursday"); (str "thurs", str "Thursday");
    (str "thursday", str "Thursday");
    (str "fri", str "Friday"); (str "friday", str "Friday");
    (str "sat", str "Saturday"); (str "saturday", str "Saturday");
    (str "sun", str "Sunday"); (str "sunday", str "Sunday") ].

(** [w] is a spelling of the day [d], in any mix of cases. *)
Definition dayWord (d w : jsstring) : bool :=
  existsb (fun p => jsstring_eqb (snd p) d && sameLetters (fst p) w) spellings.

(** No word character at the edge of a text: the text is empty or
    starts with a code unit that is no letter, digit or underscore. *)
Definition edgeAfter (post : jsstring) : bool :=
  match post with
  | [] => true
  | c :: _ => negb (isWordChar c)
  end.

(** The same at the end of a text. *)
Definition edgeBefore (pre : jsstring) : bool := edgeAfter (rev pre).

(** A pattern made of lower-case letters only. *)
Fixpoint lettersOnly (r : regex) : bool :=
  match r with
  | Chars invert rs =>
      negb invert && forallb (fun p => N.eqb (fst p) (snd p) && isAsciiLower (fst p)) rs
  | Seq r1 r2 | Alt r1 r2 => lettersOnly r1 && lettersOnly r2
  | Repeat r' _ _ _ | Group _ r' => lettersOnly r'
  | _ => true
  end.

Definition dayPrefixes : list jsstring :=
  map str ["mon"; "tue"; "wed"; "thu"; "fri"; "sat"; "sun"]%string.

(** The phrases that [extractDays] looks for anywhere in the text, in
    lower case: those for the whole week, the weekdays and the weekend,
    and the full names of the days (two of which make a range). *)
Definition dayPhrases : list jsstring :=
  map str ["daily"; "every day"; "7 days"; "weekday"; "weekend";
           "monday"; "tuesday"; "wednesday"; "thursday"; "friday"; "saturday";
           "sunday"]%string.

(** One of these phrases is in [s], in any case, be it inside a word. *)
Definition namesDayPhrase (s : jsstring) : bool :=
  existsb (includes (toLowerCase s)) dayPhrases.

(** A word for a day stands at a place of a text: after [bef] (the text
    before the place, last code unit first), which does not end in a
    letter, digit or underscore, the text [aft] goes on with one of the
    spellings of a day, in any case, and after it with no letter, digit
    or underscore. *)
Definition dayWordAt (bef aft : jsstring) : bool :=
  edgeAfter bef &&
  existsb (fun p => sameLetters (fst p) (firstn (length (fst p)) aft) &&
                    edgeAfter (skipn (length (fst p)) aft))
          spellings.

Fixpoint hasDayWordFrom (bef s : jsstring) : bool :=
  dayWordAt bef s ||
  match s with
  | [] => false
  | c :: s' => hasDayWordFrom (c :: bef) s'
  end.

(** The text [s] indicates a day: it holds one of the phrases, or it has
    a word for a day (a name or an abbreviation as a word of its own). *)
Definition indicatesDay (s : jsstring) : bool :=
  namesDayPhrase s || hasDayWordFrom [] s.

(** Patterns made of lower-case letters, sequences, alternatives, groups
    and optional parts, and the words that they match. *)
Fixpoint finiteLetters (r : regex) : bool :=
  match r with
  | Empty => true
  | Chars invert [(a, b)] => negb invert && N.eqb a b && isAsciiLower a
  | Chars _ _ => false
  | Seq r1 r2 | Alt r1 r2 => finiteLetters r1 && finiteLetters r2
  | Repeat r' min max _ =>
      isZero min &&
      match max with
      | Some 0 | Some 1 => true
      | _ => false
      end && finiteLetters r'
  | Group _ r' => finiteLetters r'
  | _ => false
  end.

Fixpoint wordsOf (r : regex) : list jsstring :=
  match r with
  | Empty => [[]]
  | Chars _ [(a, _)] => [[a]]
  | Chars _ _ => []
  | Seq r1 r2 => flat_map (fun t1 => map (app t1) (wordsOf r2)) (wordsOf r1)
  | Alt r1 r2 => wordsOf r1 ++ wordsOf r2
  | Repeat r' _ (Some 1) _ => [] :: wordsOf r'
  | Repeat _ _ _ _ => [[]]
  | Group _ r' => wordsOf r'
  | _ => []
  end.

(** No full name of a day begins the text. *)
Definition noFullName (s : jsstring) : Prop :=
  Forall (fun w => litMatches (str w) s = false)
         ["monday"; "tuesday"; "wednesday"; "thursday"; "friday"; "saturday";
          "sunday"]%string.

(** Two code units that are the same up to the case of an ASCII letter:
    they are equal, or one is a capital letter A to Z and the other the
    small letter, 32 above it. *)
Definition sameUnit (x y : char) : Prop :=
  x = y \/ (isAsciiUpper x = true /\ y = (x + 32)%N)
  \/ (isAsciiUpper y = true /\ x = (y + 32)%N).

Definition sameUpToCase (a b : jsstring) : Prop := Forall2 sameUnit a b.

(** Two code units that lower-casing cannot tell apart wherever they
    stand: neither is a surrogate or the capital sigma, they have the same
    lower case, both or none are case-ignorable, cased, white space. *)
Definition plainPair (x y : N) : bool :=
  negb (isHighSurrogate x) && negb (isLowSurrogate x)
  && negb (isHighSurrogate y) && negb (isLowSurrogate y)
  && negb (N.eqb x 931) && negb (N.eqb y 931)
  && jsstring_eqb (lowerCodePoint x) (lowerCodePoint y)
  && Bool.eqb (isCaseIgnorable x) (isCaseIgnorable y)
  && Bool.eqb (isCased x) (isCased y)
  && Bool.eqb (isWhiteSpace x) (isWhiteSpace y).

Definition alike (x y : N) : Prop := x = y \/ plainPair x y = true.

(* ===================================================================== *)
(** * Part II: lemmas and theorems                                        *)
(* ===================================================================== *)

Lemma mem_nat_In n l : mem_nat n l = true <-> In n l.
Proof.
  unfold mem_nat. rewrite existsb_exists. split.
  - intros (k & Hk & E). apply Nat.eqb_eq in E. now subst.
  - intros H. exists n. split; [assumption | apply Nat.eqb_refl].
Qed.

Lemma get_remove_ne n k caps :
  n <> k -> get_capture n (remove_capture k caps) = get_capture n caps.
Proof.
  intros Hne. induction caps as [|[j v] caps IH]; simpl; [reflexivity|].
  destruct (Nat.eqb j k) eqn:Ejk.
  - apply Nat.eqb_eq in Ejk. subst j.
    destruct (Nat.eqb k n) eqn:Ekn.
    + apply Nat.eqb_eq in Ekn. congruence.
    + exact IH.
  - simpl. destruct (Nat.eqb j n); [reflexivity | exact IH].
Qed.

Lemma hasCap_clear n ns x :
  ~ In n ns -> hasCap n x -> hasCap n (clear_captures ns x).
Proof.
  unfold hasCap, clear_captures. simpl. generalize (captures x) as caps.
  induction ns as [|k ns IH]; intros caps Hn H; simpl; [exact H|].
  apply IH.
  - intros Hin. apply Hn. now right.
  - rewrite get_remove_ne; [exact H|]. intros ->. apply Hn. now left.
Qed.

Lemma hasCap_set_same n v x : hasCap n (set_capture n v x).
Proof. unfold hasCap, set_capture. simpl. rewrite Nat.eqb_refl. discriminate. Qed.

Lemma hasCap_set_other n k v x : n <> k -> hasCap n x -> hasCap n (set_capture k v x).
Proof.
  unfold hasCap, set_capture. simpl. intros Hne H.
  destruct (Nat.eqb k n) eqn:E; [discriminate|].
  now rewrite get_remove_ne.
Qed.

Lemma remaining_clear ns x : remaining (clear_captures ns x) = remaining x.
Proof. reflexivity. Qed.

Lemma remaining_set n v x : remaining (set_capture n v x) = remaining x.
Proof. reflexivity. Qed.

Lemma follows_refl x : follows x x.
Proof. exists []. repeat split. simpl. lia. Qed.

Lemma follows_trans x y z : follows x y -> follows y z -> follows x z.
Proof.
  intros (w1 & A1 & B1 & E1) (w2 & A2 & B2 & E2). exists (w1 ++ w2). repeat split.
  - now rewrite A1, A2, app_assoc.
  - now rewrite B2, B1, rev_app_distr, app_assoc.
  - rewrite E2, E1, length_app. lia.
Qed.

Lemma follows_step x ch rest :
  after x = ch :: rest ->
  follows x (mkState (ch :: before x) rest (captures x) (S (endIndex x))).
Proof. intros E. exists [ch]. repeat split; simpl; [exact E | lia]. Qed.

Lemma advances_refl r x :
  nullable r = true -> (forall n, defCaptures n r = false) -> advances r x x.
Proof.
  intros Hn Hd. split; [apply follows_refl|]. repeat split; [lia | congruence |].
  intros n [H | [H _]]; [rewrite Hd in H; discriminate | exact H].
Qed.

Section RepeatSound.

Variable m : Matcher.
Variable r' : regex.
Hypothesis m_sound : forall x c z,
  m x c = Some z -> exists y, c y = Some z /\ advances r' x y.

Lemma RepeatMatcher_sound fuel : forall min max greedy x c z,
  RepeatMatcher fuel m min max greedy (groupsOf r') x c = Some z ->
  exists y, c y = Some z /\ advances (Repeat r' min max greedy) x y.
Proof.
  induction fuel as [|fuel IH]; intros min max greedy x c z H; [discriminate|].
  assert (Hstay : c x = Some z ->
                  (isZero min = true \/ max = Some 0) ->
                  exists y, c y = Some z /\ advances (Repeat r' min max greedy) x y).
  { intros Hc Hnull. exists x. split; [exact Hc|]. apply advances_refl; [|reflexivity].
    simpl. destruct Hnull as [-> | ->]; simpl; [reflexivity|]. now rewrite orb_true_r. }
  assert (Hturn : m (clear_captures (groupsOf r') x)
                    (fun y =>
                       if isZero min && Nat.eqb (endIndex y) (endIndex x) then None
                       else RepeatMatcher fuel m (pred min) (option_map pred max) greedy
                                          (groupsOf r') y c) = Some z ->
                  exists y, c y = Some z /\ advances (Repeat r' min max greedy) x y).
  { intros Hm. apply m_sound in Hm.
    destruct Hm as (y1 & Hd & Hsp1 & Hle1 & Heq1 & Hlt1 & Hcap1).
    rewrite remaining_clear in Hle1, Heq1, Hlt1. cbn [clear_captures endIndex] in Heq1.
    destruct (isZero min && Nat.eqb (endIndex y1) (endIndex x)) eqn:Eg; [discriminate|].
    apply IH in Hd. destruct Hd as (y & Hc & Hsp & Hle & Heq & _ & Hcap).
    exists y. split; [exact Hc|]. split; [|repeat split].
    - eapply follows_trans; [|exact Hsp]. exact Hsp1.
    - lia.
    - lia.
    - simpl. intros Hn. apply orb_false_iff in Hn. destruct Hn as [Hn _].
      apply orb_false_iff in Hn. destruct Hn as [_ Hn]. specialize (Hlt1 Hn). lia.
    - intros n [Hd | [Hh Hni]]; [discriminate|].
      apply Hcap. right. split; [|exact Hni].
      apply Hcap1. right. split; [|exact Hni].
      now apply hasCap_clear. }
  cbn [RepeatMatcher] in H.
  destruct max as [[|max]|].
  - apply Hstay; auto.
  - destruct (isZero min) eqn:Emin; cbn [negb] in H.
    + destruct greedy; cbn [negb] in H.
      * match type of H with match ?t with _ => _ end = _ => destruct t eqn:Hm end.
        -- inversion H; subst. apply Hturn; first [exact Hm | reflexivity].
        -- apply Hstay; auto.
      * destruct (c x) eqn:Hc.
        -- inversion H; subst. apply Hstay; auto.
        -- apply Hturn; first [exact H | reflexivity].
    + apply Hturn; first [exact H | reflexivity].
  - destruct (isZero min) eqn:Emin; cbn [negb] in H.
    + destruct greedy; cbn [negb] in H.
      * match type of H with match ?t with _ => _ end = _ => destruct t eqn:Hm end.
        -- inversion H; subst. apply Hturn; first [exact Hm | reflexivity].
        -- apply Hstay; auto.
      * destruct (c x) eqn:Hc.
        -- inversion H; subst. apply Hstay; auto.
        -- apply Hturn; first [exact H | reflexivity].
    + apply Hturn; first [exact H | reflexivity].
Qed.

End RepeatSound.

(** What a matcher does: when it succeeds, its continuation succeeded at
    a state that the pattern allows after the state it was started in. *)
Lemma compile_sound ic r : forall x c z,
  compile ic r x c = Some z -> exists y, c y = Some z /\ advances r x y.
Proof.
  induction r as [| inv rs | r1 IH1 r2 IH2 | r1 IH1 r2 IH2 | r' IH min max greedy
                 | k r' IH | | | ]; intros x c z H; cbn [compile] in H.
  - exists x. split; [exact H|]. now apply advances_refl.
  - destruct (after x) as [|ch rest] eqn:Ea; [discriminate|].
    destruct (xorb inv (class_mem ic rs ch)); [|discriminate].
    eexists. split; [exact H|]. split; [now apply follows_step|].
    unfold remaining. simpl. rewrite Ea. simpl.
    repeat split; [lia | lia | intros; lia |].
    intros n [Hd | [Hh _]]; [discriminate | exact Hh].
  - apply IH1 in H. destruct H as (y1 & H & Hsp1 & Hle1 & Heq1 & Hlt1 & Hcap1).
    apply IH2 in H. destruct H as (y & H & Hsp2 & Hle2 & Heq2 & Hlt2 & Hcap2).
    exists y. split; [exact H|]. split; [eapply follows_trans; eassumption|]. repeat split.
    + lia.
    + lia.
    + simpl. intros Hn. apply andb_false_iff in Hn. destruct Hn as [Hn | Hn].
      * specialize (Hlt1 Hn). lia.
      * specialize (Hlt2 Hn). lia.
    + simpl. intros n [Hd | [Hh Hni]].
      * apply orb_true_iff in Hd. destruct Hd as [Hd | Hd].
        -- apply andb_true_iff in Hd. destruct Hd as [Hd Hm].
           apply Hcap2. right. split.
           ++ apply Hcap1. now left.
           ++ intros Hin. apply mem_nat_In in Hin. rewrite Hin in Hm. discriminate.
        -- apply Hcap2. now left.
      * apply Hcap2. right. split.
        -- apply Hcap1. right. split; [exact Hh|]. intros Hin. apply Hni, in_or_app. now left.
        -- intros Hin. apply Hni, in_or_app. now right.
  - destruct (compile ic r1 x c) eqn:H1.
    + inversion H; subst. apply IH1 in H1.
      destruct H1 as (y & Hc & Hsp & Hle & Heq & Hlt & Hcap).
      exists y. split; [exact Hc|]. split; [exact Hsp|]. repeat split.
      * exact Hle.
      * exact Heq.
      * simpl. intros Hn. apply orb_false_iff in Hn. now apply Hlt.
      * simpl. intros n [Hd | [Hh Hni]].
        -- apply andb_true_iff in Hd. apply Hcap. now left.
        -- apply Hcap. right. split; [exact Hh|]. intros Hin. apply Hni, in_or_app. now left.
    + apply IH2 in H. destruct H as (y & Hc & Hsp & Hle & Heq & Hlt & Hcap).
      exists y. split; [exact Hc|]. split; [exact Hsp|]. repeat split.
      * exact Hle.
      * exact Heq.
      * simpl. intros Hn. apply orb_false_iff in Hn. now apply Hlt.
      * simpl. intros n [Hd | [Hh Hni]].
        -- apply andb_true_iff in Hd. apply Hcap. now left.
        -- apply Hcap. right. split; [exact Hh|]. intros Hin. apply Hni, in_or_app. now right.
  - eapply RepeatMatcher_sound; [exact IH | exact H].
  - apply IH in H. destruct H as (y & Hc & Hsp & Hle & Heq & Hlt & Hcap).
    eexists. split; [exact Hc|]. split; [exact Hsp|]. repeat split.
    + rewrite remaining_set. exact Hle.
    + rewrite remaining_set. exact Heq.
    + rewrite remaining_set. exact Hlt.
    + simpl. intros n [Hd | [Hh Hni]].
      * destruct (Nat.eqb k n) eqn:E.
        -- apply Nat.eqb_eq in E. subst. apply hasCap_set_same.
        -- apply Nat.eqb_neq in E. apply hasCap_set_other; [congruence|].
           apply Hcap. left. exact Hd.
      * apply hasCap_set_other.
        -- intros ->. apply Hni. now left.
        -- apply Hcap. right. split; [exact Hh|]. intros Hin. apply Hni. now right.
  - destruct (before x); [|discriminate].
    exists x. split; [exact H|]. now apply advances_refl.
  - destruct (after x); [|discriminate].
    exists x. split; [exact H|]. now apply advances_refl.
  - destruct (xorb (wordBefore x) (wordAfter x)); [|discriminate].
    exists x. split; [exact H|]. now apply advances_refl.
Qed.

Section RepeatForward.

Variable m : Matcher.
Hypothesis m_forward : forward m.

Lemma RepeatMatcher_forward fuel : forall min max greedy gs,
  forward (RepeatMatcher fuel m min max greedy gs).
Proof.
  induction fuel as [|fuel IH]; intros min max greedy gs x c1 c2 Hc; [reflexivity|].
  cbn [RepeatMatcher].
  assert (Hm : m (clear_captures gs x)
      (fun y => if isZero min && Nat.eqb (endIndex y) (endIndex x) then None
                else RepeatMatcher fuel m (pred min) (option_map pred max) greedy gs y c1)
    = m (clear_captures gs x)
      (fun y => if isZero min && Nat.eqb (endIndex y) (endIndex x) then None
                else RepeatMatcher fuel m (pred min) (option_map pred max) greedy gs y c2)).
  { apply m_forward. intros y Hy Ey. rewrite remaining_clear in Hy, Ey.
    cbn [clear_captures endIndex] in Ey.
    destruct (isZero min && Nat.eqb (endIndex y) (endIndex x)); [reflexivity|].
    apply IH. intros y' Hy' Ey'. apply Hc; lia. }
  rewrite Hm, (Hc x (le_n _) eq_refl). reflexivity.
Qed.

(** Enough fuel: the result of RepeatMatcher is the same for every [fuel]
    above [min + remaining x]. *)
Lemma RepeatMatcher_fuel f1 : forall f2 min max greedy gs x c,
  min + remaining x < f1 -> min + remaining x < f2 ->
  RepeatMatcher f1 m min max greedy gs x c = RepeatMatcher f2 m min max greedy gs x c.
Proof.
  induction f1 as [|f1 IH]; intros f2 min max greedy gs x c H1 H2; [lia|].
  destruct f2 as [|f2]; [lia|].
  cbn [RepeatMatcher].
  assert (Hm : m (clear_captures gs x)
      (fun y => if isZero min && Nat.eqb (endIndex y) (endIndex x) then None
                else RepeatMatcher f1 m (pred min) (option_map pred max) greedy gs y c)
    = m (clear_captures gs x)
      (fun y => if isZero min && Nat.eqb (endIndex y) (endIndex x) then None
                else RepeatMatcher f2 m (pred min) (option_map pred max) greedy gs y c)).
  { apply m_forward. intros y Hy Ey. rewrite remaining_clear in Hy, Ey.
    cbn [clear_captures endIndex] in Ey.
    destruct (isZero min && Nat.eqb (endIndex y) (endIndex x)) eqn:Eg; [reflexivity|].
    apply andb_false_iff in Eg.
    assert (Hlt : pred min + remaining y < f1 /\ pred min + remaining y < f2).
    { destruct Eg as [Eg | Eg].
      - unfold isZero in Eg. apply Nat.eqb_neq in Eg. lia.
      - apply Nat.eqb_neq in Eg. lia. }
    apply IH; tauto. }
  rewrite Hm. reflexivity.
Qed.

End RepeatForward.

Lemma compile_forward ic r : forward (compile ic r).
Proof.
  induction r as [| inv rs | r1 IH1 r2 IH2 | r1 IH1 r2 IH2 | r' IH min max greedy
                 | k r' IH | | | ]; intros x c1 c2 Hc; cbn [compile].
  - apply Hc; lia.
  - destruct (after x) as [|ch rest] eqn:Ea; [reflexivity|].
    destruct (xorb inv (class_mem ic rs ch)); [|reflexivity].
    apply Hc; unfold remaining; simpl; rewrite Ea; simpl; lia.
  - apply IH1. intros y Hy Ey. apply IH2. intros y' Hy' Ey'. apply Hc; lia.
  - rewrite (IH1 x c1 c2 Hc), (IH2 x c1 c2 Hc). reflexivity.
  - apply RepeatMatcher_forward; assumption.
  - apply IH. intros y Hy Ey. apply Hc; rewrite remaining_set; assumption.
  - destruct (before x); [apply Hc; lia | reflexivity].
  - destruct (after x); [apply Hc; lia | reflexivity].
  - destruct (xorb (wordBefore x) (wordAfter x)); [apply Hc; lia | reflexivity].
Qed.

(** The fuel that [compile] gives a quantifier is enough: more changes
    nothing. *)
Lemma compile_Repeat_fuel ic r min max greedy x c fuel :
  min + remaining x < fuel ->
  compile ic (Repeat r min max greedy) x c =
  RepeatMatcher fuel (compile ic r) min max greedy (groupsOf r) x c.
Proof.
  intros H. cbn [compile]. apply RepeatMatcher_fuel; [apply compile_forward | lia | exact H].
Qed.

Section FirstUnit.

Variable ic : bool.
Variable ch : char.
Variable rest : jsstring.

Lemma RepeatMatcher_cannot_start (m : Matcher) (nul : bool)
  (Hm : forall x c, after x = ch :: rest ->
          (nul = true -> forall y, after y = ch :: rest -> c y = None) ->
          m x c = None) fuel :
  forall min max greedy gs x c,
    after x = ch :: rest ->
    (isZero min || nul || match max with Some 0 => true | _ => false end = true ->
     forall y, after y = ch :: rest -> c y = None) ->
    RepeatMatcher fuel m min max greedy gs x c = None.
Proof.
  induction fuel as [|fuel IH]; intros min max greedy gs x c Hx Hc; [reflexivity|].
  cbn [RepeatMatcher].
  assert (Hturn : m (clear_captures gs x)
      (fun y => if isZero min && Nat.eqb (endIndex y) (endIndex x) then None
                else RepeatMatcher fuel m (pred min) (option_map pred max) greedy gs y c)
      = None).
  { apply Hm; [exact Hx|]. intros Hnul y Hy.
    destruct (isZero min) eqn:Emin; simpl.
    - destruct (Nat.eqb (endIndex y) (endIndex x)); [reflexivity|].
      apply IH; [exact Hy|]. intros _. now apply Hc.
    - apply IH; [exact Hy|]. intros _. apply Hc. rewrite Hnul.
      now rewrite ?orb_true_r. }
  destruct max as [[|max]|].
  - apply Hc; [|exact Hx]. now rewrite orb_true_r.
  - rewrite Hturn. destruct (isZero min) eqn:Emin; simpl; [|reflexivity].
    rewrite (Hc eq_refl x Hx). now destruct greedy.
  - rewrite Hturn. destruct (isZero min) eqn:Emin; simpl; [|reflexivity].
    rewrite (Hc eq_refl x Hx). now destruct greedy.
Qed.

(** A pattern that cannot start with the code unit at the current position
    fails there, unless it can match the empty string and what follows it
    succeeds at that same position. *)
Lemma compile_cannot_start r : forall x c,
  after x = ch :: rest ->
  starts ic r ch = false ->
  (nullable r = true -> forall y, after y = ch :: rest -> c y = None) ->
  compile ic r x c = None.
Proof.
  induction r as [| inv rs | r1 IH1 r2 IH2 | r1 IH1 r2 IH2 | r' IH min max greedy
                 | k r' IH | | | ]; intros x c Hx Hs Hc; cbn [compile]; simpl in Hs, Hc.
  - now apply Hc.
  - rewrite Hx, Hs. reflexivity.
  - apply orb_false_iff in Hs. destruct Hs as [Hs1 Hs2].
    apply IH1; [exact Hx | exact Hs1 |]. intros Hn1 y Hy.
    rewrite Hn1 in Hs2, Hc. simpl in Hs2, Hc.
    apply IH2; [exact Hy | exact Hs2 | exact Hc].
  - apply orb_false_iff in Hs. destruct Hs as [Hs1 Hs2].
    rewrite IH1; [apply IH2 | | |]; try assumption.
    + intros Hn. apply Hc. rewrite Hn. now rewrite orb_true_r.
    + intros Hn. apply Hc. now rewrite Hn.
  - apply RepeatMatcher_cannot_start with (nul := nullable r'); [|exact Hx | exact Hc].
    intros x' c' Hx' Hc'. apply IH; assumption.
  - apply IH; [exact Hx | exact Hs |]. intros Hn y Hy. apply Hc; assumption.
  - destruct (before x); [now apply Hc | reflexivity].
  - rewrite Hx. reflexivity.
  - destruct (xorb (wordBefore x) (wordAfter x)); [now apply Hc | reflexivity].
Qed.

End FirstUnit.

(** ** What [exec] returns *)

Lemma matchAt_sound re bef aft m :
  matchAt re bef aft = Some m ->
  length (rest_after m) <= length aft /\
  (nullable (pattern re) = false -> length (rest_after m) < length aft) /\
  wellCaptured re m.
Proof.
  unfold matchAt. intros H.
  destruct (compile (ignoreCase re) (pattern re) (mkState bef aft [] 0) (fun y => Some y))
    as [z|] eqn:Hz; [|discriminate].
  inversion H; subst m; clear H. simpl.
  apply compile_sound in Hz. destruct Hz as (y & Hy & _ & Hle & _ & Hlt & Hcap).
  inversion Hy; subst y. unfold remaining in Hle, Hlt. simpl in Hle, Hlt.
  repeat split; [exact Hle | exact Hlt |].
  intros n Hn. unfold capture. simpl. apply Hcap. now left.
Qed.

Lemma execFrom_sound re : forall aft bef m,
  execFrom re bef aft = Some m ->
  length (rest_after m) <= length aft /\
  (nullable (pattern re) = false -> length (rest_after m) < length aft) /\
  wellCaptured re m.
Proof.
  induction aft as [|ch aft IH]; intros bef m H; cbn [execFrom] in H.
  - destruct (matchAt re bef []) eqn:Hm; [|discriminate].
    inversion H; subst. now apply matchAt_sound in Hm.
  - destruct (matchAt re bef (ch :: aft)) eqn:Hm.
    + inversion H; subst. now apply matchAt_sound in Hm.
    + apply IH in H. destruct H as (Hle & Hlt & Hcap). simpl.
      repeat split; [lia | | exact Hcap]. intros Hn. specialize (Hlt Hn). lia.
Qed.

(** The fuel of [execAll] is enough: more changes nothing. *)
Lemma execLoop_fuel re : forall f1 f2 bef aft,
  length aft <= f1 -> length aft <= f2 ->
  execLoop f1 re bef aft = execLoop f2 re bef aft.
Proof.
  induction f1 as [|f1 IH]; intros f2 bef aft H1 H2.
  - destruct aft; [|simpl in H1; lia].
    destruct f2; cbn [execLoop]; destruct (execFrom re bef []); reflexivity.
  - destruct f2 as [|f2].
    + destruct aft; [|simpl in H2; lia].
      cbn [execLoop]. destruct (execFrom re bef []); reflexivity.
    + cbn [execLoop]. destruct (execFrom re bef aft) as [m|] eqn:Hm; [|reflexivity].
      destruct (Nat.ltb (length (rest_after m)) (length aft)) eqn:Hlt; [|reflexivity].
      apply Nat.ltb_lt in Hlt. rewrite (IH f2); [reflexivity | lia | lia].
Qed.

(** The [exec] loop of a pattern that cannot match the empty string ends,
    and each of its matches holds the captures the pattern always sets. *)
Lemma execLoop_returns re :
  nullable (pattern re) = false ->
  forall fuel bef aft, length aft <= fuel ->
  exists ms, execLoop fuel re bef aft = Done ms /\ Forall (wellCaptured re) ms.
Proof.
  intros Hn. induction fuel as [|fuel IH]; intros bef aft Hf.
  - destruct aft; [|simpl in Hf; lia]. cbn [execLoop].
    destruct (execFrom re bef []) as [m|] eqn:Hm.
    + apply execFrom_sound in Hm. destruct Hm as (_ & Hlt & _).
      specialize (Hlt Hn). simpl in Hlt. lia.
    + exists []. split; [reflexivity | constructor].
  - cbn [execLoop]. destruct (execFrom re bef aft) as [m|] eqn:Hm.
    + apply execFrom_sound in Hm. destruct Hm as (_ & Hlt & Hcap).
      specialize (Hlt Hn). pose proof Hlt as Hlt'. apply Nat.ltb_lt in Hlt'. rewrite Hlt'.
      destruct (IH (rest_before m) (rest_after m)) as (ms & E & Hms); [lia|].
      rewrite E. simpl. exists (m :: ms). split; [reflexivity | now constructor].
    + exists []. split; [reflexivity | constructor].
Qed.

Lemma execAll_returns re s :
  nullable (pattern re) = false ->
  exists ms, execAll re s = Done ms /\ Forall (wellCaptured re) ms.
Proof. intros Hn. apply execLoop_returns; [exact Hn | apply le_n]. Qed.

(** [exec] passes over code units with which the pattern cannot start. *)
Lemma matchAt_cannot_start re bef ch aft :
  nullable (pattern re) = false ->
  starts (ignoreCase re) (pattern re) ch = false ->
  matchAt re bef (ch :: aft) = None.
Proof.
  intros Hn Hs. unfold matchAt.
  rewrite (@compile_cannot_start (ignoreCase re) ch aft); try reflexivity; try assumption.
  rewrite Hn. discriminate.
Qed.

Lemma matchAt_end re bef :
  nullable (pattern re) = false -> matchAt re bef [] = None.
Proof.
  intros Hn. destruct (matchAt re bef []) as [m|] eqn:Hm; [|reflexivity].
  apply matchAt_sound in Hm. destruct Hm as (_ & Hlt & _). specialize (Hlt Hn).
  simpl in Hlt. lia.
Qed.

Lemma execFrom_skip re : forall pre bef aft,
  nullable (pattern re) = false ->
  Forall (fun ch => starts (ignoreCase re) (pattern re) ch = false) pre ->
  execFrom re bef (pre ++ aft) = execFrom re (rev pre ++ bef) aft.
Proof.
  induction pre as [|ch pre IH]; intros bef aft Hn Hpre; [reflexivity|].
  inversion Hpre; subst. cbn [app execFrom].
  rewrite matchAt_cannot_start by assumption.
  rewrite IH by assumption. simpl. now rewrite <- app_assoc.
Qed.

Lemma execFrom_quiet re pre bef :
  nullable (pattern re) = false ->
  Forall (fun ch => starts (ignoreCase re) (pattern re) ch = false) pre ->
  execFrom re bef pre = None.
Proof.
  intros Hn Hpre. rewrite <- (app_nil_r pre), execFrom_skip by assumption.
  simpl. now rewrite matchAt_end.
Qed.

(** The text at a match: what [exec] passed over, the match, and the
    rest. *)
Lemma matchAt_layout re bef aft m :
  matchAt re bef aft = Some m ->
  aft = matched m ++ rest_after m /\
  rest_before m = rev (matched m) ++ bef /\
  index m = length bef.
Proof.
  unfold matchAt. intros H.
  destruct (compile (ignoreCase re) (pattern re) (mkState bef aft [] 0) (fun y => Some y))
    as [z|] eqn:Hz; [|discriminate].
  inversion H; subst m; clear H. cbn [matched rest_after rest_before index].
  apply compile_sound in Hz. destruct Hz as (y & Hy & (w & A & B & E) & _).
  inversion Hy; subst y. cbn [after before endIndex] in *.
  assert (Ew : consumed (mkState bef aft [] 0) z = w).
  { unfold consumed. cbn [after endIndex]. rewrite E, A. simpl.
    rewrite Nat.sub_0_r, firstn_app, Nat.sub_diag, firstn_all. simpl. apply app_nil_r. }
  rewrite Ew. repeat split; assumption.
Qed.

Lemma execFrom_layout re : forall aft bef m,
  execFrom re bef aft = Some m ->
  exists skipped,
    aft = skipped ++ matched m ++ rest_after m /\
    rest_before m = rev (matched m) ++ rev skipped ++ bef /\
    index m = length bef + length skipped.
Proof.
  induction aft as [|ch aft IH]; intros bef m H; cbn [execFrom] in H.
  - destruct (matchAt re bef []) eqn:Hm; [|discriminate]. inversion H; subst.
    apply matchAt_layout in Hm. destruct Hm as (A & B & E).
    exists []. repeat split; simpl; [exact A | exact B | lia].
  - destruct (matchAt re bef (ch :: aft)) eqn:Hm.
    + inversion H; subst. apply matchAt_layout in Hm. destruct Hm as (A & B & E).
      exists []. repeat split; simpl; [exact A | exact B | lia].
    + apply IH in H. destruct H as (skipped & A & B & E).
      exists (ch :: skipped). repeat split.
      * simpl. now rewrite <- A.
      * rewrite B. simpl. now rewrite <- !app_assoc.
      * rewrite E. simpl. lia.
Qed.

(** The fuel of [replace] is enough: more changes nothing. *)
Lemma replaceLoop_fuel re template : forall f1 f2 bef aft,
  length aft < f1 -> length aft < f2 ->
  replaceLoop f1 re template bef aft = replaceLoop f2 re template bef aft.
Proof.
  induction f1 as [|f1 IH]; intros f2 bef aft H1 H2; [lia|].
  destruct f2 as [|f2]; [lia|]. cbn [replaceLoop].
  destruct (execFrom re bef aft) as [m|] eqn:Hm; [|reflexivity].
  apply execFrom_layout in Hm. destruct Hm as (skipped & A & _ & _).
  assert (Hlen : length aft = length skipped + length (matched m) + length (rest_after m)).
  { rewrite A at 1. rewrite !length_app. lia. }
  destruct (matched m) as [|c w] eqn:Ew.
  - destruct (rest_after m) as [|ch aft'] eqn:Er; [reflexivity|].
    simpl in Hlen. rewrite (IH f2); [reflexivity | lia | lia].
  - simpl in Hlen. rewrite (IH f2); [reflexivity | lia | lia].
Qed.

(** ** Strings and sets *)

Lemma jsstring_eqb_eq a : forall b, jsstring_eqb a b = true <-> a = b.
Proof.
  induction a as [|x a IH]; intros [|y b]; simpl; split; intros H;
    try reflexivity; try discriminate.
  - apply andb_true_iff in H. destruct H as [Hx Hab].
    apply N.eqb_eq in Hx. apply IH in Hab. now subst.
  - inversion H; subst. apply andb_true_iff. split; [apply N.eqb_refl | now apply IH].
Qed.

Lemma jsstring_eqb_refl a : jsstring_eqb a a = true.
Proof. now apply jsstring_eqb_eq. Qed.

Lemma set_has_In s x : set_has s x = true <-> In x s.
Proof.
  unfold set_has. rewrite existsb_exists. split.
  - intros (y & Hy & E). apply jsstring_eqb_eq in E. now subst.
  - intros H. exists x. split; [exact H | apply jsstring_eqb_refl].
Qed.

Lemma set_add_In s x y : In y (set_add s x) <-> In y s \/ y = x.
Proof.
  unfold set_add. destruct (set_has s x) eqn:E.
  - apply set_has_In in E. split; [now left | intros [H | ->]; assumption].
  - rewrite in_app_iff. simpl. split.
    + intros [H | [H | []]]; [now left | now right].
    + intros [H | H]; [now left | right; now left].
Qed.

Lemma set_add_NoDup s x : NoDup s -> NoDup (set_add s x).
Proof.
  intros H. unfold set_add. destruct (set_has s x) eqn:E; [exact H|].
  assert (Hx : ~ In x s).
  { intros Hin. apply set_has_In in Hin. congruence. }
  clear E. induction H as [|y s Hy Hs IH]; simpl.
  - constructor; [intros [] | constructor].
  - constructor.
    + rewrite in_app_iff. simpl. intros [Hin | [-> | []]]; [now apply Hy|].
      apply Hx. now left.
    + apply IH. intros Hin. apply Hx. now right.
Qed.

Lemma set_add_nonempty s x : set_add s x <> [].
Proof.
  unfold set_add. destruct (set_has s x) eqn:E.
  - intros ->. discriminate.
  - destruct s; discriminate.
Qed.

(** ** Day sets *)

Lemma daySet_nil : daySet [].
Proof. split; constructor. Qed.

Lemma daySet_add s d : daySet s -> In d DAYS_OF_WEEK -> daySet (set_add s d).
Proof.
  intros [Hnd Hall] Hd. split; [now apply set_add_NoDup|].
  apply Forall_forall. intros y Hy. apply set_add_In in Hy.
  destruct Hy as [Hy | ->]; [|exact Hd].
  rewrite Forall_forall in Hall. now apply Hall.
Qed.

Lemma daySet_addDayAt s i : daySet s -> daySet (addDayAt s i).
Proof.
  intros H. unfold addDayAt. destruct (nth_error DAYS_OF_WEEK (Z.to_nat i)) eqn:E; [|exact H].
  apply daySet_add; [exact H|]. eapply nth_error_In; eassumption.
Qed.

Lemma fold_set_add_NoDup l : forall acc, NoDup acc -> NoDup (fold_left set_add l acc).
Proof.
  induction l as [|x l IH]; intros acc Hacc; simpl; [exact Hacc|].
  apply IH. now apply set_add_NoDup.
Qed.

Lemma set_of_list_NoDup l : NoDup (set_of_list l).
Proof. apply fold_set_add_NoDup. constructor. Qed.

Lemma NoDup_DAYS_OF_WEEK : NoDup DAYS_OF_WEEK.
Proof.
  replace DAYS_OF_WEEK with (set_of_list DAYS_OF_WEEK) by (vm_compute; reflexivity).
  apply set_of_list_NoDup.
Qed.

Lemma daySet_week : daySet DAYS_OF_WEEK.
Proof. split; [apply NoDup_DAYS_OF_WEEK | apply Forall_forall; auto]. Qed.

Lemma daySet_incl l : NoDup l -> incl l DAYS_OF_WEEK -> daySet l.
Proof. intros H1 H2. split; [exact H1 | apply Forall_forall; exact H2]. Qed.

Lemma normalizeDay_In s d : normalizeDay s = Some d -> In d DAYS_OF_WEEK.
Proof. unfold normalizeDay. intros H. apply find_some in H. tauto. Qed.

Lemma indexOf_DAYS d :
  In d DAYS_OF_WEEK -> (0 <= indexOf DAYS_OF_WEEK d < 7)%Z.
Proof.
  intros H. cbv [DAYS_OF_WEEK map] in H. simpl in H.
  repeat (destruct H as [<- | H]; [vm_compute; split; [discriminate | reflexivity]|]).
  destruct H.
Qed.

Lemma rangeLoop_daySet fuel : forall i stop days days',
  daySet days -> rangeLoop fuel i stop days = Done days' -> daySet days'.
Proof.
  induction fuel as [|fuel IH]; intros i stop days days' Hd H; cbn [rangeLoop] in H.
  - destruct (Z.eqb i stop); [|discriminate]. inversion H; now subst.
  - destruct (Z.eqb i stop).
    + inversion H; now subst.
    + eapply IH; [|exact H]. now apply daySet_addDayAt.
Qed.

(** The loop over a range of days ends within seven turns. *)
Lemma rangeLoop_returns i stop days :
  (0 <= i < 7)%Z -> (0 <= stop < 7)%Z ->
  exists days', rangeLoop 7 i stop days = Done days'.
Proof.
  intros Hi Hs.
  assert (Ei : (i = 0 \/ i = 1 \/ i = 2 \/ i = 3 \/ i = 4 \/ i = 5 \/ i = 6)%Z) by lia.
  assert (Es : (stop = 0 \/ stop = 1 \/ stop = 2 \/ stop = 3 \/ stop = 4 \/ stop = 5
                \/ stop = 6)%Z) by lia.
  clear Hi Hs.
  repeat (destruct Ei as [-> | Ei]);
    try subst i;
    repeat (destruct Es as [-> | Es]);
    try subst stop;
    eexists; reflexivity.
Qed.

Lemma addRange_daySet re days m :
  wellCaptured re m ->
  defCaptures 1 (pattern re) = true -> defCaptures 2 (pattern re) = true ->
  daySet days ->
  exists days', addRange days m = Done days' /\ daySet days'.
Proof.
  intros Hw H1 H2 Hd. unfold addRange.
  destruct (capture m 1) as [m1|] eqn:E1; [|now apply Hw in H1].
  destruct (capture m 2) as [m2|] eqn:E2; [|now apply Hw in H2].
  destruct (normalizeDay m1) as [start|] eqn:Ns; [|eauto].
  destruct (normalizeDay m2) as [end_|] eqn:Ne; [|eauto].
  apply normalizeDay_In, indexOf_DAYS in Ns, Ne.
  destruct (Z.leb 0 (indexOf DAYS_OF_WEEK start) && Z.leb 0 (indexOf DAYS_OF_WEEK end_));
    [|eauto].
  destruct (rangeLoop_returns (i := indexOf DAYS_OF_WEEK start)
              (stop := ((indexOf DAYS_OF_WEEK end_ + 1) mod 7)%Z) days) as (days' & E).
  - exact Ns.
  - apply Z.mod_pos_bound. lia.
  - rewrite E. simpl. eexists. split; [reflexivity|].
    apply daySet_addDayAt. eapply rangeLoop_daySet; eassumption.
Qed.

Lemma addDay_daySet re days m :
  wellCaptured re m -> defCaptures 1 (pattern re) = true -> daySet days ->
  exists days', addDay days m = Done days' /\ daySet days'.
Proof.
  intros Hw H1 Hd. unfold addDay.
  destruct (capture m 1) as [m1|] eqn:E1; [|now apply Hw in H1].
  destruct (normalizeDay m1) as [day|] eqn:Nd; [|eauto].
  eexists. split; [reflexivity|]. apply daySet_add; [exact Hd|].
  eapply normalizeDay_In; eassumption.
Qed.

Lemma forEachMatch_daySet (body : StringSet -> MatchResult -> run StringSet)
    (good : MatchResult -> Prop) :
  (forall days m, good m -> daySet days ->
                  exists days', body days m = Done days' /\ daySet days') ->
  forall ms days, Forall good ms -> daySet days ->
  exists days', forEachMatch body ms days = Done days' /\ daySet days'.
Proof.
  intros Hbody. induction ms as [|m ms IH]; intros days Hms Hd; simpl.
  - eauto.
  - inversion Hms; subst.
    destruct (Hbody days m) as (d1 & E1 & Hd1); [assumption | assumption |].
    rewrite E1. simpl. now apply IH.
Qed.

(** [extractDays] returns for every text, and what it returns is [null]
    or a non-empty set of days. *)
Lemma extractDays_returns text :
  exists r, extractDays text = Done r /\
            match r with
            | Some l => l <> [] /\ daySet l
            | None => True
            end.
Proof.
  unfold extractDays.
  destruct (includes (toLowerCase text) (str "daily") || includes (toLowerCase text) (str "every day")
            || includes (toLowerCase text) (str "7 days")).
  { eexists. split; [reflexivity|]. split; [discriminate | apply daySet_week]. }
  destruct (includes (toLowerCase text) (str "weekday")).
  { eexists. split; [reflexivity|]. split; [discriminate|].
    apply daySet_incl.
    - apply (@NoDup_app_remove_r jsstring _ (map str ["Saturday"; "Sunday"]%string)).
      exact NoDup_DAYS_OF_WEEK.
    - intros d Hd. change DAYS_OF_WEEK with
        (map str ["Monday"; "Tuesday"; "Wednesday"; "Thursday"; "Friday"]%string
         ++ map str ["Saturday"; "Sunday"]%string).
      apply in_or_app. now left. }
  set (days0 := if includes (toLowerCase text) (str "weekend")
                then set_add (set_add [] (str "Saturday")) (str "Sunday") else []).
  assert (Hd0 : daySet days0).
  { unfold days0. destruct (includes (toLowerCase text) (str "weekend")); [|apply daySet_nil].
    apply daySet_add; [apply daySet_add; [apply daySet_nil|]|];
      cbv [DAYS_OF_WEEK map]; simpl; tauto. }
  clearbody days0.
  destruct (@execAll_returns rangePattern text eq_refl) as (ranges & -> & Hranges).
  cbn [andThen].
  destruct (@forEachMatch_daySet addRange (wellCaptured rangePattern)) with (ms := ranges) (days := days0)
    as (days1 & -> & Hd1); [|assumption|assumption|].
  { intros days m Hm Hd. now apply addRange_daySet with (re := rangePattern). }
  cbn [andThen].
  destruct (@execAll_returns dayPattern text eq_refl) as (mentions & -> & Hmentions).
  cbn [andThen].
  destruct (@forEachMatch_daySet addDay (wellCaptured dayPattern)) with (ms := mentions) (days := days1)
    as (days2 & -> & Hd2); [|assumption|assumption|].
  { intros days m Hm Hd. now apply addDay_daySet with (re := dayPattern). }
  cbn [andThen]. eexists. split; [reflexivity|].
  destruct days2; simpl; [exact I|]. split; [discriminate | exact Hd2].
Qed.

(** ** Deals *)

Lemma extractDealsFrom_returns text : forall patterns deals,
  Forall (fun p => nullable (pattern p) = false) patterns ->
  exists deals', extractDealsFrom text patterns deals = Done deals'.
Proof.
  induction patterns as [|p patterns IH]; intros deals Hp; simpl.
  - eauto.
  - inversion Hp; subst.
    destruct (@execAll_returns p text) as (ms & -> & _); [assumption|].
    cbn [andThen]. now apply IH.
Qed.

Lemma extractDeals_returns text patterns :
  Forall (fun p => nullable (pattern p) = false) patterns ->
  exists r, extractDeals text patterns = Done r.
Proof.
  intros Hp. unfold extractDeals.
  destruct (@extractDealsFrom_returns text patterns [] Hp) as (deals & ->).
  cbn [andThen]. eauto.
Qed.

Lemma FOOD_PATTERNS_consume : Forall (fun p => nullable (pattern p) = false) FOOD_PATTERNS.
Proof. repeat constructor. Qed.

Lemma DRINK_PATTERNS_consume : Forall (fun p => nullable (pattern p) = false) DRINK_PATTERNS.
Proof. repeat constructor. Qed.

(** [extractHappyHourInfo] returns a record for every text. *)
Lemma extractHappyHourInfo_returns rawText :
  exists hh, extractHappyHourInfo rawText = Done hh /\
    (days hh = unknown \/ exists l, days hh = VArray l /\ l <> [] /\ daySet l).
Proof.
  unfold extractHappyHourInfo.
  destruct (isZero (length rawText) || includes rawText (str "No website available")
            || includes rawText (str "Unable to crawl")).
  { eexists. split; [reflexivity|]. now left. }
  destruct (extractDays_returns rawText) as (d & -> & Hd). cbn [andThen].
  destruct (@extractDeals_returns rawText FOOD_PATTERNS FOOD_PATTERNS_consume) as (f & ->).
  cbn [andThen].
  destruct (@extractDeals_returns rawText DRINK_PATTERNS DRINK_PATTERNS_consume) as (k & ->).
  cbn [andThen]. eexists. split; [reflexivity|]. simpl.
  destruct d as [l|]; [right | now left]. exists l. tauto.
Qed.

(** ** Strings *)

Lemma startsWith_spec s : forall p, startsWith s p = true <-> exists post, s = p ++ post.
Proof.
  induction s as [|b s IH]; intros [|a p]; simpl.
  - split; [intros _; now exists [] | reflexivity].
  - split; [discriminate | intros (post & H); discriminate].
  - split; [intros _; now exists (b :: s) | reflexivity].
  - rewrite andb_true_iff, IH. unfold char_eqb. rewrite N.eqb_eq. split.
    + intros (-> & post & ->). now exists post.
    + intros (post & H). inversion H; subst. split; [reflexivity | now exists post].
Qed.

Lemma includes_spec s : forall p, includes s p = true <-> contains s p.
Proof.
  unfold contains. induction s as [|c s IH]; intros p; cbn [includes]; rewrite orb_true_iff.
  - rewrite startsWith_spec. split.
    + intros [(post & H) | H]; [|discriminate]. now exists [], post.
    + intros (pre & post & H). left. destruct pre; [now exists post | discriminate].
  - rewrite startsWith_spec, IH. split.
    + intros [(post & H) | (pre & post & H)].
      * now exists [], post.
      * exists (c :: pre), post. simpl. now rewrite H.
    + intros ([|c' pre] & post & H).
      * left. now exists post.
      * right. inversion H; subst. now exists pre, post.
Qed.

Lemma endsWith_spec s p : endsWith s p = true <-> exists pre, s = pre ++ p.
Proof.
  unfold endsWith. rewrite startsWith_spec. split.
  - intros (post & H). exists (rev post).
    apply (f_equal (@rev char)) in H. rewrite rev_involutive, rev_app_distr, rev_involutive in H.
    exact H.
  - intros (pre & ->). exists (rev pre). now rewrite rev_app_distr.
Qed.

(** ** Lists *)

Lemma firstn_NoDup (A : Type) n (l : list A) : NoDup l -> NoDup (firstn n l).
Proof.
  intros H. rewrite <- (firstn_skipn n l) in H. now apply NoDup_app_remove_r in H.
Qed.

Lemma firstn_In (A : Type) n (l : list A) x : In x (firstn n l) -> In x l.
Proof. intros H. rewrite <- (firstn_skipn n l). apply in_or_app. now left. Qed.

Lemma fold_set_add_In l : forall acc x,
  In x (fold_left set_add l acc) <-> In x acc \/ In x l.
Proof.
  induction l as [|y l IH]; intros acc x; simpl; [tauto|].
  rewrite IH, set_add_In. intuition (subst; auto).
Qed.

(** ** extractor.js: the sentinel and the main function *)

Lemma extractHappyHourInfo_guard rawText :
  isZero (length rawText) || includes rawText (str "No website available")
  || includes rawText (str "Unable to crawl") = true ->
  extractHappyHourInfo rawText = Done allUnknown.
Proof. intros H. unfold extractHappyHourInfo. now rewrite H. Qed.

(** C2: a raw text that is empty, or that contains the phrase
    "No website available" or the phrase "Unable to crawl", gets the
    record whose five fields are all the string "unknown"; the record is
    returned at once, before any pattern is tried. *)
Theorem extractHappyHourInfo_sentinel rawText :
  rawText = [] \/ contains rawText (str "No website available")
  \/ contains rawText (str "Unable to crawl") ->
  extractHappyHourInfo rawText =
  Done (mkHappyHour (VString (str "unknown")) (VString (str "unknown"))
                    (VString (str "unknown")) (VString (str "unknown"))
                    (VString (str "unknown"))).
Proof.
  intros H. apply extractHappyHourInfo_guard.
  destruct H as [-> | [H | H]].
  - reflexivity.
  - apply includes_spec in H. rewrite H. now rewrite orb_true_r.
  - apply includes_spec in H. rewrite H. now rewrite orb_true_r.
Qed.

Lemma extractHappyHourInfo_sentinel_witness :
  extractHappyHourInfo
    (noWebsiteText (mkVenue (str "test-bar") (str "Test Bar") (str "1 Main St")
                            (str "LoDo") None (str "2026-01-01T00:00:00.000Z"))) =
  Done (mkHappyHour (VString (str "unknown")) (VString (str "unknown"))
                    (VString (str "unknown")) (VString (str "unknown"))
                    (VString (str "unknown"))).
Proof.
  apply extractHappyHourInfo_sentinel. right. left.
  eexists (rawHeader _ (str "none")), (str " for crawling." ++ [newline]). reflexivity.
Defined.

(** What the crawler writes for a venue it does not crawl is a sentinel
    of the extractor. *)
Lemma sentinel_texts venue :
  extractHappyHourInfo (noWebsiteText venue) = Done allUnknown /\
  extractHappyHourInfo (fallbackRawText venue) = Done allUnknown.
Proof.
  split; apply extractHappyHourInfo_guard.
  - replace (includes (noWebsiteText venue) (str "No website available")) with true;
      [now rewrite orb_true_r|].
    symmetry. apply includes_spec.
    eexists (rawHeader venue (str "none")), (str " for crawling." ++ [newline]). reflexivity.
  - replace (includes (fallbackRawText venue) (str "Unable to crawl")) with true;
      [now rewrite orb_true_r|].
    symmetry. apply includes_spec.
    eexists (rawHeader venue _), (str " website. No raw text available." ++ [newline]).
    reflexivity.
Qed.

(** C8: for every raw text the extractor returns a record, and its days
    field, when it is not the string "unknown", is a non-empty array of
    names of the seven days of the week, no name twice. *)
Theorem extractHappyHourInfo_days rawText :
  exists hh, extractHappyHourInfo rawText = Done hh /\
    (days hh <> VString (str "unknown") ->
     exists l, days hh = VArray l /\ l <> [] /\ NoDup l /\
               forall d, In d l -> In d DAYS_OF_WEEK).
Proof.
  destruct (extractHappyHourInfo_returns rawText) as (hh & E & H).
  exists hh. split; [exact E|]. intros Hu.
  destruct H as [H | (l & Hl & Hne & Hnd & Hall)]; [contradiction|].
  exists l. repeat split; try assumption. now apply Forall_forall.
Qed.

Lemma extractAll_spec fs : forall venues,
  exists results, extractAll fs venues = Done results /\
    Forall2 (fun venue r =>
               info_id r = id venue /\ info_name r = name venue /\
               info_address r = address venue /\
               info_neighborhood r = neighborhood venue /\
               info_website r = website venue /\
               exists hh, happy_hour r = Some hh /\
                 (rawFile fs (id venue ++ str ".txt") = None -> hh = allUnknown))
            venues results.
Proof.
  induction venues as [|venue venues IH]; cbn [extractAll].
  - exists []. split; [reflexivity | constructor].
  - destruct IH as (results & E & H).
    set (rawText := match rawFile fs (id venue ++ str ".txt") with
                    | Some content => content
                    | None => str ""
                    end).
    destruct (extractHappyHourInfo_returns rawText) as (hh & Ehh & _).
    rewrite Ehh. cbn [andThen]. rewrite E. cbn [andThen].
    eexists. split; [reflexivity|]. constructor; [|exact H]. simpl.
    repeat split. exists hh. split; [reflexivity|]. intros Hnone.
    unfold rawText in Ehh. rewrite Hnone in Ehh.
    rewrite extractHappyHourInfo_guard in Ehh by reflexivity.
    now inversion Ehh.
Qed.

(** C1: for every venue list read from venues.json, the extractor
    writes an array with one record per venue, in the order of the list,
    each with the identifier (and the name, address, neighborhood and
    website) of its venue; a venue whose raw text file is missing gets
    its record too, with every field unknown. *)
Theorem main_one_record_per_venue venues raw :
  exists results,
    main (mkFiles (Some venues) raw) = Done (Wrote results) /\
    length results = length venues /\
    map info_id results = map id venues /\
    Forall2 (fun venue r =>
               info_id r = id venue /\ info_name r = name venue /\
               info_address r = address venue /\
               info_neighborhood r = neighborhood venue /\
               info_website r = website venue /\
               (raw (id venue ++ str ".txt") = None -> happy_hour r = Some allUnknown))
            venues results.
Proof.
  unfold main. cbn [venuesFile].
  destruct (extractAll_spec (mkFiles (Some venues) raw) venues) as (results & -> & H).
  cbn [andThen]. exists results. split; [reflexivity|].
  cbn [rawFile] in H. induction H as [|venue r venues results Hr H IH]; simpl.
  - repeat split; constructor.
  - destruct IH as (Hlen & Hmap & Hall).
    destruct Hr as (Hid & Hname & Haddr & Hnb & Hweb & hh & Hhh & Hraw).
    repeat split.
    + now rewrite Hlen.
    + now rewrite Hid, Hmap.
    + constructor; [|exact Hall]. repeat split; try assumption.
      intros Hnone. rewrite Hhh, (Hraw Hnone). reflexivity.
Qed.

(** ** crawler.js *)

(** C6: the links that [findRelevantLinks] returns are at most 5, no
    link is returned twice, and the host name of each is the host name of
    the venue's website or ends with a dot followed by it. *)
Theorem findRelevantLinks_bounded (hostname : jsstring -> option jsstring) page baseUrl :
  length (findRelevantLinks hostname page baseUrl) <= 5 /\
  NoDup (findRelevantLinks hostname page baseUrl) /\
  forall link, In link (findRelevantLinks hostname page baseUrl) ->
    exists base host,
      hostname baseUrl = Some base /\ hostname link = Some host /\
      (host = base \/ exists sub, host = sub ++ str "." ++ base).
Proof.
  unfold findRelevantLinks. destruct page as [anchors|].
  2: { repeat split; [simpl; lia | constructor | intros link []]. }
  destruct (hostname baseUrl) as [base|] eqn:Eb.
  2: { repeat split; [simpl; lia | constructor | intros link []]. }
  repeat split.
  - apply firstn_le_length.
  - apply firstn_NoDup, NoDup_filter, set_of_list_NoDup.
  - intros link Hin. apply firstn_In, filter_In in Hin. destruct Hin as [_ Hs].
    unfold sameSite in Hs. destruct (hostname link) as [host|] eqn:Eh; [|discriminate].
    exists base, host. repeat split. apply orb_true_iff in Hs. destruct Hs as [Hs | Hs].
    + left. now apply jsstring_eqb_eq.
    + right. now apply endsWith_spec.
Qed.

(** ** scraper.js: the identifiers are unique *)

Lemma dedupFilter_ids venues : forall seen,
  NoDup (map id (dedupFilter seen venues)) /\
  forall v, In v (dedupFilter seen venues) -> ~ In (id v) seen.
Proof.
  induction venues as [|v venues IH]; intros seen; simpl.
  - split; [constructor | intros v []].
  - destruct (set_has seen (id v)) eqn:E; [apply IH|].
    destruct (IH (set_add seen (id v))) as [Hnd Hseen]. split.
    + simpl. constructor; [|exact Hnd]. intros Hin. apply in_map_iff in Hin.
      destruct Hin as (w & Hw & Hin). apply Hseen in Hin. apply Hin.
      apply set_add_In. now right.
    + intros w [<- | Hin].
      * intros Hin. apply set_has_In in Hin. congruence.
      * intros Hs. apply Hseen in Hin. apply Hin. apply set_add_In. now left.
Qed.



Lemma getFallbackVenues_ids ts : NoDup (map id (getFallbackVenues ts)).
Proof.
  replace (map id (getFallbackVenues ts))
    with (set_of_list (map id (getFallbackVenues ts))) by (vm_compute; reflexivity).
  apply set_of_list_NoDup.
Qed.


(** ** App.jsx *)


Lemma keeps_satisfies neighborhood day search venue :
  keeps neighborhood day search venue = satisfies neighborhood day search venue.
Proof.
  unfold keeps, satisfies, neighborhoodMatches, dayMatches, searchMatches, nameMatches.
  destruct (jsstring_eqb neighborhood (str "All")),
           (jsstring_eqb (info_neighborhood venue) neighborhood),
           (jsstring_eqb day (str "All")); simpl; try reflexivity;
    destruct (isZero (length (trim search))); simpl;
    try (destruct (happy_hour venue) as [hh|]; [destruct (days hh) as [s|l]|]); simpl;
    try reflexivity;
    try (destruct (array_includes l day); simpl; try reflexivity);
    destruct (includes (toLowerCaseUnicode (info_name venue))
                       (toLowerCaseUnicode (trim search)));
    reflexivity.
Qed.

(** ** Words of a pattern *)

(** A word of a pattern fails where the text does not begin with it. *)
Lemma compile_word_fails w : forall x c,
  litMatches w (after x) = false ->
  compile true (seq (map chr w)) x c = None.
Proof.
  induction w as [|a w IH]; intros x c H; [discriminate|].
  assert (Hstep : forall k : Continuation,
            (forall b s y, after x = b :: s -> class_mem true [(a, a)] b = true ->
                           after y = s -> litMatches w s = false -> k y = None) ->
            compile true (chr a) x k = None).
  { intros k Hk. cbn [compile chr]. destruct (after x) as [|b s] eqn:Ea; [reflexivity|].
    cbn [xorb litMatches] in *. destruct (class_mem true [(a, a)] b) eqn:Eb; [|reflexivity].
    eapply Hk; [reflexivity | exact Eb | reflexivity | exact H]. }
  destruct w as [|a' w].
  - cbn [map seq]. apply Hstep. intros b s y _ _ _ Hw. discriminate.
  - change (seq (map chr (a :: a' :: w))) with (Seq (chr a) (seq (map chr (a' :: w)))).
    cbn [compile]. apply Hstep. intros b s y _ _ Hy Hw. apply IH. now rewrite Hy.
Qed.

Lemma compile_lit_fails (w : string) x c :
  litMatches (str w) (after x) = false -> compile true (lit w) x c = None.
Proof. apply compile_word_fails. Qed.

Lemma litMatches_app w1 w2 s :
  litMatches w1 s = false -> litMatches (w1 ++ w2) s = false.
Proof.
  revert s. induction w1 as [|a w1 IH]; intros s H; [discriminate|].
  destruct s as [|b s]; [reflexivity|]. cbn [app litMatches] in *.
  destruct (class_mem true [(a, a)] b); [|reflexivity]. now apply IH.
Qed.

(** A sequence fails where its first part fails. *)
Lemma seq_head_fails ic r rs x c :
  (forall k, compile ic r x k = None) -> compile ic (seq (r :: rs)) x c = None.
Proof.
  intros H. destruct rs as [|r' rs]; [apply H|].
  change (seq (r :: r' :: rs)) with (Seq r (seq (r' :: rs))). cbn [compile]. apply H.
Qed.

(** A disjunction fails where each of its alternatives fails. *)
Lemma alt_all_fail ic rs x :
  rs <> [] ->
  Forall (fun r => forall k, compile ic r x k = None) rs ->
  forall k, compile ic (alt rs) x k = None.
Proof.
  intros Hne H. induction H as [|r rs Hr Hrs IH]; [contradiction|]. intros k.
  destruct rs as [|r' rs]; [apply Hr|].
  change (alt (r :: r' :: rs)) with (Alt r (alt (r' :: rs))). cbn [compile].
  rewrite Hr. apply IH. discriminate.
Qed.

(** *** Words and lower case *)

Ltac split_tests :=
  repeat match goal with
         | |- context [N.eqb ?a ?b] => destruct (N.eqb_spec a b)
         | |- context [N.leb ?a ?b] => destruct (N.leb_spec a b)
         end.

(** With the [i] flag a lower-case letter of a pattern matches that letter
    in either case and nothing else. *)
Lemma class_mem_letter ch l :
  isAsciiLower l = true -> ch <> l -> ch <> (l - 32)%N ->
  class_mem true [(l, l)] ch = false.
Proof.
  unfold class_mem, in_ranges, swapCase. cbn [existsb fst snd]. intros Hl H1 H2.
  destruct (isAsciiUpper ch) eqn:EU; [|destruct (isAsciiLower ch) eqn:EL];
    unfold isAsciiLower, isAsciiUpper, in_range in *;
    rewrite ?andb_true_iff, ?andb_false_iff, ?N.leb_le, ?N.leb_gt in *;
    split_tests; cbn; try reflexivity; lia.
Qed.

Lemma class_mem_letter_lower ch l :
  isAsciiLower l = true -> class_mem true [(l, l)] ch = true -> lowerUnit ch = [l].
Proof.
  intros Hl H.
  assert (E : ch = l \/ ch = (l - 32)%N).
  { destruct (N.eq_dec ch l) as [|N1]; [now left|].
    destruct (N.eq_dec ch (l - 32)%N) as [|N2]; [now right|].
    rewrite class_mem_letter in H by assumption. discriminate. }
  unfold isAsciiLower, in_range in Hl. apply andb_true_iff in Hl. rewrite !N.leb_le in Hl.
  unfold lowerUnit, isAsciiUpper, in_range.
  destruct E as [-> | ->]; split_tests; cbn; try lia; try reflexivity.
  f_equal. lia.
Qed.

(** Where a word of lower-case letters matches, the lower-cased text
    begins with the word. *)
Lemma litMatches_lower w : forall s,
  forallb isAsciiLower w = true -> litMatches w s = true ->
  startsWith (toLowerCase s) w = true.
Proof.
  induction w as [|a w IH]; intros s Hw H; [now destruct (toLowerCase s)|].
  destruct s as [|b s]; [discriminate|]. cbn [forallb litMatches] in *.
  apply andb_true_iff in Hw, H. destruct Hw as [Ha Hw]. destruct H as [Hb H].
  unfold toLowerCase. cbn [flat_map]. rewrite (@class_mem_letter_lower b a Ha Hb).
  cbn [app startsWith]. unfold char_eqb. rewrite N.eqb_refl. now apply IH.
Qed.

(** *** Occurrences across a join *)

(** A word that does not hold [b0] cannot begin in [a] and end past the
    join of [a ++ b0 :: b]. *)
Lemma startsWith_join a : forall b0 b p,
  Forall (fun q => q <> b0) p -> startsWith (a ++ b0 :: b) p = startsWith a p.
Proof.
  induction a as [|a0 a IH]; intros b0 b p Hp.
  - destruct p as [|p0 p]; [reflexivity|]. inversion Hp; subst. cbn [app startsWith].
    replace (char_eqb p0 b0) with false; [reflexivity|].
    symmetry. apply N.eqb_neq. assumption.
  - destruct p as [|p0 p]; [reflexivity|]. inversion Hp; subst. cbn [app startsWith].
    now rewrite IH.
Qed.

Lemma startsWith_join_tail a0 a b0 b p0 p :
  Forall (fun q => q <> b0) p ->
  startsWith ((a0 :: a) ++ b0 :: b) (p0 :: p) = startsWith (a0 :: a) (p0 :: p).
Proof. intros Hp. cbn [app startsWith]. now rewrite startsWith_join. Qed.

Lemma includes_app_r a : forall b p, includes (a ++ b) p = false -> includes b p = false.
Proof.
  induction a as [|c a IH]; intros b p H; [exact H|].
  cbn [app includes] in H. apply orb_false_iff in H. now apply IH.
Qed.

Lemma includes_startsWith s p : includes s p = false -> startsWith s p = false.
Proof. destruct s; cbn [includes]; intros H; apply orb_false_iff in H; tauto. Qed.

(** A word whose tail does not hold [b0] is in [a ++ b0 :: b] only if
    it is in [a] or in [b0 :: b]. *)
Lemma includes_join a : forall b0 b p0 p,
  Forall (fun q => q <> b0) p ->
  includes a (p0 :: p) = false -> includes (b0 :: b) (p0 :: p) = false ->
  includes (a ++ b0 :: b) (p0 :: p) = false.
Proof.
  induction a as [|a0 a IH]; intros b0 b p0 p Hp Ha Hb; [exact Hb|].
  change (includes ((a0 :: a) ++ b0 :: b) (p0 :: p))
    with (startsWith ((a0 :: a) ++ b0 :: b) (p0 :: p) || includes (a ++ b0 :: b) (p0 :: p)).
  change (includes (a0 :: a) (p0 :: p))
    with (startsWith (a0 :: a) (p0 :: p) || includes a (p0 :: p)) in Ha.
  apply orb_false_iff in Ha. destruct Ha as [Ha1 Ha2].
  rewrite startsWith_join_tail by assumption. rewrite Ha1. cbn [orb].
  now apply IH.
Qed.

(** ** The [exec] loop along a text *)

Lemma execFrom_pass re pre : forall bef aft,
  (forall t1 t2, pre = t1 ++ t2 -> t2 <> [] ->
                 matchAt re (rev t1 ++ bef) (t2 ++ aft) = None) ->
  execFrom re bef (pre ++ aft) = execFrom re (rev pre ++ bef) aft.
Proof.
  induction pre as [|ch pre IH]; intros bef aft H; [reflexivity|].
  pose proof (H [] (ch :: pre) eq_refl) as H0. cbn [rev app] in H0.
  cbn [app execFrom]. rewrite H0 by discriminate.
  rewrite IH.
  - cbn [rev]. now rewrite <- app_assoc.
  - intros t1 t2 -> Hne. specialize (H (ch :: t1) t2 eq_refl Hne).
    cbn [rev] in H. now rewrite <- app_assoc in H.
Qed.

Lemma cannot_start_passes re pre bef aft :
  nullable (pattern re) = false ->
  Forall (fun ch => starts (ignoreCase re) (pattern re) ch = false) pre ->
  forall t1 t2, pre = t1 ++ t2 -> t2 <> [] ->
                matchAt re (rev t1 ++ bef) (t2 ++ aft) = None.
Proof.
  intros Hn Hpre t1 t2 -> Hne. destruct t2 as [|ch t2]; [contradiction|].
  apply Forall_app in Hpre. destruct Hpre as [_ Hpre]. inversion Hpre; subst.
  cbn [app]. now apply matchAt_cannot_start.
Qed.

Lemma execLoop_pass re pre : forall bef aft fuel,
  nullable (pattern re) = false ->
  (forall t1 t2, pre = t1 ++ t2 -> t2 <> [] ->
                 matchAt re (rev t1 ++ bef) (t2 ++ aft) = None) ->
  length (pre ++ aft) <= fuel ->
  execLoop fuel re bef (pre ++ aft) = execLoop (length aft) re (rev pre ++ bef) aft.
Proof.
  intros bef aft fuel Hn Hpre Hf.
  destruct fuel as [|fuel].
  - destruct pre; [|simpl in Hf; lia]. destruct aft; [|simpl in Hf; lia]. reflexivity.
  - cbn [execLoop]. rewrite execFrom_pass by assumption.
    destruct aft as [|ch aft].
    + cbn [length execLoop].
      rewrite (@execFrom_quiet re [] (rev pre ++ bef) Hn (Forall_nil _)). reflexivity.
    + cbn [length execLoop].
      destruct (execFrom re (rev pre ++ bef) (ch :: aft)) as [m|] eqn:Hm; [|reflexivity].
      apply execFrom_sound in Hm. destruct Hm as (_ & Hlt & _). specialize (Hlt Hn).
      cbn [length] in Hlt.
      replace (Nat.ltb (length (rest_after m)) (length (pre ++ ch :: aft))) with true.
      2: { symmetry. apply Nat.ltb_lt. rewrite length_app. simpl. lia. }
      replace (Nat.ltb (length (rest_after m)) (S (length aft))) with true.
      2: { symmetry. apply Nat.ltb_lt. lia. }
      rewrite (@execLoop_fuel re fuel (length aft)); [reflexivity | | lia].
      rewrite length_app in Hf. simpl in Hf. lia.
Qed.

Lemma execLoop_skip re pre bef aft fuel :
  nullable (pattern re) = false ->
  Forall (fun ch => starts (ignoreCase re) (pattern re) ch = false) pre ->
  length (pre ++ aft) <= fuel ->
  execLoop fuel re bef (pre ++ aft) = execLoop (length aft) re (rev pre ++ bef) aft.
Proof.
  intros Hn Hpre Hf. apply execLoop_pass; try assumption. now apply cannot_start_passes.
Qed.

(** Nothing is found in a text at no position of which the pattern
    matches. *)
Lemma execLoop_none re s bef fuel :
  nullable (pattern re) = false ->
  (forall t1 t2, s = t1 ++ t2 -> t2 <> [] -> matchAt re (rev t1 ++ bef) t2 = None) ->
  execLoop fuel re bef s = Done [].
Proof.
  intros Hn Hs.
  assert (E : execFrom re bef s = None).
  { rewrite <- (app_nil_r s), execFrom_pass.
    - apply (@execFrom_quiet re [] _ Hn (Forall_nil _)).
    - intros t1 t2 E Hne. rewrite app_nil_r. now apply Hs. }
  destruct fuel; cbn [execLoop]; now rewrite E.
Qed.

Lemma execLoop_match re bef aft fuel m :
  matchAt re bef aft = Some m ->
  length (rest_after m) < length aft ->
  length aft <= fuel ->
  execLoop fuel re bef aft =
  (do ms <- execLoop (length (rest_after m)) re (rest_before m) (rest_after m);
   Done (m :: ms)).
Proof.
  intros Hm Hlt Hf. destruct fuel as [|fuel]; [lia|].
  cbn [execLoop].
  replace (execFrom re bef aft) with (Some m).
  2: { destruct aft; cbn [execFrom]; now rewrite Hm. }
  apply Nat.ltb_lt in Hlt. rewrite Hlt. apply Nat.ltb_lt in Hlt.
  rewrite (@execLoop_fuel re fuel (length (rest_after m))); [reflexivity | lia | lia].
Qed.

Lemma toLowerCase_app a b : toLowerCase (a ++ b) = toLowerCase a ++ toLowerCase b.
Proof. unfold toLowerCase. apply flat_map_app. Qed.

Lemma matchAt_execFrom re bef aft m :
  matchAt re bef aft = Some m -> execFrom re bef aft = Some m.
Proof. intros H. destruct aft; cbn [execFrom]; now rewrite H. Qed.

(** ** extractor.js: times *)

Lemma isAsciiDigit_In d : isAsciiDigit d = true -> In d digitUnits.
Proof.
  unfold isAsciiDigit, in_range. rewrite andb_true_iff, !N.leb_le. intros [H1 H2].
  assert (H : (d = 48 \/ d = 49 \/ d = 50 \/ d = 51 \/ d = 52 \/ d = 53 \/ d = 54
               \/ d = 55 \/ d = 56 \/ d = 57)%N) by lia.
  unfold digitUnits. simpl. intuition.
Qed.

Lemma isHourText_In h : isHourText h = true -> In h hourTexts.
Proof.
  unfold isHourText, hourTexts. rewrite andb_true_iff. intros [Hlen Hd].
  destruct h as [|d1 [|d2 [|d3 h]]]; try discriminate; simpl in Hd.
  - apply in_or_app. left. apply (in_map (fun d : char => [d]) digitUnits d1).
    apply andb_true_iff in Hd. now apply isAsciiDigit_In.
  - apply in_or_app. right. apply in_flat_map.
    apply andb_true_iff in Hd. destruct Hd as [H1 Hd].
    apply andb_true_iff in Hd. destruct Hd as [H2 _].
    exists d1. split; [now apply isAsciiDigit_In|].
    apply (in_map (fun d : char => [d1; d]) digitUnits d2). now apply isAsciiDigit_In.
Qed.

Lemma isMeridiemText_In m : isMeridiemText m = true -> In m meridiemTexts.
Proof.
  unfold isMeridiemText. destruct m as [|a [|b [|c m]]]; try discriminate.
  rewrite andb_true_iff, !orb_true_iff, !N.eqb_eq.
  intros [[[[-> | ->] | ->] | ->] [-> | ->]]; vm_compute; tauto.
Qed.

Lemma normalizesTo_spec t expected :
  normalizesTo t expected = true -> normalizeTime (Some t) = Some expected.
Proof.
  unfold normalizesTo. destruct (normalizeTime (Some t)); [|discriminate].
  intros H. apply jsstring_eqb_eq in H. now subst.
Qed.

Lemma normalizeTime_hour_meridiem h m :
  isHourText h = true -> isMeridiemText m = true ->
  normalizeTime (Some (h ++ m)) = Some (h ++ str ":00 " ++ toUpperCase m).
Proof.
  intros Hh Hm. apply isHourText_In in Hh. apply isMeridiemText_In in Hm.
  apply normalizesTo_spec.
  assert (H : forallb (fun h => forallb (fun m =>
                normalizesTo (h ++ m) (h ++ str ":00 " ++ toUpperCase m)) meridiemTexts)
              hourTexts = true) by (vm_compute; reflexivity).
  rewrite forallb_forall in H. specialize (H h Hh).
  rewrite forallb_forall in H. exact (H m Hm).
Qed.

Lemma normalizeTime_hour h :
  isHourText h = true -> normalizeTime (Some h) = Some h.
Proof.
  intros Hh. apply isHourText_In in Hh. apply normalizesTo_spec.
  assert (H : forallb (fun h => normalizesTo h h) hourTexts = true)
    by (vm_compute; reflexivity).
  rewrite forallb_forall in H. exact (H h Hh).
Qed.

Lemma happyHourContext_3_6pm bef post :
  matchAt happyHourContext bef (str "Happy Hour 3-6pm" ++ post) =
  Some (mkResult (length bef) (str "Happy Hour 3-6pm")
                 [(2, str "6pm"); (1, str "3")]
                 (rev (str "Happy Hour 3-6pm") ++ bef) post).
Proof. vm_compute. reflexivity. Qed.

Lemma lowerUnit_cons c : exists a l, lowerUnit c = a :: l.
Proof.
  unfold lowerUnit.
  repeat match goal with |- context [if ?b then _ else _] => destruct b end; eauto.
Qed.

(** A word of lower-case letters that is not in the lower case of [pre]
    does not match at a position of [pre], when the text goes on past
    [pre] with a code unit whose lower case begins with a code unit that
    is not in the tail of the word. *)
Lemma word_absent w0 w pre t1 t2 rest b0 rest' :
  forallb isAsciiLower (w0 :: w) = true ->
  Forall (fun q => q <> b0) w ->
  includes (toLowerCase pre) (w0 :: w) = false ->
  pre = t1 ++ t2 -> t2 <> [] ->
  toLowerCase rest = b0 :: rest' ->
  litMatches (w0 :: w) (t2 ++ rest) = false.
Proof.
  intros Hw Hb Hpre -> Hne Hrest.
  destruct (litMatches (w0 :: w) (t2 ++ rest)) eqn:E; [|reflexivity].
  apply litMatches_lower in E; [|exact Hw].
  rewrite toLowerCase_app, Hrest in E.
  rewrite toLowerCase_app in Hpre. apply includes_app_r, includes_startsWith in Hpre.
  destruct t2 as [|c t2]; [contradiction|].
  unfold toLowerCase in E, Hpre. cbn [flat_map] in E, Hpre.
  destruct (lowerUnit_cons c) as (a & l & Ec). rewrite Ec in E, Hpre.
  cbn [app startsWith] in E, Hpre. rewrite startsWith_join in E by assumption.
  congruence.
Qed.

Lemma word_absent_end w s t1 t2 :
  forallb isAsciiLower w = true ->
  includes (toLowerCase s) w = false ->
  s = t1 ++ t2 ->
  litMatches w t2 = false.
Proof.
  intros Hw Hs ->.
  destruct (litMatches w t2) eqn:E; [|reflexivity].
  apply litMatches_lower in E; [|exact Hw].
  rewrite toLowerCase_app in Hs. apply includes_app_r, includes_startsWith in Hs.
  congruence.
Qed.

Lemma happyHourContext_fails bef aft :
  litMatches (str "happy") aft = false -> matchAt happyHourContext bef aft = None.
Proof.
  intros H. unfold matchAt, happyHourContext. cbn [pattern ignoreCase].
  rewrite seq_head_fails; [reflexivity|].
  intros k. now apply compile_lit_fails.
Qed.

Lemma extractTimes_3_6pm pre post :
  includes (toLowerCase pre) (str "happy") = false ->
  extractTimes (pre ++ str "Happy Hour 3-6pm" ++ post) =
  mkTimes (Some (str "3")) (Some (str "6:00 PM")).
Proof.
  intros Hpre. unfold extractTimes, exec.
  rewrite execFrom_pass.
  - rewrite (@matchAt_execFrom _ _ _ _ (happyHourContext_3_6pm _ _)).
    vm_compute. reflexivity.
  - intros t1 t2 E Hne. apply happyHourContext_fails.
    eapply (@word_absent 104%N (str "appy") pre t1 t2 _ 104%N); try eassumption.
    + reflexivity.
    + repeat constructor; discriminate.
    + rewrite toLowerCase_app. reflexivity.
Qed.

(** C3, what the code does where the claim fails: the start time of
    "Happy Hour 3-6pm" is "3", not "3:00 PM".  [normalizeTime] adds ":00"
    (and the space) only to a time that ends in AM or PM, although its
    comment says "Add :00 if no minutes"; a time of one or two digits
    comes back as it is, and the start "3" of "3-6pm" has no marker of
    its own.  The end time is normalized.  So it is for the phrase alone,
    for a text with an earlier "happy", and for every text with no
    "happy" (in any case) before the phrase. *)
Theorem extractTimes_start_not_normalized :
  extractTimes (str "Happy Hour 3-6pm") =
    mkTimes (Some (str "3")) (Some (str "6:00 PM")) /\
  extractTimes (str "We are happy to see you. Happy Hour 3-6pm") =
    mkTimes (Some (str "3")) (Some (str "6:00 PM")) /\
  (forall pre post,
     includes (toLowerCase pre) (str "happy") = false ->
     extractTimes (pre ++ str "Happy Hour 3-6pm" ++ post) =
       mkTimes (Some (str "3")) (Some (str "6:00 PM"))) /\
  (forall h, isHourText h = true -> normalizeTime (Some h) = Some h) /\
  (forall h m,
     isHourText h = true -> isMeridiemText m = true ->
     normalizeTime (Some (h ++ m)) = Some (h ++ str ":00 " ++ toUpperCase m)).
Proof.
  split; [vm_compute; reflexivity|].
  split; [vm_compute; reflexivity|].
  split; [intros pre post H; now apply extractTimes_3_6pm|].
  split; [intros h H; now apply normalizeTime_hour|].
  intros h m Hh Hm. now apply normalizeTime_hour_meridiem.
Qed.

(** ** extractor.js: day ranges *)

(** C4, what the code does where the claim fails: for the range "Monday
    through Sunday" only the two days named are found, and so for
    "Mon thru Fri" and for the "Mon through Fri" of the comment in the
    source. *)
Theorem extractDays_range_defects :
  extractDays (str "Monday through Sunday") = Done (Some [str "Sunday"; str "Monday"]) /\
  extractDays (str "Mon thru Fri") = Done (Some [str "Monday"; str "Friday"]) /\
  extractDays (str "Mon through Fri") = Done (Some [str "Monday"; str "Friday"]).
Proof. repeat split; vm_compute; reflexivity. Qed.

Lemma days_eqb_eq a : forall b, days_eqb a b = true -> a = b.
Proof.
  induction a as [|x a IH]; intros [|y b] H; try discriminate; [reflexivity|].
  cbn [days_eqb] in H. apply andb_true_iff in H. destruct H as [Hx H].
  apply jsstring_eqb_eq in Hx. apply IH in H. now subst.
Qed.

(** What the range loop does right: a range of two full day names that
    is not the whole week is expanded round the week. *)
Lemma extractDays_range_cyclic i j :
  i < 7 -> j < 7 -> (j + 1) mod 7 <> i ->
  extractDays (nth i DAYS_OF_WEEK [] ++ str "-" ++ nth j DAYS_OF_WEEK []) =
  Done (Some (cyclicRange i j)).
Proof.
  intros Hi Hj Hij.
  assert (H : rangeExpands i j = true).
  { assert (Hall : forallb (fun i => forallb (fun j =>
                     Nat.eqb ((j + 1) mod 7) i || rangeExpands i j) (List.seq 0 7))
                   (List.seq 0 7) = true) by (vm_compute; reflexivity).
    assert (Hin : forall k, k < 7 -> In k (List.seq 0 7)) by (intros k Hk; apply in_seq; lia).
    pose proof (proj1 (forallb_forall _ _) Hall i (Hin i Hi)) as Hrow.
    pose proof (proj1 (forallb_forall _ _) Hrow j (Hin j Hj)) as Hcell.
    cbv beta in Hcell. apply Nat.eqb_neq in Hij. rewrite Hij in Hcell. exact Hcell. }
  unfold rangeExpands in H.
  destruct (extractDays _) as [[l|]| |]; try discriminate.
  apply days_eqb_eq in H. now subst.
Qed.

Lemma extractDays_range_cyclic_witness :
  extractDays (nth 5 DAYS_OF_WEEK [] ++ str "-" ++ nth 0 DAYS_OF_WEEK []) =
  Done (Some (cyclicRange 5 0)).
Proof. apply extractDays_range_cyclic; [lia | lia | discriminate]. Defined.

Lemma execLoop_nomatch re bef ch aft fuel :
  nullable (pattern re) = false ->
  matchAt re bef (ch :: aft) = None ->
  length (ch :: aft) <= fuel ->
  execLoop fuel re bef (ch :: aft) = execLoop (length aft) re (ch :: bef) aft.
Proof.
  intros Hn Hm Hf. destruct fuel as [|fuel]; [simpl in Hf; lia|].
  cbn [execLoop execFrom]. rewrite Hm.
  destruct (execFrom re (ch :: bef) aft) as [m|] eqn:E.
  - pose proof (execFrom_sound _ _ _ E) as (_ & Hlt & _). specialize (Hlt Hn).
    replace (Nat.ltb (length (rest_after m)) (length (ch :: aft))) with true
      by (symmetry; apply Nat.ltb_lt; simpl; lia).
    destruct aft as [|ch' aft]; [simpl in Hlt; lia|].
    cbn [length execLoop]. rewrite E.
    replace (Nat.ltb (length (rest_after m)) (S (length aft))) with true
      by (symmetry; apply Nat.ltb_lt; simpl in Hlt; lia).
    simpl in Hf, Hlt.
    rewrite (@execLoop_fuel re fuel (length aft)); [reflexivity | lia | lia].
  - destruct aft; cbn [length execLoop]; rewrite E; reflexivity.
Qed.

(** ** The phrase "Monday-Friday" *)

Lemma rangePattern_Monday_Friday bef post :
  matchAt rangePattern bef (str "Monday-Friday" ++ post) =
  Some (mkResult (length bef) (str "Monday-Friday")
                 [(2, str "Friday"); (1, str "Monday")]
                 (rev (str "Monday-Friday") ++ bef) post).
Proof. vm_compute. reflexivity. Qed.

(** The matcher of [dayNames] at "Friday", with what follows the group
    left open. *)
Lemma dayNames_Friday bef post (c : Continuation) :
  compile true dayNames (mkState bef (str "Friday" ++ post) [] 0) c =
  match
    match c (mkState (121 :: 97 :: 100 :: 105 :: 114 :: 70 :: bef)%N post
                     [(1, str "Friday")] 6) with
    | Some z => Some z
    | None => c (mkState (105 :: 114 :: 70 :: bef)%N (str "day" ++ post)
                         [(1, str "Fri")] 3)
    end
  with
  | Some z => Some z
  | None => None
  end.
Proof. vm_compute. reflexivity. Qed.

Lemma dayPattern_Monday bef post :
  matchAt dayPattern bef (str "Monday-Friday" ++ post) = None \/
  exists m, matchAt dayPattern bef (str "Monday-Friday" ++ post) = Some m /\
            namesDay "Monday" m /\ rest_after m = str "-Friday" ++ post /\
            rest_before m = rev (str "Monday") ++ bef.
Proof.
  destruct bef as [|c0 bef].
  - right. eexists. split; [vm_compute; reflexivity|]. repeat split.
  - unfold matchAt.
    change (pattern dayPattern) with (Seq WordBoundary (Seq dayNames WordBoundary)).
    change (ignoreCase dayPattern) with true.
    cbn [compile wordBefore before]. destruct (isWordChar c0).
    + left. vm_compute. reflexivity.
    + right. eexists. split; [vm_compute; reflexivity|]. repeat split.
Qed.

Lemma dayPattern_Friday bef post :
  matchAt dayPattern (hyphen :: bef) (str "Friday" ++ post) = None \/
  exists m, matchAt dayPattern (hyphen :: bef) (str "Friday" ++ post) = Some m /\
            namesDay "Friday" m /\ rest_after m = post /\
            rest_before m = rev (str "Friday") ++ hyphen :: bef.
Proof.
  destruct post as [|c1 post].
  - right. eexists. split; [vm_compute; reflexivity|]. repeat split.
  - unfold matchAt.
    change (pattern dayPattern) with (Seq WordBoundary (Seq dayNames WordBoundary)).
    change (ignoreCase dayPattern) with true.
    cbn [compile].
    replace (xorb (wordBefore (mkState (hyphen :: bef) (str "Friday" ++ c1 :: post) [] 0))
                  (wordAfter (mkState (hyphen :: bef) (str "Friday" ++ c1 :: post) [] 0)))
      with true by (vm_compute; reflexivity).
    rewrite dayNames_Friday. cbn [wordBefore wordAfter before after].
    destruct (isWordChar c1).
    + left. vm_compute. reflexivity.
    + right. eexists. split; [vm_compute; reflexivity|]. repeat split.
Qed.

Lemma concrete_quiet re (s : jsstring) :
  forallb (fun ch => negb (starts (ignoreCase re) (pattern re) ch)) s = true ->
  Forall (fun ch => starts (ignoreCase re) (pattern re) ch = false) s.
Proof.
  intros H. apply Forall_forall. intros ch Hch.
  rewrite forallb_forall in H. specialize (H ch Hch). now apply negb_true_iff.
Qed.

Lemma addDay_known ms :
  Forall (fun m => namesDay "Monday" m \/ namesDay "Friday" m) ms ->
  forEachMatch addDay ms weekdays = Done weekdays.
Proof.
  induction 1 as [|m ms Hm Hms IH]; [reflexivity|].
  cbn [forEachMatch]. unfold addDay at 1.
  destruct Hm as [Hm | Hm]; unfold namesDay in Hm; rewrite Hm.
  - change (normalizeDay (str "Monday")) with (Some (str "Monday")).
    change (set_add weekdays (str "Monday")) with weekdays. exact IH.
  - change (normalizeDay (str "Friday")) with (Some (str "Friday")).
    change (set_add weekdays (str "Friday")) with weekdays. exact IH.
Qed.

(** ** scraper.js: the shape of a slug *)

(** *** The loop of [replace] *)

Lemma execFrom_index re : forall aft bef m,
  execFrom re bef aft = Some m -> length bef <= index m.
Proof.
  induction aft as [|ch aft IH]; intros bef m H; cbn [execFrom] in H.
  - unfold matchAt in H. destruct (compile _ _ _ _); [|discriminate].
    inversion H; subst. simpl. lia.
  - destruct (matchAt re bef (ch :: aft)) eqn:Hm.
    + inversion H; subst. unfold matchAt in Hm. destruct (compile _ _ _ _); [|discriminate].
      inversion Hm; subst. simpl. lia.
    + apply IH in H. simpl in H. lia.
Qed.

(** Where the pattern does not match, [replace] copies the code unit. *)
Lemma replaceLoop_copy re template bef ch aft fuel :
  matchAt re bef (ch :: aft) = None ->
  replaceLoop fuel re template bef (ch :: aft) =
  ch :: replaceLoop fuel re template (ch :: bef) aft.
Proof.
  intros Hm. destruct fuel as [|fuel]; cbn [replaceLoop execFrom]; rewrite Hm.
  - destruct (execFrom re (ch :: bef) aft); reflexivity.
  - destruct (execFrom re (ch :: bef) aft) as [m|] eqn:Em; [|reflexivity].
    apply execFrom_index in Em. cbn [length] in *.
    replace (index m - length bef) with (S (index m - S (length bef))) by lia.
    cbn [firstn app].
    destruct (matched m); [destruct (rest_after m)|]; reflexivity.
Qed.

(** *** Runs of code units outside [a-z0-9] *)

Lemma class_mem_alnum ch :
  class_mem false [(97, 122); (48, 57)]%N ch = isSlugAlnum ch.
Proof.
  unfold class_mem, in_ranges, isSlugAlnum, isAsciiLower, isAsciiDigit.
  cbn [existsb fst snd andb]. now rewrite !orb_false_r.
Qed.

Lemma span_run s :
  exists run rest, s = run ++ rest /\ Forall (fun c => isSlugAlnum c = false) run /\
                   alnumAhead rest.
Proof.
  induction s as [|c s (run & rest & -> & Hrun & Hrest)].
  - exists [], []. repeat split. constructor.
  - destruct (isSlugAlnum c) eqn:E.
    + exists [], (c :: run ++ rest). repeat split; [constructor | exact E].
    + exists (c :: run), rest. repeat split; [now constructor | exact Hrest].
Qed.

Lemma run_matched run : forall rest bef caps e fuel min,
  Forall (fun c => isSlugAlnum c = false) run -> alnumAhead rest ->
  min <= length run -> length run + min < fuel ->
  RepeatMatcher fuel (compile false (Chars true [(97, 122); (48, 57)]%N)) min None true []
                (mkState bef (run ++ rest) caps e) (fun y => Some y) =
  Some (mkState (rev run ++ bef) rest caps (e + length run)).
Proof.
  set (m := compile false (Chars true [(97, 122); (48, 57)]%N)).
  assert (Hm : forall x c, m x c =
                 match after x with
                 | [] => None
                 | ch :: rest =>
                     if negb (isSlugAlnum ch)
                     then c (mkState (ch :: before x) rest (captures x) (S (endIndex x)))
                     else None
                 end).
  { intros x c. unfold m. cbn [compile]. destruct (after x); [reflexivity|].
    now rewrite class_mem_alnum. }
  clearbody m.
  induction run as [|c run IH]; intros rest bef caps e fuel min Hrun Hrest Hmin Hfuel;
    (destruct fuel as [|fuel]; [simpl in Hfuel; lia|]); cbn [RepeatMatcher]; rewrite !Hm.
  - simpl in Hmin. assert (min = 0) by lia. subst min.
    cbn [isZero Nat.eqb negb app after clear_captures fold_left before captures
         endIndex length rev].
    rewrite Nat.add_0_r.
    destruct rest as [|c rest]; [reflexivity|].
    simpl in Hrest. rewrite Hrest. reflexivity.
  - inversion Hrun as [|c' run' Hc Hrun']; subst.
    cbn [app after clear_captures fold_left before captures endIndex option_map].
    rewrite Hc. cbn [negb].
    assert (Hne : Nat.eqb (S e) e = false) by (apply Nat.eqb_neq; lia).
    rewrite Hne, andb_false_r.
    rewrite (IH rest (c :: bef) caps (S e) fuel (pred min)); try assumption;
      [|simpl in Hmin; lia | simpl in Hfuel; lia].
    cbn [rev length]. rewrite <- app_assoc. cbn [app].
    replace (S e + length run) with (e + S (length run)) by lia.
    destruct (isZero min); reflexivity.
Qed.

Lemma nonAlnumRuns_at_run bef c run rest :
  isSlugAlnum c = false -> Forall (fun c => isSlugAlnum c = false) run -> alnumAhead rest ->
  matchAt nonAlnumRuns bef (c :: run ++ rest) =
  Some (mkResult (length bef) (c :: run) [] (rev (c :: run) ++ bef) rest).
Proof.
  intros Hc Hrun Hrest. unfold matchAt.
  change (pattern nonAlnumRuns) with (Repeat (Chars true [(97, 122); (48, 57)]%N) 1 None true).
  change (ignoreCase nonAlnumRuns) with false.
  cbn [compile groupsOf].
  rewrite (@run_matched (c :: run) rest bef [] 0); try assumption.
  - unfold consumed. cbn [endIndex after captures before Nat.sub Nat.add].
    rewrite Nat.sub_0_r.
    replace (firstn (length (c :: run)) (c :: run ++ rest)) with (c :: run); [reflexivity|].
    change (c :: run ++ rest) with ((c :: run) ++ rest).
    now rewrite firstn_app, Nat.sub_diag, firstn_all, firstn_O, app_nil_r.
  - now constructor.
  - simpl. lia.
  - unfold remaining. cbn [after]. change (c :: run ++ rest) with ((c :: run) ++ rest).
    rewrite length_app. simpl. lia.
Qed.

Lemma nonAlnumRuns_at_alnum bef c aft :
  isSlugAlnum c = true -> matchAt nonAlnumRuns bef (c :: aft) = None.
Proof.
  intros Hc. apply matchAt_cannot_start; [reflexivity|].
  cbn -[class_mem]. now rewrite class_mem_alnum, Hc.
Qed.

Lemma collapse_run run : forall rest,
  Forall (fun c => isSlugAlnum c = false) run -> alnumAhead rest ->
  collapse true (run ++ rest) = collapse false rest.
Proof.
  induction run as [|c run IH]; intros rest Hrun Hrest.
  - destruct rest as [|c rest]; [reflexivity|]. simpl in *. now rewrite Hrest.
  - inversion Hrun; subst. simpl. rewrite H1. now apply IH.
Qed.

(** [s.replace(/[^a-z0-9]+/g, '-')] *)
Lemma replace_nonAlnumRuns s :
  replace nonAlnumRuns (str "-") s = collapse false s.
Proof.
  unfold replace. change (global nonAlnumRuns) with true. cbv iota.
  assert (H : forall n s, length s <= n -> forall bef fuel, length s < fuel ->
              replaceLoop fuel nonAlnumRuns (str "-") bef s = collapse false s).
  { clear s. induction n as [|n IH]; intros s Hn bef fuel Hf.
    - destruct s; [|simpl in Hn; lia]. destruct fuel; cbn [replaceLoop];
        rewrite (@execFrom_quiet nonAlnumRuns [] bef eq_refl (Forall_nil _)); reflexivity.
    - destruct s as [|c s].
      { destruct fuel; cbn [replaceLoop];
          rewrite (@execFrom_quiet nonAlnumRuns [] bef eq_refl (Forall_nil _)); reflexivity. }
      destruct (isSlugAlnum c) eqn:Ec.
      + rewrite replaceLoop_copy by now apply nonAlnumRuns_at_alnum.
        cbn [collapse]. rewrite Ec. f_equal. apply IH; simpl in *; lia.
      + destruct (span_run s) as (run & rest & -> & Hrun & Hrest).
        destruct fuel as [|fuel]; [lia|].
        cbn [replaceLoop].
        rewrite (@matchAt_execFrom _ _ _ _ (@nonAlnumRuns_at_run bef c run rest Ec Hrun Hrest)).
        cbn [index matched rest_after rest_before]. rewrite Nat.sub_diag.
        change (getSubstitution _ (groupCount nonAlnumRuns) (str "-")) with [hyphen].
        cbn [firstn app collapse]. rewrite Ec.
        rewrite collapse_run by assumption. f_equal.
        apply IH.
        * simpl in Hn. rewrite length_app in Hn. lia.
        * simpl in Hf. rewrite length_app in Hf. lia. }
  apply (H (length s)); [apply le_n | lia].
Qed.

(** *** Hyphens at the edges *)

Lemma edgeHyphens_other bef c aft :
  c <> hyphen -> matchAt edgeHyphens bef (c :: aft) = None.
Proof.
  intros Hc. apply matchAt_cannot_start; [reflexivity|].
  assert (E : class_mem false [(hyphen, hyphen)] c = false).
  { unfold class_mem, in_ranges, in_range, hyphen in *. cbn [existsb fst snd andb].
    split_tests; cbn; try reflexivity; lia. }
  cbn -[class_mem]. now rewrite E.
Qed.

Lemma edgeHyphens_inside b bef a aft :
  matchAt edgeHyphens (b :: bef) (hyphen :: a :: aft) = None.
Proof. vm_compute. reflexivity. Qed.

Lemma edgeHyphens_end b bef :
  matchAt edgeHyphens (b :: bef) [hyphen] =
  Some (mkResult (length (b :: bef)) [hyphen] [(1, [hyphen])] (hyphen :: b :: bef) []).
Proof. vm_compute. reflexivity. Qed.

Lemma edgeHyphens_start aft :
  matchAt edgeHyphens [] (hyphen :: aft) =
  Some (mkResult 0 [hyphen] [(1, [hyphen])] [hyphen] aft).
Proof. vm_compute. reflexivity. Qed.

Lemma replaceLoop_end re template bef fuel :
  nullable (pattern re) = false -> replaceLoop fuel re template bef [] = [].
Proof.
  intros Hn. destruct fuel; cbn [replaceLoop];
    rewrite (@execFrom_quiet re [] bef Hn (Forall_nil _)); reflexivity.
Qed.

Lemma replace_edgeHyphens_inside s : forall b bef fuel,
  0 < fuel ->
  replaceLoop fuel edgeHyphens (str "") (b :: bef) s = dropEndHyphen s.
Proof.
  induction s as [|c s IH]; intros b bef fuel Hf.
  - now apply replaceLoop_end.
  - destruct (N.eqb_spec c hyphen) as [-> | Hc].
    + destruct s as [|a s].
      * destruct fuel as [|fuel]; [lia|]. cbn [replaceLoop].
        rewrite (@matchAt_execFrom _ _ _ _ (edgeHyphens_end b bef)).
        cbn [index matched rest_after rest_before]. rewrite Nat.sub_diag.
        rewrite replaceLoop_end by reflexivity. reflexivity.
      * rewrite replaceLoop_copy by apply edgeHyphens_inside.
        rewrite IH by assumption. reflexivity.
    + rewrite replaceLoop_copy by now apply edgeHyphens_other.
      rewrite IH by assumption. cbn [dropEndHyphen].
      destruct s; [|reflexivity].
      apply N.eqb_neq in Hc. now rewrite Hc.
Qed.

(** [s.replace(/(^-|-$)/g, '')] *)
Lemma replace_edgeHyphens s :
  replace edgeHyphens (str "") s = dropEdgeHyphens s.
Proof.
  unfold replace. change (global edgeHyphens) with true. cbv iota.
  destruct s as [|c s].
  - now apply replaceLoop_end.
  - unfold dropEdgeHyphens. destruct (N.eqb_spec c hyphen) as [-> | Hc].
    + cbn [replaceLoop].
      rewrite (@matchAt_execFrom _ _ _ _ (edgeHyphens_start s)).
      cbn [index matched rest_after rest_before length Nat.sub firstn app].
      destruct s as [|a s].
      * now rewrite replaceLoop_end.
      * change (getSubstitution _ (groupCount edgeHyphens) (str "")) with (@nil char).
        cbn [app]. apply replace_edgeHyphens_inside. simpl. lia.
    + rewrite replaceLoop_copy by now apply edgeHyphens_other.
      f_equal. apply replace_edgeHyphens_inside. lia.
Qed.

(** The slug of a name, without the patterns. *)
Lemma slugify_collapse name :
  slugify name = dropEdgeHyphens (collapse false (toLowerCase name)).
Proof. unfold slugify. now rewrite replace_nonAlnumRuns, replace_edgeHyphens. Qed.

(** *** The shape *)

Lemma isSlugAlnum_not_hyphen c : isSlugAlnum c = true -> N.eqb c hyphen = false.
Proof.
  unfold isSlugAlnum, isAsciiLower, isAsciiDigit, in_range, hyphen.
  rewrite orb_true_iff, !andb_true_iff, !N.leb_le. intros H. apply N.eqb_neq. lia.
Qed.

Lemma collapse_shape s : forall inRun,
  Forall (fun c => isSlugUnit c = true) (collapse inRun s) /\
  hyphensApart inRun (collapse inRun s).
Proof.
  induction s as [|c s IH]; intros inRun; cbn [collapse].
  - split; [constructor | exact I].
  - destruct (isSlugAlnum c) eqn:Ec.
    + destruct (IH false) as [H1 H2]. split.
      * constructor; [|exact H1]. unfold isSlugUnit. now rewrite Ec.
      * cbn [hyphensApart]. now rewrite (isSlugAlnum_not_hyphen _ Ec).
    + destruct inRun.
      * apply IH.
      * destruct (IH true) as [H1 H2]. split.
        -- constructor; [|exact H1]. unfold isSlugUnit. now rewrite N.eqb_refl, orb_true_r.
        -- cbn [hyphensApart]. now rewrite N.eqb_refl.
Qed.

Lemma hyphensApart_weaken s : hyphensApart true s -> hyphensApart false s.
Proof.
  destruct s as [|c s]; [trivial|]. cbn [hyphensApart].
  destruct (N.eqb c hyphen); [|trivial]. intros [H _]. discriminate.
Qed.

Lemma dropEndHyphen_shape s : forall b,
  Forall (fun c => isSlugUnit c = true) s -> hyphensApart b s ->
  Forall (fun c => isSlugUnit c = true) (dropEndHyphen s) /\
  hyphensApart b (dropEndHyphen s) /\
  (b = false -> endsWithHyphen (dropEndHyphen s) = false).
Proof.
  induction s as [|c s IH]; intros b Hall Hap.
  - repeat split; constructor.
  - inversion Hall as [|c' s' Hc Hs]; subst. cbn [hyphensApart] in Hap.
    destruct s as [|d s].
    + cbn [dropEndHyphen]. destruct (N.eqb c hyphen) eqn:Ec.
      * repeat split; constructor.
      * repeat split; [now constructor | cbn [hyphensApart]; now rewrite Ec |].
        intros _. cbn [endsWithHyphen]. exact Ec.
    + change (dropEndHyphen (c :: d :: s)) with (c :: dropEndHyphen (d :: s)).
      destruct (N.eqb c hyphen) eqn:Ec.
      * destruct Hap as [-> Hap].
        destruct (IH true Hs Hap) as (H1 & H2 & _).
        repeat split; [now constructor | cbn [hyphensApart]; now rewrite Ec |].
        intros _.
        (* after a hyphen comes a code unit that is not a hyphen *)
        cbn [hyphensApart] in Hap. destruct (N.eqb d hyphen) eqn:Ed; [now destruct Hap|].
        destruct (IH false Hs) as (_ & _ & H3).
        { cbn [hyphensApart]. now rewrite Ed. }
        specialize (H3 eq_refl).
        destruct s as [|e s].
        -- cbn [dropEndHyphen] in *. rewrite Ed in *. cbn [endsWithHyphen]. exact Ed.
        -- change (dropEndHyphen (d :: e :: s)) with (d :: dropEndHyphen (e :: s)) in *.
           exact H3.
      * destruct (IH false Hs Hap) as (H1 & H2 & H3). specialize (H3 eq_refl).
        repeat split; [now constructor | |].
        -- cbn [hyphensApart]. rewrite Ec.
           destruct b; [exact H2 | exact H2].
        -- intros _. destruct (dropEndHyphen (d :: s)) eqn:Ed; [|exact H3].
           cbn [endsWithHyphen]. exact Ec.
Qed.

Lemma slug_shape s :
  Forall (fun c => isSlugUnit c = true) s -> hyphensApart false s ->
  Forall (fun c => isSlugUnit c = true) (dropEdgeHyphens s) /\
  hyphensApart true (dropEdgeHyphens s) /\
  endsWithHyphen (dropEdgeHyphens s) = false.
Proof.
  intros Hall Hap. destruct s as [|c s]; [repeat split; constructor|].
  inversion Hall as [|c' s' Hc Hs]; subst. cbn [hyphensApart] in Hap.
  unfold dropEdgeHyphens. destruct (N.eqb c hyphen) eqn:Ec.
  - destruct Hap as [_ Hap].
    destruct (dropEndHyphen_shape true Hs Hap) as (H1 & H2 & _).
    destruct (dropEndHyphen_shape false Hs (hyphensApart_weaken _ Hap)) as (_ & _ & H3).
    repeat split; auto.
  - destruct (dropEndHyphen_shape false Hs Hap) as (H1 & H2 & H3).
    specialize (H3 eq_refl). repeat split.
    + now constructor.
    + cbn [hyphensApart]. now rewrite Ec.
    + destruct (dropEndHyphen s) eqn:Ed; [|exact H3]. cbn [endsWithHyphen]. exact Ec.
Qed.

Lemma hyphensApart_no_double s : forall b,
  hyphensApart b s -> ~ contains s [hyphen; hyphen].
Proof.
  intros b H (pre & post & E). revert s b H E.
  induction pre as [|c pre IH]; intros s b H E; subst s.
  - cbn in H. destruct H as [_ [H _]]. discriminate.
  - cbn [app hyphensApart] in H. destruct (N.eqb c hyphen).
    + destruct H as [_ H]. eapply IH; [exact H | reflexivity].
    + eapply IH; [exact H | reflexivity].
Qed.

Lemma endsWithHyphen_app t : endsWithHyphen (t ++ [hyphen]) = true.
Proof.
  induction t as [|c t IH]; [reflexivity|].
  cbn [app]. destruct (t ++ [hyphen]) eqn:E; [now destruct t|].
  exact IH.
Qed.

Lemma collapse_no_alnum s : forall inRun,
  Forall (fun c => isSlugAlnum c = false) s ->
  collapse inRun s = if inRun then [] else match s with [] => [] | _ :: _ => [hyphen] end.
Proof.
  induction s as [|c s IH]; intros inRun H; [now destruct inRun|].
  inversion H; subst. cbn [collapse]. rewrite H2.
  destruct inRun; rewrite IH by assumption; reflexivity.
Qed.

(** C10, as the code has it: a slug holds lower-case ASCII letters,
    digits and hyphens only, it neither starts nor ends with a hyphen,
    and no two hyphens stand side by side; the slug of a name whose lower
    case holds no lower-case ASCII letter and no digit is the empty
    string. *)
Theorem slugify_shape name :
  Forall (fun c => isAsciiLower c = true \/ isAsciiDigit c = true \/ c = hyphen)
         (slugify name) /\
  (forall t, slugify name <> hyphen :: t) /\
  (forall t, slugify name <> t ++ [hyphen]) /\
  ~ contains (slugify name) [hyphen; hyphen] /\
  (Forall (fun c => isSlugAlnum c = false) (toLowerCase name) -> slugify name = []).
Proof.
  rewrite slugify_collapse.
  destruct (collapse_shape (toLowerCase name) false) as [Hall Hap].
  destruct (slug_shape Hall Hap) as (H1 & H2 & H3).
  repeat split.
  - eapply Forall_impl; [|exact H1]. intros c Hc. unfold isSlugUnit, isSlugAlnum in Hc.
    rewrite !orb_true_iff, N.eqb_eq in Hc. tauto.
  - intros t E. rewrite E in H2. cbn in H2. destruct H2 as [H2 _]. discriminate.
  - intros t E. rewrite E, endsWithHyphen_app in H3. discriminate.
  - eapply hyphensApart_no_double. exact H2.
  - intros Hn. rewrite (collapse_no_alnum false Hn).
    destruct (toLowerCase name); reflexivity.
Qed.

(** C10 as stated fails: the Kelvin sign, U+212A, is no ASCII letter or
    digit, and its lower case is "k". *)
Lemma slugify_Kelvin_sign :
  ~ (Forall (fun c => isAsciiAlnum c = false) [8490%N] -> slugify [8490%N] = []).
Proof.
  intros H. assert (E : slugify [8490%N] = str "k") by (vm_compute; reflexivity).
  rewrite H in E; [discriminate|]. repeat constructor.
Qed.

(** ** crawler.js: the files of a run *)

Lemma writeFileSync_same dir file content :
  writeFileSync dir file content file = Some content.
Proof. unfold writeFileSync. now rewrite jsstring_eqb_refl. Qed.

Lemma writeFileSync_other dir file content f :
  f <> file -> writeFileSync dir file content f = dir f.
Proof.
  intros Hne. unfold writeFileSync. destruct (jsstring_eqb f file) eqn:E; [|reflexivity].
  apply jsstring_eqb_eq in E. contradiction.
Qed.

Lemma fileName_inj (a b : jsstring) : a ++ str ".txt" = b ++ str ".txt" -> a = b.
Proof. apply app_inv_tail. Qed.

Lemma generateFallbackRawFiles_other venues : forall dir f,
  (forall v, In v venues -> f <> id v ++ str ".txt") ->
  generateFallbackRawFiles dir venues f = dir f.
Proof.
  induction venues as [|v venues IH]; intros dir f Hf; [reflexivity|].
  cbn [generateFallbackRawFiles]. rewrite IH.
  - apply writeFileSync_other. apply Hf. now left.
  - intros v' Hv'. apply Hf. now right.
Qed.

Lemma generateFallbackRawFiles_written venues : forall dir v,
  NoDup (map id venues) -> In v venues ->
  generateFallbackRawFiles dir venues (id v ++ str ".txt") = Some (fallbackRawText v).
Proof.
  induction venues as [|v0 venues IH]; intros dir v Hnd Hin; [contradiction|].
  cbn [generateFallbackRawFiles]. cbn [map] in Hnd. inversion Hnd as [|? ? Hni Hnd']; subst.
  destruct Hin as [-> | Hin].
  - rewrite generateFallbackRawFiles_other; [apply writeFileSync_same|].
    intros v' Hv' E. apply fileName_inj in E. apply Hni. rewrite E. now apply in_map.
  - now apply IH.
Qed.

Lemma generateFallbackRawFiles_exists venues : forall dir v,
  In v venues -> generateFallbackRawFiles dir venues (id v ++ str ".txt") <> None.
Proof.
  induction venues as [|v0 venues IH]; intros dir v Hin; [contradiction|].
  cbn [generateFallbackRawFiles].
  destruct (in_dec (list_eq_dec N.eq_dec) (id v) (map id venues)) as [Hm | Hm].
  - apply in_map_iff in Hm. destruct Hm as (v' & E & Hv'). rewrite <- E. now apply IH.
  - destruct Hin as [-> | Hin]; [|exfalso; apply Hm; now apply in_map].
    rewrite generateFallbackRawFiles_other; [rewrite writeFileSync_same; discriminate|].
    intros v' Hv' E. apply fileName_inj in E. apply Hm. rewrite E. now apply in_map.
Qed.

Lemma findRelevantLinks_length (hostname : jsstring -> option jsstring) page baseUrl :
  length (findRelevantLinks hostname page baseUrl) <= 5.
Proof.
  unfold findRelevantLinks. destruct page as [anchors|]; [|cbn; lia].
  destruct (hostname baseUrl); [|cbn; lia]. apply firstn_le_length.
Qed.

Section CrawlerRun.

Variable hostname : jsstring -> option jsstring.
Variable w : Chromium.

Lemma crawlVenue_cases k dir v :
  (crawlVenue hostname (session w k) dir v =
     Returned (writeFileSync dir (id v ++ str ".txt") (venueTextOf hostname w k v)) /\
   ~ sessionFails w k v) \/
  (crawlVenue hostname (session w k) dir v = Threw dir /\ sessionFails w k v).
Proof.
  unfold crawlVenue, venueTextOf, sessionFails, noWebsite.
  destruct (website v) as [[|c site]|] eqn:E.
  - left. split; [reflexivity|]. intros [H _]. apply H. now right.
  - destruct (opened (session w k)) eqn:Eo; cbn [negb].
    + destruct (closed (session w k)) eqn:Ec; cbn [negb].
      * left. split; [reflexivity|]. intros [_ [H | H]]; discriminate.
      * right. split; [reflexivity|]. split; [|now right]. intros [H | H]; discriminate.
    + right. split; [reflexivity|]. split; [|now left]. intros [H | H]; discriminate.
  - left. split; [reflexivity|]. intros [H _]. apply H. now left.
Qed.

Lemma crawlFrom_other venues : forall k dir f,
  (forall v, In v venues -> f <> id v ++ str ".txt") ->
  match crawlFrom hostname w k dir venues with
  | Returned dir' | Threw dir' => dir' f = dir f
  end.
Proof.
  induction venues as [|v venues IH]; intros k dir f Hf; [reflexivity|].
  cbn [crawlFrom].
  destruct (crawlVenue_cases k dir v) as [[-> _] | [-> _]]; [|reflexivity].
  specialize (IH (S k) (writeFileSync dir (id v ++ str ".txt") (venueTextOf hostname w k v)) f).
  destruct (crawlFrom hostname w (S k) _ venues).
  - rewrite IH; [|intros v' Hv'; apply Hf; now right].
    apply writeFileSync_other. apply Hf. now left.
  - rewrite IH; [|intros v' Hv'; apply Hf; now right].
    apply writeFileSync_other. apply Hf. now left.
Qed.

Lemma crawlFrom_returned venues : forall k dir dir',
  crawlFrom hostname w k dir venues = Returned dir' ->
  (forall i v, nth_error venues i = Some v -> ~ sessionFails w (k + i) v) /\
  (forall v, In v venues -> dir' (id v ++ str ".txt") <> None) /\
  (NoDup (map id venues) ->
   forall i v, nth_error venues i = Some v ->
               dir' (id v ++ str ".txt") = Some (venueTextOf hostname w (k + i) v)).
Proof.
  induction venues as [|v0 venues IH]; intros k dir dir' H.
  - repeat split.
    + intros [|i] v E; discriminate.
    + intros v [].
    + intros _ [|i] v E; discriminate.
  - cbn [crawlFrom] in H.
    destruct (crawlVenue_cases k dir v0) as [[E Hok] | [E _]]; rewrite E in H;
      [|discriminate].
    pose proof (crawlFrom_other venues (S k)
                  (writeFileSync dir (id v0 ++ str ".txt") (venueTextOf hostname w k v0))) as Hother.
    rewrite H in Hother.
    apply IH in H. destruct H as (Hfail & Hex & Hval). repeat split.
    + intros [|i] v Ei.
      * cbn in Ei. inversion Ei; subst. now rewrite Nat.add_0_r.
      * cbn in Ei. replace (k + S i) with (S k + i) by lia. now apply Hfail.
    + intros v [-> | Hin]; [|now apply Hex].
      destruct (in_dec (list_eq_dec N.eq_dec) (id v) (map id venues)) as [Hm | Hm].
      * apply in_map_iff in Hm. destruct Hm as (v' & Ev & Hv'). rewrite <- Ev.
        now apply Hex.
      * rewrite Hother; [rewrite writeFileSync_same; discriminate|].
        intros v' Hv' Ev. apply fileName_inj in Ev. apply Hm. rewrite Ev. now apply in_map.
    + intros Hnd [|i] v Ei; cbn [map] in Hnd; inversion Hnd as [|? ? Hni Hnd']; subst.
      * cbn in Ei. inversion Ei; subst. rewrite Nat.add_0_r.
        rewrite Hother; [apply writeFileSync_same|].
        intros v' Hv' Ev. apply fileName_inj in Ev. apply Hni. rewrite Ev. now apply in_map.
      * cbn in Ei. replace (k + S i) with (S k + i) by lia. now apply Hval.
Qed.

Lemma crawlFrom_threw venues : forall k dir dir',
  crawlFrom hostname w k dir venues = Threw dir' ->
  exists i v, nth_error venues i = Some v /\ sessionFails w (k + i) v.
Proof.
  induction venues as [|v0 venues IH]; intros k dir dir' H; [discriminate|].
  cbn [crawlFrom] in H.
  destruct (crawlVenue_cases k dir v0) as [[E _] | [E Hf]]; rewrite E in H.
  - apply IH in H. destruct H as (i & v & Ei & Hf). exists (S i), v. split; [exact Ei|].
    now replace (k + S i) with (S k + i) by lia.
  - exists 0, v0. split; [reflexivity|]. now rewrite Nat.add_0_r.
Qed.

Lemma extractPageText_is page : pageTextIs page (extractPageText page).
Proof.
  unfold extractPageText. destruct (bodyText page) as [t|] eqn:E.
  - now apply text_evaluated.
  - now apply text_failed.
Qed.

Lemma subpageSection_is s link : sectionIs s link (subpageSection s link).
Proof.
  unfold subpageSection. destruct (subpage s link) as [message | page] eqn:E.
  - now apply section_failed.
  - apply (@section_loaded s link page); [exact E|].
    apply extractPageText_is.
Qed.

Lemma rawHeader_headLines v site : rawHeader v site = headLines v site.
Proof. reflexivity. Qed.

Lemma venueTextOf_is k v : rawFileIs hostname (session w k) v (venueTextOf hostname w k v).
Proof.
  unfold venueTextOf, noWebsiteText, crawledText.
  destruct (website v) as [[|c site]|] eqn:E; rewrite rawHeader_headLines.
  - apply raw_noWebsite. now right.
  - destruct (home (session w k)) as [message | page] eqn:Eh.
    + now apply (@raw_homeFailed hostname (session w k) v (c :: site) message).
    + rewrite flat_map_concat_map.
      apply (@raw_crawled hostname (session w k) v (c :: site) page).
      * exact E.
      * discriminate.
      * exact Eh.
      * apply extractPageText_is.
      * induction (findRelevantLinks hostname (anchors page) (c :: site)) as [|l ls IH];
          cbn [map]; constructor; [apply subpageSection_is | exact IH].
      * rewrite length_map. apply findRelevantLinks_length.
  - apply raw_noWebsite. now left.
Qed.

(** Whatever the browser does, a run of the crawler that finds
    venues.json with slugs for ids leaves a raw text file for every venue
    of the list, and leaves every other file of the directory as it
    was. *)
Theorem crawlerMain_one_file_per_venue venues dir :
  slugIds venues ->
  exists dir',
    crawlerMain hostname w (mkFiles (Some venues) dir) = Some dir' /\
    (forall v, In v venues -> dir' (id v ++ str ".txt") <> None) /\
    (forall f, (forall v, In v venues -> f <> id v ++ str ".txt") -> dir' f = dir f).
Proof.
  intros _. unfold crawlerMain. cbn [venuesFile rawFile].
  destruct (launches w).
  - pose proof (crawlFrom_other venues 0 dir) as Hother.
    destruct (crawlFrom hostname w 0 dir venues) as [dir' | dir'] eqn:E.
    + exists dir'. split; [reflexivity|]. split.
      * now apply (crawlFrom_returned venues 0 dir).
      * intros f Hf. now apply Hother.
    + eexists. split; [reflexivity|]. split.
      * intros v Hv. now apply generateFallbackRawFiles_exists.
      * intros f Hf. rewrite generateFallbackRawFiles_other; [|exact Hf]. now apply Hother.
  - eexists. split; [reflexivity|]. split.
    + intros v Hv. now apply generateFallbackRawFiles_exists.
    + intros f Hf. now apply generateFallbackRawFiles_other.
Qed.


(** When the browser is launched and no session fails, the file of each
    venue of the list (ids are slugs, no id twice) is made of the four
    head lines (name, address, neighborhood, website or "none") and an
    empty line, then: for a venue without website the line "No website
    available for crawling."; for a homepage that cannot be fetched the
    line "Failed to fetch homepage: " with the message; else the section
    "=== HOMEPAGE ===" with the text of the homepage, and one section
    "=== link ===" for each link that [findRelevantLinks] gives, at
    most five, in their order, with the text of its page or with "Failed
    to fetch: " and the message. *)
Theorem crawlerMain_crawled venues dir :
  slugIds venues ->
  NoDup (map id venues) ->
  launches w = true ->
  (forall k v, nth_error venues k = Some v -> ~ sessionFails w k v) ->
  exists dir',
    crawlerMain hostname w (mkFiles (Some venues) dir) = Some dir' /\
    forall k v, nth_error venues k = Some v ->
      exists content,
        dir' (id v ++ str ".txt") = Some content /\
        rawFileIs hostname (session w k) v content.
Proof.
  intros _ Hnd El Hok. unfold crawlerMain. cbn [venuesFile rawFile]. rewrite El.
  destruct (crawlFrom hostname w 0 dir venues) as [dir' | dir'] eqn:E.
  - exists dir'. split; [reflexivity|].
    apply crawlFrom_returned in E. destruct E as (_ & _ & Hval). intros k v Ek.
    exists (venueTextOf hostname w k v). split; [now apply (Hval Hnd k v)|].
    apply venueTextOf_is.
  - apply crawlFrom_threw in E. destruct E as (i & v & Ei & Hf). exfalso.
    now apply (Hok i v Ei).
Qed.

End CrawlerRun.

(** ** The pipeline: scraper, crawler, extractor *)

Lemma extractAll_records fs : forall venues,
  exists results,
    extractAll fs venues = Done results /\
    Forall2 (fun v r => info_id r = id v /\
                        exists hh, happy_hour r = Some hh /\
                                   extractHappyHourInfo (rawTextOf (rawFile fs) v) = Done hh)
            venues results.
Proof.
  induction venues as [|v venues IH].
  - exists []. split; [reflexivity | constructor].
  - destruct IH as (results & E & Hall). cbn [extractAll].
    fold (rawTextOf (rawFile fs) v).
    destruct (extractHappyHourInfo_returns (rawTextOf (rawFile fs) v)) as (hh & Ehh & _).
    rewrite Ehh, E. cbn [andThen]. eexists. split; [reflexivity|].
    constructor; [|exact Hall]. cbn. split; [reflexivity|]. now exists hh.
Qed.

Lemma scraperMain_ids scrape ts : NoDup (map id (scraperMain scrape ts)).
Proof.
  unfold scraperMain. destruct scrape as [scraped|]; [|apply getFallbackVenues_ids].
  destruct (Nat.leb 10 (length scraped)); [|apply getFallbackVenues_ids].
  apply dedupFilter_ids.
Qed.

Lemma venueTextOf_noWebsite hostname w k v :
  noWebsite v -> venueTextOf hostname w k v = noWebsiteText v.
Proof. unfold venueTextOf. now intros [-> | ->]. Qed.

Lemma Forall2_impl_In (A B : Type) (P Q : A -> B -> Prop) : forall l1 l2,
  (forall a b, In a l1 -> P a b -> Q a b) -> Forall2 P l1 l2 -> Forall2 Q l1 l2.
Proof.
  intros l1 l2 HPQ H. induction H as [|a b l1 l2 Hab H IH]; constructor.
  - apply HPQ; [now left | exact Hab].
  - apply IH. intros a' b' Ha'. apply HPQ. now right.
Qed.

Lemma crawl_then_extract hostname w venues dir :
  NoDup (map id venues) ->
  exists dir' results,
    crawlerMain hostname w (mkFiles (Some venues) dir) = Some dir' /\
    main (mkFiles (Some venues) dir') = Done (Wrote results) /\
    Forall2 (fun v r => info_id r = id v /\
                        (noWebsite v \/ launches w = false ->
                         happy_hour r = Some allUnknown))
            venues results.
Proof.
  intros Hnd.
  assert (Hkey : exists dir',
    crawlerMain hostname w (mkFiles (Some venues) dir) = Some dir' /\
    forall v, In v venues -> noWebsite v \/ launches w = false ->
      extractHappyHourInfo (rawTextOf dir' v) = Done allUnknown).
  { destruct (launches w) eqn:El.
    - unfold crawlerMain. cbn [venuesFile rawFile]. rewrite El.
      destruct (crawlFrom hostname w 0 dir venues) as [dir' | dir'] eqn:E.
      + exists dir'. split; [reflexivity|]. intros v Hv [Hno | Hl]; [|discriminate].
        apply crawlFrom_returned in E. destruct E as (_ & _ & Hval).
        apply In_nth_error in Hv. destruct Hv as (k & Ek).
        unfold rawTextOf. rewrite (Hval Hnd k v Ek), venueTextOf_noWebsite by exact Hno.
        exact (proj1 (sentinel_texts v)).
      + eexists. split; [reflexivity|]. intros v Hv _.
        unfold rawTextOf. rewrite generateFallbackRawFiles_written by assumption.
        exact (proj2 (sentinel_texts v)).
    - unfold crawlerMain. cbn [venuesFile rawFile]. rewrite El.
      eexists. split; [reflexivity|]. intros v Hv _.
      unfold rawTextOf. rewrite generateFallbackRawFiles_written by assumption.
      exact (proj2 (sentinel_texts v)). }
  destruct Hkey as (dir' & E & Hall). exists dir'.
  destruct (extractAll_records (mkFiles (Some venues) dir') venues) as (results & Er & Hrec).
  exists results. split; [exact E|]. unfold main. cbn [venuesFile]. rewrite Er.
  split; [reflexivity|]. cbn [rawFile] in Hrec.
  eapply Forall2_impl_In; [|exact Hrec].
  intros v r Hv (Hid & hh & Ehh & Ex). split; [exact Hid|].
  intros Hcase. rewrite Ehh. f_equal.
  rewrite (Hall v Hv Hcase) in Ex. congruence.
Qed.

(** The three stages in a row: whatever the scrape gave and whatever
    the browser of the crawler does, the extractor writes one record per
    venue of venues.json, and the record of a venue without a website
    has all its fields unknown; so has every record when the browser of
    the crawler cannot be launched. *)
Theorem pipeline_unknown_without_website hostname w scrape ts dir :
  exists dir' results,
    crawlerMain hostname w (mkFiles (Some (scraperMain scrape ts)) dir) = Some dir' /\
    main (mkFiles (Some (scraperMain scrape ts)) dir') = Done (Wrote results) /\
    Forall2 (fun v r => info_id r = id v /\
                        (noWebsite v \/ launches w = false ->
                         happy_hour r = Some allUnknown))
            (scraperMain scrape ts) results.
Proof. apply crawl_then_extract, scraperMain_ids. Qed.

Lemma crawlerMain_one_file_per_venue_witness :
  exists dir',
    crawlerMain (fun _ => None)
      (mkChromium true (fun k => mkSession true (Failed (str "timeout")) (fun _ => Failed [])
                                           (Nat.eqb k 0)))
      (mkFiles (Some [mkVenue (str "linger") (str "Linger") (str "2030 W 30th Ave")
                              (str "LoHi") (Some (str "https://lingerdenver.com")) (str "t");
                      mkVenue (str "retro-room") (str "Retro Room") (str "1801 Wynkoop St")
                              (str "LoDo") (Some (str "https://retroroom.com")) (str "t")])
               (fun _ => None)) = Some dir' /\
    (forall v,
       In v [mkVenue (str "linger") (str "Linger") (str "2030 W 30th Ave")
                     (str "LoHi") (Some (str "https://lingerdenver.com")) (str "t");
             mkVenue (str "retro-room") (str "Retro Room") (str "1801 Wynkoop St")
                     (str "LoDo") (Some (str "https://retroroom.com")) (str "t")] ->
       dir' (id v ++ str ".txt") <> None) /\
    (forall f,
       (forall v,
          In v [mkVenue (str "linger") (str "Linger") (str "2030 W 30th Ave")
                        (str "LoHi") (Some (str "https://lingerdenver.com")) (str "t");
                mkVenue (str "retro-room") (str "Retro Room") (str "1801 Wynkoop St")
                        (str "LoDo") (Some (str "https://retroroom.com")) (str "t")] ->
          f <> id v ++ str ".txt") ->
       dir' f = None).
Proof.
  apply (@crawlerMain_one_file_per_venue (fun _ => None)
           (mkChromium true (fun k => mkSession true (Failed (str "timeout"))
                                                (fun _ => Failed []) (Nat.eqb k 0)))
           _ (fun _ => None)).
  unfold slugIds. repeat constructor.
Defined.


Lemma crawlerMain_crawled_witness :
  exists dir',
    crawlerMain (fun _ => None)
      (mkChromium true (fun _ => mkSession true (Failed (str "timeout")) (fun _ => Failed [])
                                           true))
      (mkFiles (Some [mkVenue (str "linger") (str "Linger") (str "2030 W 30th Ave")
                              (str "LoHi") (Some (str "https://lingerdenver.com")) (str "t");
                      mkVenue (str "retro-room") (str "Retro Room") (str "1801 Wynkoop St")
                              (str "LoDo") None (str "t")])
               (fun _ => None)) = Some dir' /\
    forall k v,
      nth_error [mkVenue (str "linger") (str "Linger") (str "2030 W 30th Ave")
                         (str "LoHi") (Some (str "https://lingerdenver.com")) (str "t");
                 mkVenue (str "retro-room") (str "Retro Room") (str "1801 Wynkoop St")
                         (str "LoDo") None (str "t")] k = Some v ->
      exists content,
        dir' (id v ++ str ".txt") = Some content /\
        rawFileIs (fun _ => None)
          (mkSession true (Failed (str "timeout")) (fun _ => Failed []) true) v content.
Proof.
  apply (@crawlerMain_crawled (fun _ => None)
           (mkChromium true (fun _ => mkSession true (Failed (str "timeout"))
                                                (fun _ => Failed []) true))).
  - unfold slugIds. repeat constructor.
  - cbn. repeat constructor; cbn; intuition discriminate.
  - reflexivity.
  - intros k v _ [_ [H | H]]; discriminate.
Defined.

(** ** crawler.js: which links are followed *)

Lemma interesting_spec a : interesting a = true <-> mentionsKeyword a.
Proof.
  unfold interesting, mentionsKeyword. rewrite existsb_exists. split.
  - intros (kw & Hin & H). exists kw. split; [exact Hin|].
    apply orb_true_iff in H. now rewrite <- !includes_spec.
  - intros (kw & Hin & H). exists kw. split; [exact Hin|].
    apply orb_true_iff. now rewrite !includes_spec.
Qed.

Lemma sameSite_spec (hostname : jsstring -> option jsstring) base link :
  sameSite hostname base link = true <-> onSite hostname base link.
Proof.
  unfold sameSite, onSite. destruct (hostname link) as [host|].
  - rewrite orb_true_iff, jsstring_eqb_eq, endsWith_spec. split.
    + intros H. exists host. now split.
    + intros (h & E & H). inversion E; subst. exact H.
  - split; [discriminate | intros (h & E & _); discriminate].
Qed.

Lemma increasing_snoc l n : increasing l -> Forall (fun p => p < n) l -> increasing (l ++ [n]).
Proof.
  induction l as [|p l IH]; intros Hi Hn; cbn [app increasing]; [now split|].
  destruct Hi as [Hp Hi]. inversion Hn; subst. split.
  - apply Forall_app. split; [exact Hp | now repeat constructor].
  - now apply IH.
Qed.

Lemma increasing_app l1 l2 :
  increasing (l1 ++ l2) ->
  increasing l1 /\ forall p q, In p l1 -> In q l2 -> p < q.
Proof.
  induction l1 as [|a l1 IH]; cbn [app increasing]; intros H.
  - split; [exact I | intros p q []].
  - destruct H as [Ha H]. apply IH in H. destruct H as [Hi Hlt].
    apply Forall_app in Ha. destruct Ha as [Ha1 Ha2]. split; [now split|].
    intros p q [<- | Hp] Hq.
    + rewrite Forall_forall in Ha2. now apply Ha2.
    + now apply Hlt.
Qed.

Lemma firstAnchorAt_snoc anchors a i link :
  i < length anchors ->
  (firstAnchorAt (anchors ++ [a]) i link <-> firstAnchorAt anchors i link).
Proof.
  intros Hi. unfold firstAnchorAt. rewrite nth_error_app1 by exact Hi.
  split; intros [H1 H2]; (split; [exact H1|]); intros j a' Hj E.
  - apply (H2 j a' Hj). rewrite nth_error_app1 by lia. exact E.
  - rewrite nth_error_app1 in E by lia. now apply (H2 j a' Hj).
Qed.

Lemma firstAnchorAt_bound anchors i link : firstAnchorAt anchors i link -> i < length anchors.
Proof.
  intros [(a & E & _) _]. apply nth_error_Some. now rewrite E.
Qed.

Lemma firstAnchorAt_unique anchors i j link :
  firstAnchorAt anchors i link -> firstAnchorAt anchors j link -> i = j.
Proof.
  intros [(a & Ea & Ha & Ka) Hi] [(b & Eb & Hb & Kb) Hj].
  destruct (Nat.lt_trichotomy i j) as [H | [H | H]]; [|exact H|].
  - exfalso. exact (Hj i a H Ea Ka Ha).
  - exfalso. exact (Hi j b H Eb Kb Hb).
Qed.

(** The links with a keyword seen so far. *)
Lemma seen_spec anchors link :
  In link (set_of_list (map href (filter interesting anchors))) <->
  exists j a, nth_error anchors j = Some a /\ mentionsKeyword a /\ href a = link.
Proof.
  unfold set_of_list. rewrite fold_set_add_In, in_map_iff. split.
  - intros [[] | (a & E & H)]. apply filter_In in H. destruct H as [Hin Hk].
    apply In_nth_error in Hin. destruct Hin as (j & Ej).
    exists j, a. split; [exact Ej|]. split; [now apply interesting_spec | exact E].
  - intros (j & a & Ej & Hk & E). right. exists a. split; [exact E|].
    apply filter_In. split; [now apply (nth_error_In _ j) | now apply interesting_spec].
Qed.

Lemma set_of_list_snoc xs x : set_of_list (xs ++ [x]) = set_add (set_of_list xs) x.
Proof. unfold set_of_list. now rewrite fold_left_app. Qed.

Section RelevantLinks.

Variable hostname : jsstring -> option jsstring.
Variable base : jsstring.

(** The links of the site among the different links with a keyword, for
    the anchors read so far. *)
Lemma siteLinks_positions anchors :
  exists positions,
    Forall2 (firstAnchorAt anchors) positions
            (filter (sameSite hostname base)
                    (set_of_list (map href (filter interesting anchors)))) /\
    increasing positions /\
    Forall (fun p => p < length anchors) positions /\
    (forall i link,
       firstAnchorAt anchors i link -> onSite hostname base link ->
       In link (filter (sameSite hostname base)
                       (set_of_list (map href (filter interesting anchors))))).
Proof.
  induction anchors as [|a anchors IH] using rev_ind.
  - exists []. cbn. repeat split; try constructor.
    intros i link [(a & E & _) _]. now destruct i.
  - destruct IH as (positions & Hpos & Hinc & Hlt & Hall).
    assert (Hold : Forall2 (firstAnchorAt (anchors ++ [a])) positions
                     (filter (sameSite hostname base)
                             (set_of_list (map href (filter interesting anchors))))).
    { clear Hinc Hall. induction Hpos as [|p l ps ls Hp Hps IHp]; constructor.
      - inversion Hlt; subst. now apply firstAnchorAt_snoc.
      - inversion Hlt; subst. now apply IHp. }
    assert (Hlt' : Forall (fun p => p < length (anchors ++ [a])) positions).
    { refine (Forall_impl _ _ Hlt). cbv beta. intros p Hp. rewrite length_app. cbn [length]. lia. }
    assert (Hearlier : forall i link,
              firstAnchorAt (anchors ++ [a]) i link -> i < length anchors ->
              onSite hostname base link ->
              In link (filter (sameSite hostname base)
                              (set_of_list (map href (filter interesting anchors))))).
    { intros i link Hf Hi Hs. apply (Hall i link); [|exact Hs].
      now apply (@firstAnchorAt_snoc anchors a i link Hi). }
    assert (Hlast : forall i link,
              firstAnchorAt (anchors ++ [a]) i link -> ~ i < length anchors ->
              i = length anchors /\ href a = link /\ mentionsKeyword a /\
              ~ In link (set_of_list (map href (filter interesting anchors)))).
    { intros i link Hf Hi. pose proof (firstAnchorAt_bound Hf) as Hb.
      rewrite length_app in Hb. cbn [length] in Hb. assert (i = length anchors) by lia. subst i.
      destruct Hf as [(a' & E & Ha & Hk) Hfirst].
      rewrite nth_error_app2, Nat.sub_diag in E by lia. cbn in E. inversion E; subst a'.
      repeat split; try assumption.
      intros Hseen. apply seen_spec in Hseen. destruct Hseen as (j & b & Ej & Hkb & Eb).
      assert (Hj : j < length anchors) by (apply nth_error_Some; now rewrite Ej).
      apply (Hfirst j b Hj); [|exact Hkb | exact Eb].
      now rewrite nth_error_app1. }
    rewrite filter_app. cbn [filter].
    destruct (interesting a) eqn:Ek.
    2: { rewrite app_nil_r.
         exists positions. repeat split; try assumption.
         intros i link Hf Hs.
         destruct (Nat.lt_ge_cases i (length anchors)) as [Hi | Hi];
           [now apply (Hearlier i link)|].
         destruct (Hlast i link Hf ltac:(lia)) as (_ & _ & Hk & _).
         apply interesting_spec in Hk. congruence. }
    rewrite map_app. cbn [map]. rewrite set_of_list_snoc. unfold set_add.
    destruct (set_has (set_of_list (map href (filter interesting anchors))) (href a)) eqn:Eh.
    { exists positions. repeat split; try assumption.
      intros i link Hf Hs.
      destruct (Nat.lt_ge_cases i (length anchors)) as [Hi | Hi];
        [now apply (Hearlier i link)|].
      destruct (Hlast i link Hf ltac:(lia)) as (_ & <- & _ & Hn).
      exfalso. apply Hn. now apply set_has_In. }
    rewrite filter_app. cbn [filter].
    destruct (sameSite hostname base (href a)) eqn:Es.
    + exists (positions ++ [length anchors]). repeat split.
      * apply Forall2_app; [exact Hold|]. constructor; [|constructor]. split.
        -- exists a. rewrite nth_error_app2, Nat.sub_diag by lia.
           repeat split. now apply interesting_spec.
        -- intros j b Hj Ej Hkb Eb.
           assert (Hn : ~ In (href a) (set_of_list (map href (filter interesting anchors)))).
           { intros Hin. apply set_has_In in Hin. congruence. }
           apply Hn. apply seen_spec. exists j, b. rewrite nth_error_app1 in Ej by lia.
           now repeat split.
      * now apply increasing_snoc.
      * apply Forall_app. split; [exact Hlt'|]. constructor; [|constructor].
        rewrite length_app. cbn [length]. lia.
      * intros i link Hf Hs. apply in_or_app.
        destruct (Nat.lt_ge_cases i (length anchors)) as [Hi | Hi];
          [left; now apply (Hearlier i link)|].
        destruct (Hlast i link Hf ltac:(lia)) as (_ & <- & _ & _). right. now left.
    + rewrite app_nil_r. exists positions. repeat split; try assumption.
      intros i link Hf Hs.
      destruct (Nat.lt_ge_cases i (length anchors)) as [Hi | Hi];
        [now apply (Hearlier i link)|].
      destruct (Hlast i link Hf ltac:(lia)) as (_ & <- & _ & _).
      apply sameSite_spec in Hs. congruence.
Qed.

End RelevantLinks.

Lemma Forall2_firstn (A B : Type) (R : A -> B -> Prop) n : forall l1 l2,
  Forall2 R l1 l2 -> Forall2 R (firstn n l1) (firstn n l2).
Proof.
  induction n as [|n IH]; intros l1 l2 H; [constructor|].
  destruct H; cbn [firstn]; constructor; [assumption | now apply IH].
Qed.

Lemma Forall2_skipn (A B : Type) (R : A -> B -> Prop) n : forall l1 l2,
  Forall2 R l1 l2 -> Forall2 R (skipn n l1) (skipn n l2).
Proof.
  induction n as [|n IH]; intros l1 l2 H; [exact H|].
  destruct H; cbn [skipn]; [constructor | now apply IH].
Qed.

Lemma Forall2_In_r (A B : Type) (R : A -> B -> Prop) l1 l2 y :
  Forall2 R l1 l2 -> In y l2 -> exists x, In x l1 /\ R x y.
Proof.
  induction 1 as [|a b l1 l2 Hab H IH]; intros Hin; [contradiction|].
  destruct Hin as [<- | Hin].
  - exists a. split; [now left | exact Hab].
  - destruct (IH Hin) as (x & Hx & Hr). exists x. split; [now right | exact Hr].
Qed.

(** What [findRelevantLinks] returns.  When the page cannot be read or
    the address of the site is no URL, nothing.  Else take the anchors
    whose address or trimmed text holds, in lower case, one of the nine
    keywords, and of these the first anchor for each address; the result
    lists the addresses of those that are on the site (host of the site
    or a subdomain), in the order of these first anchors in the page, and
    stops after five: an address of this kind that is not in the result
    comes after five others. *)
Theorem findRelevantLinks_relevant (hostname : jsstring -> option jsstring) page baseUrl :
  (page = None \/ hostname baseUrl = None -> findRelevantLinks hostname page baseUrl = []) /\
  (forall anchors base,
     page = Some anchors -> hostname baseUrl = Some base ->
     exists positions,
       Forall2 (firstAnchorAt anchors) positions (findRelevantLinks hostname page baseUrl) /\
       increasing positions /\
       Forall (onSite hostname base) (findRelevantLinks hostname page baseUrl) /\
       (forall i link,
          firstAnchorAt anchors i link -> onSite hostname base link ->
          In link (findRelevantLinks hostname page baseUrl) \/
          (length (findRelevantLinks hostname page baseUrl) = 5 /\
           Forall (fun p => p < i) positions))).
Proof.
  split.
  - unfold findRelevantLinks. intros [-> | H]; [reflexivity|].
    destruct page; [|reflexivity]. now rewrite H.
  - intros anchors base -> Eb. unfold findRelevantLinks. rewrite Eb.
    destruct (siteLinks_positions hostname base anchors) as (positions & Hpos & Hinc & _ & Hall).
    set (found := filter (sameSite hostname base)
                         (set_of_list (map href (filter interesting anchors)))) in *.
    unfold MAX_PAGES_PER_VENUE.
    exists (firstn 5 positions).
    pose proof (firstn_skipn 5 positions) as Ep.
    pose proof (firstn_skipn 5 found) as Ef.
    rewrite <- Ep in Hinc. apply increasing_app in Hinc. destruct Hinc as [Hinc Hlt].
    repeat split.
    + now apply Forall2_firstn.
    + exact Hinc.
    + apply Forall_forall. intros link Hin. apply firstn_In in Hin.
      apply filter_In in Hin. now apply sameSite_spec.
    + intros i link Hf Hs. specialize (Hall i link Hf Hs).
      rewrite <- Ef in Hall. apply in_app_or in Hall. destruct Hall as [Hin | Hin];
        [now left | right].
      split.
      * destruct (skipn 5 found) eqn:Esk; [contradiction|].
        rewrite length_firstn. apply Nat.min_l.
        destruct (Nat.le_gt_cases 5 (length found)) as [H | H]; [exact H|].
        rewrite skipn_all2 in Esk by lia. discriminate.
      * destruct (@Forall2_In_r _ _ _ _ _ link (Forall2_skipn 5 Hpos) Hin) as (p & Hp & Hfp).
        assert (p = i) by (eapply firstAnchorAt_unique; eassumption). subst p.
        apply Forall_forall. intros q Hq. now apply Hlt.
Qed.

(** ** [trim] *)

Lemma trimStart_startsNonSpace s : startsNonSpace (trimStart s).
Proof.
  induction s as [|c s IH]; [exact I|]. cbn [trimStart].
  destruct (isWhiteSpace c) eqn:E; [exact IH | exact E].
Qed.

Lemma trimStart_fixed s : startsNonSpace s -> trimStart s = s.
Proof. destruct s as [|c s]; [reflexivity|]. cbn. now intros ->. Qed.

Lemma trimStart_snoc l c :
  trimStart (l ++ [c]) =
  match trimStart l with
  | [] => if isWhiteSpace c then [] else [c]
  | t => t ++ [c]
  end.
Proof.
  induction l as [|a l IH]; [reflexivity|]. cbn [app trimStart].
  destruct (isWhiteSpace a); [exact IH | reflexivity].
Qed.

(** [trimEnd], read from the front of the string. *)
Lemma trimEnd_cons c s :
  trimEnd (c :: s) =
  match trimEnd s with
  | [] => if isWhiteSpace c then [] else [c]
  | t => c :: t
  end.
Proof.
  unfold trimEnd. cbn [rev]. rewrite trimStart_snoc.
  destruct (trimStart (rev s)) as [|a t] eqn:E; [destruct (isWhiteSpace c); reflexivity|].
  rewrite rev_app_distr. cbn [rev app].
  destruct (rev t ++ [a]) eqn:E'; [|reflexivity].
  apply (f_equal (@length _)) in E'. rewrite length_app in E'. cbn in E'. lia.
Qed.

Lemma trimEnd_nil : trimEnd [] = [].
Proof. reflexivity. Qed.

Lemma trimEnd_idem s : trimEnd (trimEnd s) = trimEnd s.
Proof.
  induction s as [|c s IH]; [reflexivity|]. rewrite trimEnd_cons.
  destruct (trimEnd s) as [|a t] eqn:E.
  - destruct (isWhiteSpace c) eqn:Ec; [reflexivity|].
    rewrite trimEnd_cons, trimEnd_nil, Ec. reflexivity.
  - rewrite trimEnd_cons, IH. reflexivity.
Qed.

Lemma trimEnd_head c s :
  isWhiteSpace c = false -> exists t, trimEnd (c :: s) = c :: t.
Proof.
  intros Ec. rewrite trimEnd_cons. destruct (trimEnd s) as [|a t].
  - rewrite Ec. now exists [].
  - now exists (a :: t).
Qed.

Lemma trimEnd_startsNonSpace s : startsNonSpace s -> startsNonSpace (trimEnd s).
Proof.
  destruct s as [|c s]; [intros _; exact I|]. cbn [startsNonSpace]. intros Ec.
  destruct (@trimEnd_head c s Ec) as (t & ->). exact Ec.
Qed.

Lemma trim_idem s : trim (trim s) = trim s.
Proof.
  unfold trim. rewrite (trimStart_fixed (trimEnd (trimStart s))).
  - apply trimEnd_idem.
  - apply trimEnd_startsNonSpace, trimStart_startsNonSpace.
Qed.

Lemma trim_head c s : isWhiteSpace c = false -> exists t, trim (c :: s) = c :: t.
Proof.
  intros Ec. unfold trim. cbn [trimStart]. rewrite Ec. now apply trimEnd_head.
Qed.

Lemma trimStart_contains s : exists a, s = a ++ trimStart s.
Proof.
  induction s as [|c s (a & IH)]; [now exists []|]. cbn [trimStart].
  destruct (isWhiteSpace c); [|now exists []].
  exists (c :: a). cbn. now rewrite <- IH.
Qed.

Lemma trimEnd_contains s : exists b, s = trimEnd s ++ b.
Proof.
  induction s as [|c s (b & IH)]; [now exists []|]. rewrite trimEnd_cons.
  destruct (trimEnd s) as [|a t].
  - destruct (isWhiteSpace c); [exists (c :: s) | exists s]; reflexivity.
  - exists b. cbn in *. now rewrite <- IH.
Qed.

Lemma trim_contains s : contains s (trim s).
Proof.
  destruct (trimStart_contains s) as (a & Ha).
  destruct (trimEnd_contains (trimStart s)) as (b & Hb).
  exists a, b. unfold trim. now rewrite <- Hb.
Qed.

Lemma isWhiteSpace_spec c : isWhiteSpace c = true <-> whiteSpaceUnit c.
Proof.
  unfold isWhiteSpace, whiteSpaceUnit, in_range.
  rewrite !orb_true_iff, !andb_true_iff, !N.leb_le, !N.eqb_eq. tauto.
Qed.

Lemma isWhiteSpace_false c : ~ whiteSpaceUnit c -> isWhiteSpace c = false.
Proof.
  intros H. destruct (isWhiteSpace c) eqn:E; [|reflexivity].
  apply isWhiteSpace_spec in E. contradiction.
Qed.

Lemma in_range_false lo hi c : (c < lo \/ hi < c)%N -> in_range lo hi c = false.
Proof.
  intros H. unfold in_range. apply andb_false_iff.
  destruct H as [H | H]; [left | right]; apply N.leb_gt; exact H.
Qed.

Lemma eqb_false (a b : N) : a <> b -> N.eqb a b = false.
Proof. apply N.eqb_neq. Qed.

Lemma trimEnd_block l : forall t,
  l <> [] -> Forall (fun u => isWhiteSpace u = false) l -> trimEnd (l ++ t) = l ++ trimEnd t.
Proof.
  induction l as [|a l IH]; intros t Hne Hall; [contradiction|].
  inversion Hall as [|? ? Ha Hl]; subst. cbn [app]. rewrite trimEnd_cons.
  destruct l as [|b l].
  - cbn [app]. destruct (trimEnd t); [now rewrite Ha | reflexivity].
  - rewrite IH by (assumption || discriminate). reflexivity.
Qed.

(** ** App.jsx: the search text and the order of the filters *)

Lemma filter_ext_all (A : Type) (f g : A -> bool) l :
  (forall a, f a = g a) -> filter f l = filter g l.
Proof. intros H. apply filter_ext_in. intros a _. apply H. Qed.

Lemma satisfies_split n d s v :
  satisfies n d s v =
  satisfies n (str "All") (str "") v && satisfies (str "All") d (str "") v
  && satisfies (str "All") (str "All") s v.
Proof.
  unfold satisfies, neighborhoodMatches, dayMatches, searchMatches.
  change (jsstring_eqb (str "All") (str "All")) with true.
  change (isZero (length (trim (str "")))) with true.
  cbn [orb andb]. now rewrite !andb_true_r.
Qed.

(** The three filters can be applied one after the other: filtering by
    neighborhood, then by day, then by search text gives the list that
    the three filters give together. *)
Theorem filtered_one_by_one data n d s :
  filtered (filtered (filtered data n (str "All") (str "")) (str "All") d (str ""))
           (str "All") (str "All") s =
  filtered data n d s.
Proof.
  unfold filtered. induction data as [|v data IH]; [reflexivity|].
  cbn [filter]. rewrite (keeps_satisfies n d s v), (satisfies_split n d s v).
  rewrite <- (keeps_satisfies n (str "All") (str "") v).
  destruct (keeps n (str "All") (str "") v); cbn [andb filter]; [|exact IH].
  rewrite <- (keeps_satisfies (str "All") d (str "") v).
  destruct (keeps (str "All") d (str "") v); cbn [andb filter]; [|exact IH].
  rewrite <- (keeps_satisfies (str "All") (str "All") s v).
  destruct (keeps (str "All") (str "All") s v); cbn [andb filter]; [|exact IH].
  now rewrite IH.
Qed.

(** ** VenueCard.jsx and FilterBar.jsx *)

Lemma DAYS_same d : In d DAYS_OF_WEEK -> In d DAYS.
Proof.
  intros H. cbn in H. cbn.
  repeat (destruct H as [H | H]; [subst; tauto|]). contradiction.
Qed.

Lemma DAYS_not_All d : In d DAYS -> jsstring_eqb d (str "All") = false.
Proof.
  intros H. cbn in H.
  repeat (destruct H as [H | H]; [subst; reflexivity|]). contradiction.
Qed.

(** A record that the extractor made has its happy hour shown on its
    card exactly when its days are not unknown, whatever its times and
    deals are; and then the record is listed for at least one of the
    days the day filter offers. *)
Theorem hasHappyHour_extracted rawText i n a nb w :
  exists hh,
    extractHappyHourInfo rawText = Done hh /\
    (hasHappyHour (mkVenueInfo i n a nb w (Some hh)) = true <-> days hh <> unknown) /\
    (days hh <> unknown ->
     exists day, In day DAYS /\
                 keeps (str "All") day (str "") (mkVenueInfo i n a nb w (Some hh)) = true).
Proof.
  destruct (extractHappyHourInfo_returns rawText) as (hh & E & H).
  exists hh. split; [exact E|].
  unfold hasHappyHour. cbn [happy_hour].
  destruct H as [H | (l & H & Hne & Hnd & Hall)]; rewrite H.
  - split; [split; [discriminate | intros C; now contradiction C]|].
    intros C. now contradiction C.
  - destruct l as [|d l]; [contradiction|]. split.
    + split; [discriminate | reflexivity].
    + intros _. exists d. inversion Hall as [|? ? Hd _]; subst.
      split; [now apply DAYS_same|].
      unfold keeps. cbn [happy_hour info_neighborhood info_name].
      rewrite H. change (jsstring_eqb (str "All") (str "All")) with true.
      rewrite (DAYS_not_All (DAYS_same Hd)).
      cbn [array_includes existsb]. rewrite jsstring_eqb_refl. reflexivity.
Qed.

(** A record listed under a chosen day has its happy hour shown on its
    card: the day filter never lists a card that reads unknown. *)
Theorem keeps_day_hasHappyHour n day s venue :
  day <> str "All" ->
  keeps n day s venue = true ->
  hasHappyHour venue = true.
Proof.
  intros Hday H. rewrite keeps_satisfies in H. unfold satisfies in H.
  apply andb_true_iff in H. destruct H as [H _].
  apply andb_true_iff in H. destruct H as [_ H].
  unfold dayMatches in H. apply orb_true_iff in H. destruct H as [H | H].
  - apply jsstring_eqb_eq in H. contradiction.
  - unfold hasHappyHour. destruct (happy_hour venue) as [hh|]; [|discriminate].
    destruct (days hh) as [|l]; [discriminate|].
    destruct l; [discriminate | reflexivity].
Qed.

Lemma keeps_day_hasHappyHour_witness :
  hasHappyHour (mkVenueInfo (str "linger") (str "Linger") (str "2030 W 30th Ave")
                  (str "LoHi") None
                  (Some (mkHappyHour (VArray [str "Friday"]) unknown unknown unknown unknown)))
  = true.
Proof.
  apply (@keeps_day_hasHappyHour (str "LoHi") (str "Friday") (str " ling ")).
  - discriminate.
  - reflexivity.
Defined.

(** ** scraper.js: slugs of slugs, and what the scraper writes *)

Lemma collapse_slug s : forall b,
  Forall (fun c => isSlugUnit c = true) s -> hyphensApart b s -> collapse b s = s.
Proof.
  induction s as [|c s IH]; intros b Hall Hap; [reflexivity|].
  inversion Hall as [|? ? Hc Hs]; subst. cbn [collapse hyphensApart] in *.
  destruct (isSlugAlnum c) eqn:Ea.
  - rewrite (isSlugAlnum_not_hyphen c Ea) in Hap. now rewrite (IH false).
  - unfold isSlugUnit in Hc. rewrite Ea in Hc. cbn [orb] in Hc. rewrite Hc in Hap.
    destruct Hap as [-> Hap]. apply N.eqb_eq in Hc. subst c. now rewrite (IH true).
Qed.

Lemma dropEndHyphen_slug s : endsWithHyphen s = false -> dropEndHyphen s = s.
Proof.
  induction s as [|c s IH]; [reflexivity|]. cbn [endsWithHyphen dropEndHyphen].
  destruct s as [|c' s]; [now intros ->|]. intros H. now rewrite IH.
Qed.

Lemma dropEdgeHyphens_slug s :
  hyphensApart true s -> endsWithHyphen s = false -> dropEdgeHyphens s = s.
Proof.
  destruct s as [|c s]; [reflexivity|]. intros Hap Hend. unfold dropEdgeHyphens.
  cbn [hyphensApart] in Hap. destruct (N.eqb c hyphen) eqn:Ec.
  - destruct Hap as [Hap _]. discriminate.
  - destruct s as [|c' s]; [reflexivity|]. f_equal. now apply dropEndHyphen_slug.
Qed.

Lemma toLowerCase_slug s : Forall (fun c => isSlugUnit c = true) s -> toLowerCase s = s.
Proof.
  induction 1 as [|c s Hc Hs IH]; [reflexivity|].
  change (toLowerCase (c :: s)) with (lowerUnit c ++ toLowerCase s). rewrite IH.
  replace (lowerUnit c) with [c]; [reflexivity|].
  unfold isSlugUnit, isSlugAlnum, isAsciiLower, isAsciiDigit, in_range, hyphen in Hc.
  rewrite !orb_true_iff, !andb_true_iff, !N.leb_le, N.eqb_eq in Hc.
  unfold lowerUnit, isAsciiUpper.
  rewrite (@in_range_false 65 90 c) by lia.
  rewrite (@in_range_false 192 222 c) by lia. cbn [andb].
  rewrite !eqb_false by lia. reflexivity.
Qed.

(** A slug is its own slug: [slugify] applied twice gives what it gives
    applied once. *)
Theorem slugify_idempotent name : slugify (slugify name) = slugify name.
Proof.
  rewrite (slugify_collapse (slugify name)).
  rewrite (slugify_collapse name).
  destruct (collapse_shape (toLowerCase name) false) as (Hall & Hap).
  destruct (slug_shape Hall Hap) as (Hall' & Hap' & Hend').
  rewrite toLowerCase_slug by exact Hall'.
  rewrite collapse_slug by (exact Hall' || apply hyphensApart_weaken; exact Hap').
  now apply dropEdgeHyphens_slug.
Qed.

Lemma dedupFilter_first seen v venues :
  set_has seen (id v) = false -> exists rest, dedupFilter seen (v :: venues) = v :: rest.
Proof. intros H. cbn [dedupFilter]. rewrite H. eauto. Qed.

Lemma dedupFilter_length venues : forall seen,
  length (dedupFilter seen venues) <= length venues.
Proof.
  induction venues as [|v venues IH]; intros seen; [apply le_n|]. cbn [dedupFilter].
  destruct (set_has seen (id v)); cbn [length]; [specialize (IH seen) | specialize (IH (set_add seen (id v)))]; lia.
Qed.

Lemma dedupFilter_same_id i venues : forall seen,
  In i seen -> Forall (fun v => id v = i) venues -> dedupFilter seen venues = [].
Proof.
  induction venues as [|v venues IH]; intros seen Hin Hall; [reflexivity|].
  inversion Hall as [|? ? Hv Hvs]; subst. cbn [dedupFilter].
  replace (set_has seen (id v)) with true; [now apply IH|].
  symmetry. now apply set_has_In.
Qed.

Lemma dedupFilter_slugs ts scraped : forall seen,
  Forall (fun v => id v = slugify (name v) /\ scraped_at v = ts)
         (dedupFilter seen (map (venueOfScraped ts) scraped)).
Proof.
  induction scraped as [|c scraped IH]; intros seen; [constructor|].
  cbn [map dedupFilter]. destruct (set_has seen _); [apply IH|].
  constructor; [split; reflexivity | apply IH].
Qed.

(** The array that the scraper writes is never empty, each of its
    venues has the slug of its name as its identifier and the time of
    the run as its time; it is the curated list of 24 venues when the
    scrape threw or gave fewer than 10 cards, and else has at most as
    many venues as the scrape gave cards, and exactly one when all the
    cards have names of the same slug (the count of 10 is taken before
    the duplicates are dropped). *)
Theorem scraperMain_output scrape ts :
  scraperMain scrape ts <> [] /\
  Forall (fun v => id v = slugify (name v) /\ scraped_at v = ts) (scraperMain scrape ts) /\
  ((scrape = None \/ exists scraped, scrape = Some scraped /\ length scraped < 10) ->
   scraperMain scrape ts = getFallbackVenues ts /\ length (scraperMain scrape ts) = 24) /\
  (forall scraped, scrape = Some scraped -> 10 <= length scraped ->
     length (scraperMain scrape ts) <= length scraped /\
     (forall i, Forall (fun c => slugify (scraped_name c) = i) scraped ->
                length (scraperMain scrape ts) = 1)).
Proof.
  assert (Hfb : getFallbackVenues ts <> [] /\
                Forall (fun v => id v = slugify (name v) /\ scraped_at v = ts)
                       (getFallbackVenues ts) /\
                length (getFallbackVenues ts) = 24).
  { split; [discriminate|]. split; [|reflexivity].
    unfold getFallbackVenues. apply Forall_app. split; apply Forall_map, Forall_forall;
      intros [[n a] w] _; split; reflexivity. }
  destruct Hfb as (Hne & Hall & Hlen).
  unfold scraperMain. destruct scrape as [scraped|].
  - destruct (Nat.leb 10 (length scraped)) eqn:E.
    + apply Nat.leb_le in E. split; [|split; [|split]].
      * destruct scraped as [|c scraped]; [cbn in E; lia|]. cbn [map].
        destruct (@dedupFilter_first [] (venueOfScraped ts c)
                    (map (venueOfScraped ts) scraped) eq_refl) as (rest & ->).
        discriminate.
      * apply dedupFilter_slugs.
      * intros [H | (l & H & Hl)]; [discriminate|]. inversion H; subst. lia.
      * intros l H _. inversion H; subst l. clear H. split.
        -- rewrite <- (length_map (venueOfScraped ts) scraped).
           apply dedupFilter_length.
        -- intros i Hsame. destruct scraped as [|c scraped]; [cbn in E; lia|].
           inversion Hsame as [|? ? Hc Hcs]; subst. cbn [map dedupFilter set_has existsb].
           rewrite (@dedupFilter_same_id (slugify (scraped_name c))); [reflexivity| |].
           ++ unfold set_add. cbn. now left.
           ++ apply Forall_map. cbn [venueOfScraped id]. exact Hcs.
    + apply Nat.leb_gt in E. split; [exact Hne|]. split; [exact Hall|]. split.
      * intros _. now split.
      * intros l H Hl. inversion H; subst. lia.
  - split; [exact Hne|]. split; [exact Hall|]. split.
    + intros _. now split.
    + intros l H. discriminate.
Qed.

(** ** extractor.js: [normalizeDay] *)

Lemma normalizeDay_prefix s d :
  In d DAYS_OF_WEEK ->
  startsWith (trim (toLowerCase s)) (slice0 (toLowerCase d) 3) = true ->
  normalizeDay s = Some d.
Proof.
  intros Hd Hs. apply startsWith_spec in Hs. destruct Hs as (post & Hs).
  unfold normalizeDay. rewrite Hs. cbn in Hd.
  repeat (destruct Hd as [Hd | Hd]; [subst d; reflexivity|]). contradiction.
Qed.

(** [normalizeDay] looks at the first three code units of the trimmed
    lower-case text only: a text that starts with the first three
    letters of a day, in any case and with anything after them, is that
    day; a blank text is Monday; so the badge of a day on a card
    ([d.slice(0, 3)]) is read back as the day; and a day that is
    returned is one of the week whose lower-case name starts with those
    code units. *)
Theorem normalizeDay_first_three s d :
  (In d DAYS_OF_WEEK ->
   startsWith (trim (toLowerCase s)) (slice0 (toLowerCase d) 3) = true ->
   normalizeDay s = Some d) /\
  (trim (toLowerCase s) = [] -> normalizeDay s = Some (str "Monday")) /\
  (In d DAYS_OF_WEEK -> normalizeDay (dayBadge d) = Some d) /\
  (normalizeDay s = Some d ->
   In d DAYS_OF_WEEK /\
   startsWith (toLowerCase d) (slice0 (trim (toLowerCase s)) 3) = true).
Proof.
  split; [|split; [|split]].
  - apply normalizeDay_prefix.
  - intros Hs. unfold normalizeDay. now rewrite Hs.
  - intros Hd. cbn in Hd.
    repeat (destruct Hd as [Hd | Hd]; [subst d; reflexivity|]). contradiction.
  - intros H. unfold normalizeDay in H. apply find_some in H. exact H.
Qed.

(** ** What a pattern matches *)

Section RepeatMatches.

Variable ic : bool.
Variable m : Matcher.
Variable r' : regex.
Hypothesis m_matches : forall x c z,
  m x c = Some z -> exists y, c y = Some z /\ matches ic r' x y.

Lemma RepeatMatcher_matches fuel : forall min max greedy x c z,
  RepeatMatcher fuel m min max greedy (groupsOf r') x c = Some z ->
  exists y, c y = Some z /\ matches ic (Repeat r' min max greedy) x y.
Proof.
  induction fuel as [|fuel IH]; intros min max greedy x c z H; [discriminate|].
  assert (Hstay : c x = Some z ->
                  (isZero min = true \/ max = Some 0) ->
                  exists y, c y = Some z /\ matches ic (Repeat r' min max greedy) x y).
  { intros Hc Hnull. exists x. split; [exact Hc|]. now apply matches_Repeat_stop. }
  assert (Hturn : max <> Some 0 ->
                  m (clear_captures (groupsOf r') x)
                    (fun y =>
                       if isZero min && Nat.eqb (endIndex y) (endIndex x) then None
                       else RepeatMatcher fuel m (pred min) (option_map pred max) greedy
                                          (groupsOf r') y c) = Some z ->
                  exists y, c y = Some z /\ matches ic (Repeat r' min max greedy) x y).
  { intros Hmax Hm. apply m_matches in Hm. destruct Hm as (y1 & Hd & Hm1).
    destruct (isZero min && Nat.eqb (endIndex y1) (endIndex x)) eqn:Eg; [discriminate|].
    apply IH in Hd. destruct Hd as (y & Hc & Hrest).
    exists y. split; [exact Hc|].
    apply matches_Repeat_turn with (y := y1); try assumption.
    intros Hz Heq. rewrite Hz in Eg. apply Nat.eqb_eq in Heq. rewrite Heq in Eg.
    discriminate. }
  cbn [RepeatMatcher] in H.
  destruct max as [[|max]|].
  - apply Hstay; auto.
  - destruct (isZero min) eqn:Emin; cbn [negb] in H.
    + destruct greedy; cbn [negb] in H.
      * match type of H with match ?t with _ => _ end = _ => destruct t eqn:Hm end.
        -- inversion H; subst. apply Hturn; first [discriminate | exact Hm | reflexivity].
        -- apply Hstay; auto.
      * destruct (c x) eqn:Hc.
        -- inversion H; subst. apply Hstay; auto.
        -- apply Hturn; first [discriminate | exact H | reflexivity].
    + apply Hturn; first [discriminate | exact H | reflexivity].
  - destruct (isZero min) eqn:Emin; cbn [negb] in H.
    + destruct greedy; cbn [negb] in H.
      * match type of H with match ?t with _ => _ end = _ => destruct t eqn:Hm end.
        -- inversion H; subst. apply Hturn; first [discriminate | exact Hm | reflexivity].
        -- apply Hstay; auto.
      * destruct (c x) eqn:Hc.
        -- inversion H; subst. apply Hstay; auto.
        -- apply Hturn; first [discriminate | exact H | reflexivity].
    + apply Hturn; first [discriminate | exact H | reflexivity].
Qed.

End RepeatMatches.

(** When the matcher of a pattern succeeds, its continuation succeeded
    at a state that the pattern reaches from the state it started in. *)
Lemma compile_matches ic r : forall x c z,
  compile ic r x c = Some z -> exists y, c y = Some z /\ matches ic r x y.
Proof.
  induction r as [| inv rs | r1 IH1 r2 IH2 | r1 IH1 r2 IH2 | r' IH min max greedy
                 | k r' IH | | | ]; intros x c z H; cbn [compile] in H.
  - exists x. split; [exact H | constructor].
  - destruct (after x) as [|ch rest] eqn:Ea; [discriminate|].
    destruct (xorb inv (class_mem ic rs ch)) eqn:Ec; [|discriminate].
    eexists. split; [exact H|]. now constructor.
  - apply IH1 in H. destruct H as (y1 & H & H1).
    apply IH2 in H. destruct H as (y & H & H2).
    exists y. split; [exact H|]. now apply matches_Seq with (y := y1).
  - destruct (compile ic r1 x c) eqn:H1.
    + inversion H; subst. apply IH1 in H1. destruct H1 as (y & Hc & H1).
      exists y. split; [exact Hc|]. now apply matches_Alt_l.
    + apply IH2 in H. destruct H as (y & Hc & H2).
      exists y. split; [exact Hc|]. now apply matches_Alt_r.
  - eapply RepeatMatcher_matches; [exact IH | exact H].
  - apply IH in H. destruct H as (y & Hc & H).
    eexists. split; [exact Hc|]. now constructor.
  - destruct (before x) eqn:E; [|discriminate].
    exists x. split; [exact H|]. now constructor.
  - destruct (after x) eqn:E; [|discriminate].
    exists x. split; [exact H|]. now constructor.
  - destruct (xorb (wordBefore x) (wordAfter x)) eqn:E; [|discriminate].
    exists x. split; [exact H|]. now constructor.
Qed.

Lemma follows_clear ns x y : follows (clear_captures ns x) y -> follows x y.
Proof. exact (fun H => H). Qed.

Lemma follows_set n v x y : follows x y -> follows x (set_capture n v y).
Proof. exact (fun H => H). Qed.

Lemma matches_follows ic r x y : matches ic r x y -> follows x y.
Proof.
  induction 1; try apply follows_refl.
  - now apply follows_step.
  - eapply follows_trans; eassumption.
  - assumption.
  - assumption.
  - eapply follows_trans; [|eassumption]. now apply follows_clear with (ns := groupsOf r).
  - now apply follows_set.
Qed.

Lemma get_capture_clear n ns : forall caps,
  ~ In n ns ->
  get_capture n (fold_left (fun caps k => remove_capture k caps) ns caps) = get_capture n caps.
Proof.
  induction ns as [|k ns IH]; intros caps Hn; [reflexivity|]. cbn [fold_left].
  rewrite IH by (intros Hin; apply Hn; now right).
  apply get_remove_ne. intros ->. apply Hn. now left.
Qed.

(** A pattern leaves the captures of the groups it does not hold. *)
Lemma matches_frame ic r x y :
  matches ic r x y ->
  forall n, ~ In n (groupsOf r) -> get_capture n (captures y) = get_capture n (captures x).
Proof.
  induction 1; intros k Hk; try reflexivity; cbn [groupsOf] in Hk.
  - rewrite IHmatches2, IHmatches1; [reflexivity| |];
      intros Hin; apply Hk, in_or_app; [now left | now right].
  - apply IHmatches. intros Hin. apply Hk, in_or_app. now left.
  - apply IHmatches. intros Hin. apply Hk, in_or_app. now right.
  - rewrite IHmatches2, IHmatches1 by assumption.
    unfold clear_captures. cbn [captures]. now apply get_capture_clear.
  - unfold set_capture. cbn [captures get_capture].
    destruct (Nat.eqb n k) eqn:E.
    + apply Nat.eqb_eq in E. subst. exfalso. apply Hk. now left.
    + rewrite get_remove_ne.
      * apply IHmatches. intros Hin. apply Hk. now right.
      * intros ->. apply Hk. now left.
Qed.

(** The text between two states, one of which follows the other. *)
Lemma consumed_follows x y :
  follows x y -> after x = consumed x y ++ after y.
Proof.
  intros (w & Ha & _ & He). unfold consumed. rewrite He, Ha.
  replace (endIndex x + length w - endIndex x) with (length w) by lia.
  now rewrite firstn_app, Nat.sub_diag, firstn_all, firstn_O, app_nil_r.
Qed.

Lemma matches_seq_cons ic a b rest x z :
  matches ic (seq (a :: b :: rest)) x z ->
  exists y, matches ic a x y /\ matches ic (seq (b :: rest)) y z.
Proof.
  cbn [seq]. intros H. inversion H; subst. eauto.
Qed.

Lemma matchAt_matches re bef aft m :
  matchAt re bef aft = Some m ->
  exists z, matches (ignoreCase re) (pattern re) (mkState bef aft [] 0) z /\
            groups m = captures z /\ matched m = consumed (mkState bef aft [] 0) z /\
            rest_after m = after z.
Proof.
  unfold matchAt. intros H.
  destruct (compile (ignoreCase re) (pattern re) (mkState bef aft [] 0) (fun y => Some y))
    as [z|] eqn:E; [|discriminate].
  apply compile_matches in E. destruct E as (y & Ey & Hm). inversion Ey; subst y.
  exists z. inversion H; subst. cbn. auto.
Qed.

Lemma execFrom_matchAt re : forall aft bef m,
  execFrom re bef aft = Some m ->
  exists skipped aft', aft = skipped ++ aft' /\
                       matchAt re (rev skipped ++ bef) aft' = Some m.
Proof.
  induction aft as [|ch aft IH]; intros bef m H; cbn [execFrom] in H.
  - destruct (matchAt re bef []) eqn:E; [|discriminate]. inversion H; subst.
    now exists [], [].
  - destruct (matchAt re bef (ch :: aft)) eqn:E.
    + inversion H; subst. now exists [], (ch :: aft).
    + apply IH in H. destruct H as (skipped & aft' & -> & H).
      exists (ch :: skipped), aft'. split; [reflexivity|].
      cbn [rev]. now rewrite <- app_assoc.
Qed.

(** ** extractor.js: the times *)

Lemma swapCase_digit ch : isAsciiDigit (swapCase ch) = true -> isAsciiDigit ch = true.
Proof.
  unfold swapCase, isAsciiUpper, isAsciiLower, isAsciiDigit, in_range.
  destruct (N.leb_spec 65 ch), (N.leb_spec ch 90); cbn [andb].
  - rewrite !andb_true_iff, !N.leb_le. lia.
  - destruct (N.leb_spec 97 ch), (N.leb_spec ch 122); cbn [andb]; try tauto.
    rewrite !andb_true_iff, !N.leb_le. lia.
  - destruct (N.leb_spec 97 ch), (N.leb_spec ch 122); cbn [andb]; try tauto.
    rewrite !andb_true_iff, !N.leb_le. lia.
  - destruct (N.leb_spec 97 ch), (N.leb_spec ch 122); cbn [andb]; try tauto.
    rewrite !andb_true_iff, !N.leb_le. lia.
Qed.

Lemma digit_class ic ch : class_mem ic [(48, 57)]%N ch = true -> isAsciiDigit ch = true.
Proof.
  unfold class_mem, in_ranges. cbn [existsb fst snd]. rewrite !orb_false_r.
  fold (isAsciiDigit ch). fold (isAsciiDigit (swapCase ch)).
  intros H. apply orb_true_iff in H. destruct H as [H | H]; [exact H|].
  apply andb_true_iff in H. now apply swapCase_digit.
Qed.

Lemma isAsciiDigit_nonSpace d : isAsciiDigit d = true -> isWhiteSpace d = false.
Proof.
  unfold isAsciiDigit, in_range. rewrite andb_true_iff, !N.leb_le. intros H.
  apply isWhiteSpace_false. unfold whiteSpaceUnit. lia.
Qed.

(** A quantified class that must be matched once takes the code unit at
    the position. *)
Lemma matches_Repeat_first ic invert rs k max greedy x y :
  matches ic (Repeat (Chars invert rs) (S k) max greedy) x y ->
  max <> Some 0 ->
  exists ch rest, after x = ch :: rest /\ xorb invert (class_mem ic rs ch) = true /\
                  endIndex x < endIndex y.
Proof.
  intros H Hmax. inversion H; subst.
  - match goal with Hs : _ \/ _ |- _ => destruct Hs as [Hs | Hs] end;
      [discriminate | contradiction].
  - match goal with
    | H1 : matches _ (Chars _ _) _ _, H2 : matches _ (Repeat _ _ _ _) _ _ |- _ =>
        inversion H1; subst; apply matches_follows in H2;
        destruct H2 as (w & _ & _ & He)
    end.
    cbn [clear_captures after endIndex] in *.
    eexists _, _. split; [eassumption|]. split; [assumption|].
    cbn [endIndex] in He. lia.
Qed.

Lemma consumed_first x y ch rest :
  after x = ch :: rest -> endIndex x < endIndex y ->
  exists w, consumed x y = ch :: w.
Proof.
  intros Ha He. unfold consumed. rewrite Ha.
  destruct (endIndex y - endIndex x) as [|k] eqn:E; [lia|].
  cbn [firstn]. eauto.
Qed.

Lemma follows_endIndex x y : follows x y -> endIndex x <= endIndex y.
Proof. intros (w & _ & _ & He). lia. Qed.

(** The text of a clock time starts with a digit. *)
Lemma clock_first meridiem x y :
  matches true (clock meridiem) x y ->
  exists d w, isAsciiDigit d = true /\ consumed x y = d :: w.
Proof.
  unfold clock. intros H. apply matches_seq_cons in H. destruct H as (y1 & H1 & H2).
  apply matches_Repeat_first in H1; [|discriminate].
  destruct H1 as (ch & rest & Ha & Hc & He).
  apply matches_follows, follows_endIndex in H2.
  destruct (@consumed_first x y ch rest Ha) as (w & Hw); [lia|].
  exists ch, w. split; [|exact Hw]. cbn [xorb] in Hc. now apply digit_class in Hc.
Qed.

Lemma timeRange_captures meridiem x z :
  groupsOf meridiem = [] ->
  matches true (seq (timeRange meridiem)) x z ->
  startsWithDigit (get_capture 1 (captures z)) /\
  startsWithDigit (get_capture 2 (captures z)).
Proof.
  intros Hg H. unfold timeRange in H.
  apply matches_seq_cons in H. destruct H as (y1 & H1 & H).
  apply matches_seq_cons in H. destruct H as (y2 & H2 & H).
  apply matches_seq_cons in H. destruct H as (y3 & H3 & H).
  apply matches_seq_cons in H. destruct H as (y4 & H4 & H).
  cbn [seq] in H.
  assert (Hclock : groupsOf (clock meridiem) = []).
  { unfold clock. cbn. rewrite Hg. reflexivity. }
  inversion H1 as [| | | | | | |n r x0 y1' Hc1| | |]; subst.
  inversion H as [| | | | | | |n r x0 y4' Hc2| | |]; subst.
  destruct (clock_first Hc1) as (d1 & w1 & Hd1 & E1).
  destruct (clock_first Hc2) as (d2 & w2 & Hd2 & E2).
  split.
  - exists d1, w1. split; [exact Hd1|].
    unfold set_capture at 1. cbn [captures get_capture Nat.eqb].
    rewrite get_remove_ne by discriminate.
    rewrite (matches_frame Hc2) by (rewrite Hclock; intros []).
    rewrite (matches_frame H4) by (intros []).
    rewrite (matches_frame H3) by (intros []).
    rewrite (matches_frame H2) by (intros []).
    unfold set_capture. cbn [captures get_capture Nat.eqb]. now rewrite E1.
  - exists d2, w2. split; [exact Hd2|].
    unfold set_capture at 1. cbn [captures get_capture Nat.eqb]. now rewrite E2.
Qed.

(** In a match of one of the three time patterns both captures took
    part, and each starts with a digit. *)
Lemma time_pattern_captures re bef aft m :
  In re (happyHourContext :: TIME_PATTERNS) ->
  matchAt re bef aft = Some m ->
  startsWithDigit (capture m 1) /\ startsWithDigit (capture m 2).
Proof.
  intros Hre Hm. apply matchAt_matches in Hm. destruct Hm as (z & H & Hg & _).
  unfold capture. rewrite Hg. clear Hg.
  destruct Hre as [<- | [<- | [<- | []]]]; cbn [pattern ignoreCase happyHourContext] in H.
  - do 4 (apply matches_seq_cons in H; destruct H as (? & _ & H)).
    eapply (@timeRange_captures meridiemDotted); [reflexivity | exact H].
  - eapply (@timeRange_captures meridiemPlain); [reflexivity | exact H].
  - do 7 (apply matches_seq_cons in H; destruct H as (? & _ & H)).
    eapply (@timeRange_captures meridiemPlain); [reflexivity | exact H].
Qed.

Lemma replaceFirst_head re template d t :
  (forall m, matchAt re [] (d :: t) = Some m ->
             exists u, getSubstitution m (groupCount re) template = d :: u) ->
  exists t', replaceFirst re template (d :: t) = d :: t'.
Proof.
  intros Hsub. unfold replaceFirst, exec. cbn [execFrom].
  destruct (matchAt re [] (d :: t)) as [m|] eqn:Em.
  - destruct (Hsub m eq_refl) as (u & ->).
    apply matchAt_layout in Em. destruct Em as (_ & _ & ->). cbn. eauto.
  - destruct (execFrom re [d] t) as [m|] eqn:E; [|eauto].
    apply execFrom_index in E. cbn [length] in E.
    destruct (index m) as [|k]; [lia|]. cbn. eauto.
Qed.

Lemma digit_cases (P : char -> Prop) d :
  isAsciiDigit d = true -> Forall P digitUnits -> P d.
Proof.
  intros Hd Hall. apply isAsciiDigit_In in Hd.
  rewrite Forall_forall in Hall. now apply Hall.
Qed.

Lemma meridiemOnly_head d t :
  isAsciiDigit d = true ->
  exists t', replace meridiemOnly (str ":00 $1") (d :: t) = d :: t'.
Proof.
  intros Hd. unfold replace. cbn [global meridiemOnly].
  apply replaceFirst_head. intros m Hm. exfalso.
  rewrite matchAt_cannot_start in Hm; [discriminate | reflexivity |].
  apply (@digit_cases (fun d => starts true (pattern meridiemOnly) d = false) d Hd).
  repeat constructor.
Qed.

Lemma group_first ic n r rest x z ch tail :
  matches ic (Seq (Group n r) rest) x z ->
  ~ In n (groupsOf rest) ->
  after x = ch :: tail ->
  (forall y, matches ic r x y -> endIndex x < endIndex y) ->
  exists w, get_capture n (captures z) = Some (ch :: w).
Proof.
  intros H Hn Ha Hadv. inversion H as [| |r1 r2 x0 y z0 H1 H2| | | | | | | |]; subst.
  inversion H1 as [| | | | | | |n0 r0 x0 y' Hr| | |]; subst.
  destruct (@consumed_first x y' ch tail Ha (Hadv y' Hr)) as (w & Hw).
  exists w. rewrite (matches_frame H2 n Hn).
  unfold set_capture. cbn [captures get_capture]. now rewrite Nat.eqb_refl, Hw.
Qed.

Lemma digitsSpaceMeridiem_head d t :
  exists t', replace digitsSpaceMeridiem (str "$1:00 $2") (d :: t) = d :: t'.
Proof.
  unfold replace. cbn [global digitsSpaceMeridiem].
  apply replaceFirst_head. intros m Hm.
  apply matchAt_matches in Hm. destruct Hm as (z & H & Hg & _).
  cbn [pattern ignoreCase seq] in H.
  destruct (@group_first true 1 (plus digit) _ _ z d t H) as (w & Hw).
  - cbn. intros [E | []]. discriminate.
  - reflexivity.
  - intros y Hy. apply matches_Repeat_first in Hy; [|discriminate].
    now destruct Hy as (? & ? & _ & _ & He).
  - cbn. unfold capture. rewrite Hg.
    change (Pos.to_nat 1) with 1. change (Pos.to_nat 2) with 2.
    rewrite Hw. cbn. eauto.
Qed.

Lemma digitMeridiem_head d t :
  exists t', replace digitMeridiem (str "$1 $2") (d :: t) = d :: t'.
Proof.
  unfold replace. cbn [global digitMeridiem].
  apply replaceFirst_head. intros m Hm.
  apply matchAt_matches in Hm. destruct Hm as (z & H & Hg & _).
  cbn [pattern ignoreCase seq] in H.
  destruct (@group_first true 1 digit _ _ z d t H) as (w & Hw).
  - cbn. intros [E | []]. discriminate.
  - reflexivity.
  - intros y Hy. inversion Hy; subst. cbn. lia.
  - cbn. unfold capture. rewrite Hg.
    change (Pos.to_nat 1) with 1. change (Pos.to_nat 2) with 2.
    rewrite Hw. cbn. eauto.
Qed.

Lemma upperUnit_digit d : isAsciiDigit d = true -> upperUnit d = [d].
Proof.
  intros Hd. apply (@digit_cases (fun d => upperUnit d = [d]) d Hd). repeat constructor.
Qed.

(** A time that starts with a digit is normalized to a text that starts
    with that digit. *)
Lemma normalizeTime_digit d w :
  isAsciiDigit d = true -> exists t, normalizeTime (Some (d :: w)) = Some (d :: t).
Proof.
  intros Hd. unfold normalizeTime.
  destruct (@trim_head d w (isAsciiDigit_nonSpace d Hd)) as (t0 & ->).
  change (toUpperCase (d :: t0)) with (upperUnit d ++ toUpperCase t0).
  rewrite (upperUnit_digit d Hd). cbn [app].
  set (u0 := toUpperCase t0). clearbody u0.
  assert (H1 : exists t1, (if test hourMeridiem (d :: u0)
                           then replace meridiemOnly (str ":00 $1") (d :: u0)
                           else d :: u0) = d :: t1).
  { destruct (test hourMeridiem (d :: u0)); [now apply meridiemOnly_head | eauto]. }
  destruct H1 as (t1 & ->).
  assert (H2 : exists t2, (if test hourSpaceMeridiem (d :: t1)
                           then replace digitsSpaceMeridiem (str "$1:00 $2") (d :: t1)
                           else d :: t1) = d :: t2).
  { destruct (test hourSpaceMeridiem (d :: t1)); [apply digitsSpaceMeridiem_head | eauto]. }
  destruct H2 as (t2 & ->).
  destruct (digitMeridiem_head d t2) as (t3 & ->). eauto.
Qed.

Lemma normalizeTime_capture c :
  startsWithDigit c -> startsWithDigit (normalizeTime c).
Proof.
  intros (d & w & Hd & ->). destruct (@normalizeTime_digit d w Hd) as (t & ->).
  now exists d, t.
Qed.

Lemma exec_time_pattern re text m :
  In re (happyHourContext :: TIME_PATTERNS) ->
  exec re text = Some m ->
  startsWithDigit (normalizeTime (capture m 1)) /\
  startsWithDigit (normalizeTime (capture m 2)).
Proof.
  intros Hre H. apply execFrom_matchAt in H. destruct H as (skipped & aft' & _ & H).
  destruct (@time_pattern_captures re _ _ m Hre H) as (H1 & H2).
  split; now apply normalizeTime_capture.
Qed.

Lemma extractTimes_cases text :
  extractTimes text = mkTimes None None \/
  (startsWithDigit (times_start (extractTimes text)) /\
   startsWithDigit (times_end (extractTimes text))).
Proof.
  unfold extractTimes.
  destruct (exec happyHourContext text) as [m|] eqn:E0.
  { right. apply (@exec_time_pattern happyHourContext text m); [now left | exact E0]. }
  unfold TIME_PATTERNS. cbn [firstTimeRange].
  match goal with |- context [exec ?re text] => destruct (exec re text) as [m|] eqn:E1 end.
  { right. cbn [times_start times_end].
    eapply exec_time_pattern; [|exact E1]. right. now left. }
  match goal with |- context [exec ?re text] => destruct (exec re text) as [m|] eqn:E2 end.
  { right. cbn [times_start times_end].
    eapply exec_time_pattern; [|exact E2]. right. right. now left. }
  now left.
Qed.

(** The two times come together: [extractTimes] gives no time at all,
    or a start and an end, each a text that starts with a digit. *)
Theorem extractTimes_both_or_neither text :
  extractTimes text = mkTimes None None \/
  (startsWithDigit (times_start (extractTimes text)) /\
   startsWithDigit (times_end (extractTimes text))).
Proof. apply extractTimes_cases. Qed.

(** ** extractor.js: the deals *)

Lemma firstUnits_starts ic ch r : forall l,
  firstUnits r = Some l -> starts ic r ch = true ->
  exists a, In a l /\ class_mem ic [(a, a)] ch = true.
Proof.
  induction r as [| inv rs | r1 IH1 r2 IH2 | r1 IH1 r2 IH2 | r' IH min max greedy
                 | k r' IH | | | ]; intros l Hl Hs; cbn [firstUnits starts] in *;
    try discriminate.
  - destruct inv; [discriminate|]. destruct rs as [|[a b] [|? ?]]; try discriminate.
    destruct (N.eqb_spec a b); [|discriminate]. subst b. inversion Hl; subst.
    exists a. split; [now left | exact Hs].
  - destruct (nullable r1); [discriminate|]. cbn [andb] in Hs. rewrite orb_false_r in Hs.
    now apply IH1.
  - destruct (firstUnits r1) as [l1|]; [|discriminate].
    destruct (firstUnits r2) as [l2|]; [|discriminate]. inversion Hl; subst.
    apply orb_true_iff in Hs. destruct Hs as [Hs | Hs].
    + destruct (IH1 l1 eq_refl Hs) as (a & Ha & Hc). exists a. split; [|exact Hc].
      apply in_or_app. now left.
    + destruct (IH2 l2 eq_refl Hs) as (a & Ha & Hc). exists a. split; [|exact Hc].
      apply in_or_app. now right.
  - now apply IH.
Qed.

Lemma printable_class ic a ch :
  isPrintable a = true -> class_mem ic [(a, a)] ch = true -> isWhiteSpace ch = false.
Proof.
  unfold isPrintable, class_mem, in_ranges, in_range. cbn [existsb fst snd].
  rewrite !orb_false_r. rewrite andb_true_iff, !N.leb_le. intros Ha H.
  apply isWhiteSpace_false. unfold whiteSpaceUnit.
  apply orb_true_iff in H. destruct H as [H | H].
  - rewrite andb_true_iff, !N.leb_le in H. lia.
  - apply andb_true_iff in H. destruct H as [_ H].
    rewrite andb_true_iff, !N.leb_le in H.
    unfold swapCase, isAsciiUpper, isAsciiLower, in_range in H.
    destruct (N.leb_spec 65 ch), (N.leb_spec ch 90); cbn [andb] in H; try lia;
      destruct (N.leb_spec 97 ch), (N.leb_spec ch 122); cbn [andb] in H; lia.
Qed.

Lemma contains_trans a b c : contains a b -> contains b c -> contains a c.
Proof.
  intros (p1 & q1 & ->) (p2 & q2 & ->). exists (p1 ++ p2), (q2 ++ q1).
  now rewrite <- !app_assoc.
Qed.

(** What a pattern of the deals matches gives a phrase of the text, once
    trimmed. *)
Lemma dealPattern_phrase re bef aft m text :
  dealPattern re = true ->
  matchAt re bef aft = Some m ->
  contains text (matched m) ->
  phraseOf text (trim (matched m)).
Proof.
  intros Hre Hm Hin. unfold dealPattern in Hre. apply andb_true_iff in Hre.
  destruct Hre as [Hnul Hfirst]. apply negb_true_iff in Hnul.
  destruct (firstUnits (pattern re)) as [l|] eqn:El; [|discriminate].
  pose proof (@matchAt_sound _ _ _ _ Hm) as (_ & Hlt & _). specialize (Hlt Hnul).
  pose proof (@matchAt_layout _ _ _ _ Hm) as (Ha & _ & _).
  destruct (matched m) as [|ch w] eqn:Em.
  { rewrite Ha in Hlt. cbn in Hlt. lia. }
  assert (Hs : starts (ignoreCase re) (pattern re) ch = true).
  { destruct (starts (ignoreCase re) (pattern re) ch) eqn:Es; [reflexivity|].
    rewrite Ha in Hm. cbn [app] in Hm.
    rewrite matchAt_cannot_start in Hm by assumption. discriminate. }
  destruct (@firstUnits_starts _ _ _ _ El Hs) as (a & Hal & Hc).
  rewrite forallb_forall in Hfirst.
  pose proof (@printable_class _ _ _ (Hfirst a Hal) Hc) as Hch.
  destruct (@trim_head ch w Hch) as (t & Et).
  split; [rewrite Et; discriminate|]. split; [apply trim_idem|].
  eapply contains_trans; [exact Hin | apply trim_contains].
Qed.

Lemma execLoop_matched re : forall fuel bef aft ms,
  execLoop fuel re bef aft = Done ms ->
  Forall (fun m => contains (rev bef ++ aft) (matched m) /\
                   exists bef' aft', matchAt re bef' aft' = Some m) ms.
Proof.
  induction fuel as [|fuel IH]; intros bef aft ms H; cbn [execLoop] in H.
  - destruct (execFrom re bef aft) as [m|]; [|inversion H; constructor].
    destruct (Nat.ltb _ _); discriminate.
  - destruct (execFrom re bef aft) as [m|] eqn:E; [|inversion H; constructor].
    destruct (Nat.ltb _ _); [|discriminate].
    destruct (execLoop fuel re (rest_before m) (rest_after m)) as [ms'| |] eqn:E';
      cbn [andThen] in H; try discriminate.
    inversion H; subst ms. clear H.
    apply execFrom_matchAt in E. destruct E as (skipped & aft' & -> & Hm).
    pose proof (@matchAt_layout _ _ _ _ Hm) as (Ha & Hb & _).
    constructor.
    + split; [|eauto]. exists (rev bef ++ skipped), (rest_after m).
      rewrite Ha. now rewrite <- !app_assoc.
    + apply IH in E'. rewrite Hb in E'.
      rewrite !rev_app_distr, !rev_involutive, <- !app_assoc in E'.
      rewrite Ha. exact E'.
Qed.

Lemma dealSet_add text deals d :
  dealSet text deals -> phraseOf text d -> dealSet text (set_add deals d).
Proof.
  intros (Hnd & Hall) Hd. split; [now apply set_add_NoDup|].
  unfold set_add. destruct (set_has deals d); [exact Hall|].
  apply Forall_app. split; [exact Hall | now constructor].
Qed.

Lemma dealSet_fold re text ms : forall deals,
  dealPattern re = true ->
  Forall (fun m => contains text (matched m) /\
                   exists bef' aft', matchAt re bef' aft' = Some m) ms ->
  dealSet text deals ->
  dealSet text (fold_left (fun deals m => set_add deals (trim (matched m))) ms deals).
Proof.
  induction ms as [|m ms IH]; intros deals Hre Hms Hd; [exact Hd|].
  inversion Hms as [|? ? (Hin & bef' & aft' & Hm) Hms']; subst. cbn [fold_left].
  apply IH; [exact Hre | exact Hms'|].
  apply dealSet_add; [exact Hd|]. now apply (@dealPattern_phrase re bef' aft').
Qed.

Lemma extractDealsFrom_phrases text : forall patterns deals,
  forallb dealPattern patterns = true ->
  dealSet text deals ->
  exists deals', extractDealsFrom text patterns deals = Done deals' /\ dealSet text deals'.
Proof.
  induction patterns as [|re patterns IH]; intros deals Hall Hd; cbn [extractDealsFrom].
  - now exists deals.
  - cbn [forallb] in Hall. apply andb_true_iff in Hall. destruct Hall as [Hre Hall].
    assert (Hnul : nullable (pattern re) = false).
    { unfold dealPattern in Hre. apply andb_true_iff in Hre.
      now apply negb_true_iff. }
    destruct (@execAll_returns re text Hnul) as (ms & E & _). rewrite E. cbn [andThen].
    apply IH; [exact Hall|]. apply dealSet_fold with (re := re); [exact Hre | | exact Hd].
    unfold execAll in E. apply execLoop_matched in E. exact E.
Qed.

Lemma extractDeals_dealPatterns text patterns :
  forallb dealPattern patterns = true ->
  exists r, extractDeals text patterns = Done r /\ phrasesOf text r.
Proof.
  intros Hall. unfold extractDeals.
  destruct (@extractDealsFrom_phrases text patterns [] Hall) as (deals & -> & Hnd & Hd).
  { split; constructor. }
  cbn [andThen]. eexists. split; [reflexivity|].
  destruct deals as [|d deals]; cbn; [exact I|].
  split; [discriminate|]. now split.
Qed.

(** The deals are phrases of the text: for the food patterns and for
    the drink patterns [extractDeals] returns, and gives [null] or a
    list, not empty and without duplicates, of pieces of the text that
    are not empty and have no white space at their ends. *)
Theorem extractDeals_phrases text :
  (exists r, extractDeals text FOOD_PATTERNS = Done r /\ phrasesOf text r) /\
  (exists r, extractDeals text DRINK_PATTERNS = Done r /\ phrasesOf text r).
Proof. split; apply extractDeals_dealPatterns; reflexivity. Qed.

(** ** extractor.js: the fields of a record *)

Lemma stringOrUnknown_digit c :
  startsWithDigit c ->
  exists d t, isAsciiDigit d = true /\ stringOrUnknown c = VString (d :: t) /\
              stringOrUnknown c <> unknown.
Proof.
  intros (d & t & Hd & ->). exists d, t. repeat split; [exact Hd|].
  cbn [stringOrUnknown]. intros E. inversion E; subst. discriminate.
Qed.

Lemma arrayOrUnknown_phrases text r :
  phrasesOf text r -> dealsField text (arrayOrUnknown r).
Proof.
  destruct r as [l|]; cbn; intros H; [|now left]. right. now exists l.
Qed.

(** The fields of a record, for every raw text: the two times are both
    "unknown" or both a text that starts with a digit, and the food
    deals and the drink deals are "unknown" or a list, without
    duplicates, of phrases of the raw text. *)
Theorem extractHappyHourInfo_fields rawText :
  exists hh,
    extractHappyHourInfo rawText = Done hh /\
    timeField (start_time hh) /\ timeField (end_time hh) /\
    (start_time hh = unknown <-> end_time hh = unknown) /\
    dealsField rawText (food_deals hh) /\ dealsField rawText (drink_deals hh).
Proof.
  unfold extractHappyHourInfo.
  destruct (isZero (length rawText) || includes rawText (str "No website available")
            || includes rawText (str "Unable to crawl")).
  { eexists. split; [reflexivity|]. cbn.
    repeat split; try (now left); intros _; reflexivity. }
  destruct (extractDays_returns rawText) as (ds & -> & _). cbn [andThen].
  destruct (@extractDeals_dealPatterns rawText FOOD_PATTERNS eq_refl) as (food & -> & Hfood).
  destruct (@extractDeals_dealPatterns rawText DRINK_PATTERNS eq_refl) as (drink & -> & Hdrink).
  cbn [andThen]. eexists. split; [reflexivity|].
  cbn [start_time end_time food_deals drink_deals].
  split; [|split; [|split; [|split; now apply arrayOrUnknown_phrases]]].
  - destruct (extractTimes_cases rawText) as [-> | (Hs & _)]; [now left|].
    right. destruct (stringOrUnknown_digit Hs) as (d & t & Hd & E & _). eauto.
  - destruct (extractTimes_cases rawText) as [-> | (_ & He)]; [now left|].
    right. destruct (stringOrUnknown_digit He) as (d & t & Hd & E & _). eauto.
  - destruct (extractTimes_cases rawText) as [-> | (Hs & He)]; [tauto|].
    destruct (stringOrUnknown_digit Hs) as (_ & _ & _ & _ & Ns).
    destruct (stringOrUnknown_digit He) as (_ & _ & _ & _ & Ne).
    tauto.
Qed.

(** ** extractor.js: times with minutes, with a space, with dots *)

Lemma isMinuteText_In mm : isMinuteText mm = true -> In mm minuteTexts.
Proof.
  unfold isMinuteText, minuteTexts. rewrite andb_true_iff. intros [Hlen Hd].
  destruct mm as [|d1 [|d2 [|d3 mm]]]; try discriminate. cbn [forallb] in Hd.
  apply andb_true_iff in Hd. destruct Hd as [H1 Hd].
  apply andb_true_iff in Hd. destruct Hd as [H2 _].
  apply in_flat_map. exists d1. split; [now apply isAsciiDigit_In|].
  apply (in_map (fun d : char => [d1; d]) digitUnits d2). now apply isAsciiDigit_In.
Qed.

(** What [normalizeTime] does beyond an hour with its marker: a time
    with minutes gets a space before its marker, which is put in upper
    case; an hour and a marker with a space between them get ":00"; a
    marker written with dots is put in upper case and nothing else; an
    hour followed by a space is the hour; no text and the empty text
    give [null]. *)
Theorem normalizeTime_shapes h mm m :
  isHourText h = true -> isMinuteText mm = true -> isMeridiemText m = true ->
  normalizeTime (Some (h ++ str ":" ++ mm ++ m)) =
    Some (h ++ str ":" ++ mm ++ str " " ++ toUpperCase m) /\
  normalizeTime (Some (h ++ str ":" ++ mm)) = Some (h ++ str ":" ++ mm) /\
  normalizeTime (Some (h ++ str " " ++ m)) = Some (h ++ str ":00 " ++ toUpperCase m) /\
  normalizeTime (Some (h ++ str " p.m.")) = Some (h ++ str " P.M.") /\
  normalizeTime (Some (h ++ str " ")) = Some h /\
  normalizeTime (Some []) = None /\ normalizeTime None = None.
Proof.
  intros Hh Hmm Hm.
  apply isHourText_In in Hh. apply isMinuteText_In in Hmm. apply isMeridiemText_In in Hm.
  repeat split.
  - apply normalizesTo_spec.
    assert (H : forallb (fun h => forallb (fun mm => forallb (fun m =>
                  normalizesTo (h ++ str ":" ++ mm ++ m)
                               (h ++ str ":" ++ mm ++ str " " ++ toUpperCase m))
                  meridiemTexts) minuteTexts) hourTexts = true)
      by (vm_compute; reflexivity).
    rewrite forallb_forall in H. specialize (H h Hh).
    rewrite forallb_forall in H. specialize (H mm Hmm).
    rewrite forallb_forall in H. exact (H m Hm).
  - apply normalizesTo_spec.
    assert (H : forallb (fun h => forallb (fun mm =>
                  normalizesTo (h ++ str ":" ++ mm) (h ++ str ":" ++ mm))
                  minuteTexts) hourTexts = true)
      by (vm_compute; reflexivity).
    rewrite forallb_forall in H. specialize (H h Hh).
    rewrite forallb_forall in H. exact (H mm Hmm).
  - apply normalizesTo_spec.
    assert (H : forallb (fun h => forallb (fun m =>
                  normalizesTo (h ++ str " " ++ m) (h ++ str ":00 " ++ toUpperCase m))
                  meridiemTexts) hourTexts = true)
      by (vm_compute; reflexivity).
    rewrite forallb_forall in H. specialize (H h Hh).
    rewrite forallb_forall in H. exact (H m Hm).
  - apply normalizesTo_spec.
    assert (H : forallb (fun h => normalizesTo (h ++ str " p.m.") (h ++ str " P.M."))
                        hourTexts = true)
      by (vm_compute; reflexivity).
    rewrite forallb_forall in H. exact (H h Hh).
  - apply normalizesTo_spec.
    assert (H : forallb (fun h => normalizesTo (h ++ str " ") h) hourTexts = true)
      by (vm_compute; reflexivity).
    rewrite forallb_forall in H. exact (H h Hh).
Qed.

Lemma normalizeTime_shapes_witness :
  normalizeTime (Some (str "5" ++ str ":" ++ str "30" ++ str "pm")) =
    Some (str "5" ++ str ":" ++ str "30" ++ str " " ++ toUpperCase (str "pm")) /\
  normalizeTime (Some (str "5" ++ str ":" ++ str "30")) = Some (str "5" ++ str ":" ++ str "30") /\
  normalizeTime (Some (str "5" ++ str " " ++ str "pm")) =
    Some (str "5" ++ str ":00 " ++ toUpperCase (str "pm")) /\
  normalizeTime (Some (str "5" ++ str " p.m.")) = Some (str "5" ++ str " P.M.") /\
  normalizeTime (Some (str "5" ++ str " ")) = Some (str "5") /\
  normalizeTime (Some []) = None /\ normalizeTime None = None.
Proof. apply normalizeTime_shapes; reflexivity. Defined.

(** ** scraper.js: the cards of the feed *)

Lemma isExternalLink_spec href : isExternalLink href = true <-> externalLink href.
Proof.
  unfold isExternalLink, externalLink.
  rewrite !andb_true_iff, !negb_true_iff, startsWith_spec. split.
  - intros [[Hlen Hinc] Hst]. repeat split; [| |exact Hst].
    + intros ->. discriminate.
    + intros Hc. apply includes_spec in Hc. congruence.
  - intros (Hne & Hinc & Hst). repeat split; [| |exact Hst].
    + destruct href; [contradiction | reflexivity].
    + destruct (includes href (str "google.com")) eqn:E; [|reflexivity].
      apply includes_spec in E. contradiction.
Qed.

Lemma find_last (A : Type) (f : A -> bool) l a :
  find f (l ++ [a]) = match find f l with
                      | Some b => Some b
                      | None => if f a then Some a else None
                      end.
Proof.
  induction l as [|b l IH]; [reflexivity|]. cbn [app find].
  destruct (f b); [reflexivity | exact IH].
Qed.

Lemma cardWebsite_fold hrefs : forall website,
  fold_left (fun website href => if isExternalLink href then Some href else website)
            hrefs website =
  match find isExternalLink (rev hrefs) with
  | Some href => Some href
  | None => website
  end.
Proof.
  induction hrefs as [|href hrefs IH]; intros website; [reflexivity|].
  cbn [fold_left rev]. rewrite IH, find_last.
  destruct (find isExternalLink (rev hrefs)); [reflexivity|].
  destruct (isExternalLink href); reflexivity.
Qed.

(** The website of a card is the last of its links that is not empty,
    does not contain "google.com" and starts with "http"; a card with no
    such link has no website. *)
Theorem cardWebsite_last_external hrefs :
  match cardWebsite hrefs with
  | Some href =>
      externalLink href /\
      exists earlier later, hrefs = earlier ++ href :: later /\
                            Forall (fun h => ~ externalLink h) later
  | None => Forall (fun h => ~ externalLink h) hrefs
  end.
Proof.
  unfold cardWebsite. fold isExternalLink.
  change (fun website href =>
            if negb (isZero (length href)) && negb (includes href (str "google.com"))
               && startsWith href (str "http")
            then Some href else website)
    with (fun (website : option jsstring) href =>
            if isExternalLink href then Some href else website).
  rewrite cardWebsite_fold.
  induction hrefs as [|h hrefs IH] using rev_ind; [constructor|].
  rewrite rev_app_distr. cbn [rev app find].
  destruct (isExternalLink h) eqn:E.
  - split; [now apply isExternalLink_spec|]. exists hrefs, []. split; [reflexivity | constructor].
  - assert (Hh : ~ externalLink h).
    { intros C. apply isExternalLink_spec in C. congruence. }
    destruct (find isExternalLink (rev hrefs)) as [href|].
    + destruct IH as (Hext & earlier & later & -> & Hlater). split; [exact Hext|].
      exists earlier, (later ++ [h]). split; [now rewrite <- app_assoc|].
      apply Forall_app. split; [exact Hlater | now constructor].
    + apply Forall_app. split; [exact IH | now constructor].
Qed.

(** *** The address of a card *)

Lemma split_cons sep s : exists part parts, split sep s = part :: parts.
Proof.
  induction s as [|c s (part & parts & IH)]; [now exists [], []|]. cbn [split].
  destruct (char_eqb c sep); [eauto|]. rewrite IH. eauto.
Qed.


Lemma join_cons sep part part' parts :
  join sep (part :: part' :: parts) = part ++ sep ++ join sep (part' :: parts).
Proof. reflexivity. Qed.

(** Joining what [split] gave, with the separator, gives the string back. *)
Lemma join_split sep s : join [sep] (split sep s) = s.
Proof.
  induction s as [|c s IH]; [reflexivity|]. cbn [split].
  destruct (char_eqb c sep) eqn:E.
  - apply N.eqb_eq in E. subst c.
    destruct (split_cons sep s) as (part & parts & Es). rewrite Es in *.
    rewrite join_cons, IH. reflexivity.
  - destruct (split_cons sep s) as (part & parts & Es). rewrite Es in *.
    destruct parts as [|part' parts].
    + cbn [join] in *. now rewrite IH.
    + rewrite join_cons in *. rewrite <- IH. reflexivity.
Qed.












(** *** The venues of a feed *)

(** The venues of a feed are those of its cards that have a headline
    that is not blank, in the order of the cards: each has the trimmed
    headline as its name, a text that is not empty, and the neighborhood
    of the search; a card without such a headline is left out. *)
Theorem parseCards_named nbhd cards :
  Forall2 (venueOfCard nbhd) (filter hasName cards) (parseCards nbhd cards).
Proof.
  induction cards as [|card cards IH]; [constructor|].
  cbn [filter parseCards]. unfold hasName, cardVenue.
  destruct (headline card) as [text|] eqn:Eh; [|exact IH].
  destruct (trim text) as [|c t] eqn:Et; cbn [length isZero Nat.eqb negb]; [exact IH|].
  constructor; [|exact IH]. unfold venueOfCard.
  cbn [scraped_name scraped_address scraped_neighborhood scraped_website].
  repeat split; try reflexivity.
  - exists text. now rewrite Eh, Et.
  - discriminate.
  - rewrite <- Et. apply trim_idem.
Qed.

Lemma scrapeGoogleMaps_cases launched feed closes :
  match scrapeGoogleMaps launched feed closes with
  | Some venues =>
      launched = true /\ closes = true /\
      exists lodo lohi,
        feed lodoQuery = Some lodo /\ feed lohiQuery = Some lohi /\
        venues = parseCards (str "LoDo") lodo ++ parseCards (str "LoHi") lohi
  | None =>
      launched = false \/ feed lodoQuery = None \/ feed lohiQuery = None \/ closes = false
  end.
Proof.
  unfold scrapeGoogleMaps, SEARCHES. destruct launched; [|now left].
  cbn [scrapeSearches]. fold lodoQuery. fold lohiQuery.
  destruct (feed lodoQuery) as [lodo|]; [|right; now left].
  destruct (feed lohiQuery) as [lohi|]; [|right; right; now left].
  destruct closes; [|right; right; now right].
  split; [reflexivity|]. split; [reflexivity|]. now exists lodo, lohi.
Qed.

(** The scrape gives the venues of both searches or nothing: when the
    browser cannot be launched, when one of the two searches throws, or
    when the browser cannot be closed at the end (be it after two
    searches that went well), [scrapeGoogleMaps] throws, the venues
    found are dropped and the scraper writes the curated list; else the
    venues of the LoDo feed come first, then those of the LoHi feed. *)
Theorem scrapeGoogleMaps_all_or_nothing launched feed closes ts :
  (scrapeGoogleMaps launched feed closes = None <->
   launched = false \/ feed lodoQuery = None \/ feed lohiQuery = None \/ closes = false) /\
  (scrapeGoogleMaps launched feed closes = None ->
   scraperMain (scrapeGoogleMaps launched feed closes) ts = getFallbackVenues ts) /\
  (forall lodo lohi,
     launched = true -> feed lodoQuery = Some lodo -> feed lohiQuery = Some lohi ->
     closes = true ->
     scrapeGoogleMaps launched feed closes =
     Some (parseCards (str "LoDo") lodo ++ parseCards (str "LoHi") lohi)).
Proof.
  pose proof (scrapeGoogleMaps_cases launched feed closes) as H.
  split; [|split].
  - destruct (scrapeGoogleMaps launched feed closes) as [venues|].
    + destruct H as (-> & -> & lodo & lohi & -> & -> & _).
      split; [discriminate | intros [C | [C | [C | C]]]; discriminate].
    + split; [intros _; exact H | reflexivity].
  - intros ->. reflexivity.
  - intros lodo lohi -> El Eh ->.
    destruct (scrapeGoogleMaps true feed true) as [venues|].
    + destruct H as (_ & _ & lodo' & lohi' & El' & Eh' & ->). congruence.
    + destruct H as [C | [C | [C | C]]]; congruence.
Qed.

(** ** extractor.js: the order of the tests of [extractDays] *)

Lemma extends_refl a : extends a a.
Proof. exists []. now rewrite app_nil_r. Qed.

Lemma extends_trans a b c : extends a b -> extends b c -> extends a c.
Proof. intros (l1 & ->) (l2 & ->). exists (l1 ++ l2). now rewrite app_assoc. Qed.

Lemma set_add_extends s x : extends s (set_add s x).
Proof.
  unfold set_add. destruct (set_has s x); [apply extends_refl | now exists [x]].
Qed.

Lemma addDayAt_extends days i : extends days (addDayAt days i).
Proof.
  unfold addDayAt. destruct (nth_error DAYS_OF_WEEK (Z.to_nat i));
    [apply set_add_extends | apply extends_refl].
Qed.

Lemma rangeLoop_extends fuel : forall i stop days days',
  rangeLoop fuel i stop days = Done days' -> extends days days'.
Proof.
  induction fuel as [|fuel IH]; intros i stop days days' H; cbn [rangeLoop] in H.
  - destruct (Z.eqb i stop); [|discriminate]. inversion H; subst. apply extends_refl.
  - destruct (Z.eqb i stop).
    + inversion H; subst. apply extends_refl.
    + apply IH in H. eapply extends_trans; [apply addDayAt_extends | exact H].
Qed.

Lemma addRange_extends days m days' : addRange days m = Done days' -> extends days days'.
Proof.
  unfold addRange. destruct (capture m 1); [|discriminate].
  destruct (capture m 2); [|discriminate].
  destruct (normalizeDay _); [|intros H; inversion H; subst; apply extends_refl].
  destruct (normalizeDay _); [|intros H; inversion H; subst; apply extends_refl].
  destruct (_ && _); [|intros H; inversion H; subst; apply extends_refl].
  destruct (rangeLoop _ _ _ _) as [d| |] eqn:E; cbn [andThen]; try discriminate.
  intros H. inversion H; subst. apply rangeLoop_extends in E.
  eapply extends_trans; [exact E | apply addDayAt_extends].
Qed.

Lemma addDay_extends days m days' : addDay days m = Done days' -> extends days days'.
Proof.
  unfold addDay. destruct (capture m 1); [|discriminate].
  destruct (normalizeDay _); intros H; inversion H; subst;
    [apply set_add_extends | apply extends_refl].
Qed.

Lemma forEachMatch_extends (body : StringSet -> MatchResult -> run StringSet) :
  (forall days m days', body days m = Done days' -> extends days days') ->
  forall ms days days', forEachMatch body ms days = Done days' -> extends days days'.
Proof.
  intros Hbody. induction ms as [|m ms IH]; intros days days' H; cbn [forEachMatch] in H.
  - inversion H; subst. apply extends_refl.
  - destruct (body days m) as [d| |] eqn:E; cbn [andThen] in H; try discriminate.
    eapply extends_trans; [apply (Hbody _ _ _ E) | apply (IH _ _ H)].
Qed.

Lemma wholeWeekPhrase_spec lower :
  includes lower (str "daily") || includes lower (str "every day")
  || includes lower (str "7 days") = true <-> wholeWeekPhrase lower.
Proof.
  unfold wholeWeekPhrase. rewrite !orb_true_iff, !includes_spec. tauto.
Qed.

Lemma not_true_false b : b <> true -> b = false.
Proof. now destruct b. Qed.

(** The tests of [extractDays] come in an order.  A text that says
    "daily", "every day" or "7 days" in any case gives the whole week,
    whatever else it says; else a text that says "weekday" gives Monday
    to Friday, whatever else it says; else a text that says "weekend"
    gives a list that starts with Saturday and Sunday. *)
Theorem extractDays_priorities text :
  (wholeWeekPhrase (toLowerCase text) -> extractDays text = Done (Some DAYS_OF_WEEK)) /\
  (~ wholeWeekPhrase (toLowerCase text) ->
   contains (toLowerCase text) (str "weekday") ->
   extractDays text = Done (Some weekdays)) /\
  (~ wholeWeekPhrase (toLowerCase text) ->
   ~ contains (toLowerCase text) (str "weekday") ->
   contains (toLowerCase text) (str "weekend") ->
   exists l, extractDays text = Done (Some (str "Saturday" :: str "Sunday" :: l))).
Proof.
  split; [|split].
  - intros H. apply wholeWeekPhrase_spec in H. unfold extractDays. now rewrite H.
  - intros Hn H. unfold extractDays.
    rewrite (not_true_false (fun C => Hn (proj1 (wholeWeekPhrase_spec _) C))).
    apply includes_spec in H. now rewrite H.
  - intros Hn Hd H.
    destruct (extractDays_returns text) as (r & Hr & _). revert Hr.
    unfold extractDays.
    rewrite (not_true_false (fun C => Hn (proj1 (wholeWeekPhrase_spec _) C))).
    rewrite (not_true_false (fun C => Hd (proj1 (includes_spec _ _) C))).
    apply includes_spec in H. rewrite H.
    change (set_add (set_add [] (str "Saturday")) (str "Sunday"))
      with [str "Saturday"; str "Sunday"].
    destruct (execAll rangePattern text) as [ranges| |]; cbn [andThen]; try discriminate.
    destruct (forEachMatch addRange ranges _) as [d1| |] eqn:E1; cbn [andThen];
      try discriminate.
    destruct (execAll dayPattern text) as [mentions| |]; cbn [andThen]; try discriminate.
    destruct (forEachMatch addDay mentions d1) as [d2| |] eqn:E2; cbn [andThen];
      try discriminate.
    intros _.
    apply (@forEachMatch_extends addRange addRange_extends) in E1.
    apply (@forEachMatch_extends addDay addDay_extends) in E2.
    destruct (extends_trans E1 E2) as (l & ->). exists l. reflexivity.
Qed.

(** ** The matcher finds a match when there is one *)

Lemma follows_remaining x y :
  follows x y ->
  remaining y <= remaining x /\ endIndex y + remaining y = endIndex x + remaining x.
Proof.
  intros (w & Ha & _ & He). unfold remaining. rewrite Ha, length_app. lia.
Qed.

(** When a pattern can take the matcher from [x] to [y], and the
    continuation succeeds at [y], the matcher of the pattern succeeds
    from [x]: with the result of that match or of one it tries before. *)
Lemma compile_complete ic r x y :
  matches ic r x y ->
  forall c, c y <> None -> compile ic r x c <> None.
Proof.
  induction 1 as [x | inv rs x ch rest Ha Hc | r1 r2 x y z H1 IH1 H2 IH2
                 | r1 r2 x y H IH | r1 r2 x y H IH
                 | r min max greedy x Hstop
                 | r min max greedy x y z Hmax H1 IH1 Hgo H2 IH2
                 | n r x y H IH | x Hb | x Ha | x Hw];
    intros c Hc'; cbn [compile].
  - exact Hc'.
  - now rewrite Ha, Hc.
  - apply IH1. now apply IH2.
  - specialize (IH c Hc'). destruct (compile ic r1 x c); [discriminate | contradiction].
  - destruct (compile ic r1 x c); [discriminate | now apply IH].
  - cbn [RepeatMatcher]. destruct max as [[|max]|].
    + exact Hc'.
    + destruct Hstop as [-> | Hstop]; [|discriminate]. cbn [negb].
      destruct greedy; cbn [negb].
      * match goal with |- match ?t with _ => _ end <> None => destruct t end;
          [discriminate | exact Hc'].
      * destruct (c x); [discriminate | contradiction].
    + destruct Hstop as [-> | Hstop]; [|discriminate]. cbn [negb].
      destruct greedy; cbn [negb].
      * match goal with |- match ?t with _ => _ end <> None => destruct t end;
          [discriminate | exact Hc'].
      * destruct (c x); [discriminate | contradiction].
  - pose proof (follows_remaining (matches_follows H1)) as (Hle & Heq).
    rewrite remaining_clear in Hle, Heq. cbn [clear_captures endIndex] in Heq.
    assert (Hturn :
      compile ic r (clear_captures (groupsOf r) x)
        (fun y0 =>
           if isZero min && Nat.eqb (endIndex y0) (endIndex x) then None
           else RepeatMatcher (min + remaining x) (compile ic r) (pred min)
                              (option_map pred max) greedy (groupsOf r) y0 c) <> None).
    { apply IH1.
      destruct (isZero min && Nat.eqb (endIndex y) (endIndex x)) eqn:Eg.
      - apply andb_true_iff in Eg. destruct Eg as [Ez Ee]. apply Nat.eqb_eq in Ee.
        now specialize (Hgo Ez).
      - rewrite <- compile_Repeat_fuel; [now apply IH2|].
        apply andb_false_iff in Eg. destruct Eg as [Eg | Eg].
        + unfold isZero in Eg. apply Nat.eqb_neq in Eg. lia.
        + apply Nat.eqb_neq in Eg. lia. }
    cbn [RepeatMatcher].
    destruct max as [[|max]|]; [contradiction| |].
    + destruct (isZero min); cbn [negb]; [|exact Hturn].
      destruct greedy; cbn [negb].
      * match goal with |- match ?t with _ => _ end <> None => destruct t end;
          [discriminate | contradiction].
      * destruct (c x); [discriminate | exact Hturn].
    + destruct (isZero min); cbn [negb]; [|exact Hturn].
      destruct greedy; cbn [negb].
      * match goal with |- match ?t with _ => _ end <> None => destruct t end;
          [discriminate | contradiction].
      * destruct (c x); [discriminate | exact Hturn].
  - apply IH. exact Hc'.
  - now rewrite Hb.
  - now rewrite Ha.
  - now rewrite Hw.
Qed.

Lemma matchAt_complete re bef aft y :
  matches (ignoreCase re) (pattern re) (mkState bef aft [] 0) y ->
  matchAt re bef aft <> None.
Proof.
  intros H. unfold matchAt.
  assert (Hc : compile (ignoreCase re) (pattern re) (mkState bef aft [] 0)
                       (fun y => Some y) <> None).
  { apply (compile_complete H). discriminate. }
  destruct (compile _ _ _ _); [discriminate | contradiction].
Qed.

(** ** extractor.js: a day that the text names *)

Lemma sameLetter_class a b :
  isAsciiLower a = true -> sameLetter a b = true -> class_mem true [(a, a)] b = true.
Proof.
  unfold sameLetter, isAsciiLower, in_range. rewrite andb_true_iff, !N.leb_le.
  intros Ha H. apply orb_true_iff in H. rewrite !N.eqb_eq in H.
  unfold class_mem, in_ranges, in_range. cbn [existsb fst snd andb].
  rewrite !orb_false_r. destruct H as [-> | ->].
  - now rewrite N.leb_refl.
  - apply orb_true_iff. right.
    unfold swapCase, isAsciiUpper, isAsciiLower, in_range.
    replace (N.leb 65 (a - 32)) with true by (symmetry; apply N.leb_le; lia).
    replace (N.leb (a - 32) 90) with true by (symmetry; apply N.leb_le; lia).
    cbn [andb]. replace (a - 32 + 32)%N with a by lia. now rewrite N.leb_refl.
Qed.

Lemma class_letter_word a b :
  isAsciiLower a = true -> class_mem true [(a, a)] b = true -> isWordChar b = true.
Proof.
  unfold class_mem, in_ranges. cbn [existsb fst snd andb]. rewrite !orb_false_r.
  unfold isWordChar, swapCase. intros Ha H.
  destruct (isAsciiLower b) eqn:El; [reflexivity|].
  destruct (isAsciiUpper b) eqn:Eu; [reflexivity|]. exfalso.
  assert (Hb : in_range a a b = true) by (now destruct (in_range a a b)).
  unfold in_range in Hb. unfold isAsciiLower, in_range in Ha, El.
  rewrite andb_true_iff, !N.leb_le in Hb, Ha.
  apply andb_false_iff in El. rewrite !N.leb_gt in El. lia.
Qed.

(** *** The pattern matches at the word *)

Ltac tidy_state :=
  cbn [before after captures endIndex clear_captures fold_left groupsOf app pred option_map
       set_capture].

Ltac step_matches :=
  tidy_state;
  lazymatch goal with
  | |- matches _ (Chars _ _) _ _ =>
      eapply matches_Chars; [reflexivity | cbn [xorb]; assumption]
  | |- matches _ (Seq _ _) _ _ =>
      eapply matches_Seq; [step_matches | step_matches]
  | |- matches _ (Alt _ _) _ _ =>
      (eapply matches_Alt_l; step_matches) + (eapply matches_Alt_r; step_matches)
  | |- matches _ (Repeat _ _ _ _) _ _ =>
      (eapply matches_Repeat_turn;
       [discriminate | step_matches
       | intros _; tidy_state; lia
       | tidy_state; apply matches_Repeat_stop; right; reflexivity])
      + (apply matches_Repeat_stop; left; reflexivity)
  | |- matches _ (Group _ _) _ _ =>
      eapply matches_Group; step_matches
  | |- matches _ WordBoundary _ _ =>
      apply matches_WordBoundary; unfold wordBefore, wordAfter; tidy_state;
      repeat match goal with H : isWordChar _ = _ |- _ => rewrite H end;
      reflexivity
  end.

Ltac letters_of Hs :=
  cbn in Hs;
  repeat (apply andb_true_iff in Hs; let H := fresh "Hl" in destruct Hs as [H Hs]);
  repeat match goal with
         | H : sameLetter _ _ = true |- _ => apply sameLetter_class in H; [|reflexivity]
         end;
  repeat match goal with
         | H : class_mem true [(?a, ?a)] ?b = true |- _ =>
             lazymatch goal with
             | _ : isWordChar b = true |- _ => fail
             | _ => pose proof (@class_letter_word a b eq_refl H)
             end
         end.

Lemma dayWord_spelling d w :
  dayWord d w = true -> exists tok, In (tok, d) spellings /\ sameLetters tok w = true.
Proof.
  unfold dayWord. rewrite existsb_exists. intros ([tok d'] & Hin & H).
  cbn [fst snd] in H. apply andb_true_iff in H. destruct H as [Hd Hs].
  apply jsstring_eqb_eq in Hd. subst d'. now exists tok.
Qed.

Lemma sameLetters_length tok : forall w,
  sameLetters tok w = true -> length w = length tok.
Proof.
  induction tok as [|a tok IH]; intros [|b w] H; try discriminate; [reflexivity|].
  cbn [sameLetters] in H. apply andb_true_iff in H. destruct H as [_ H].
  cbn [length]. now rewrite (IH w H).
Qed.

Ltac letters_of_length w Hlen :=
  cbn in Hlen;
  do 10 (try (let b := fresh "b" in destruct w as [|b w]; [try discriminate Hlen|];
              cbn [length] in Hlen));
  try discriminate Hlen.

Lemma dayPattern_at_word d w bef post :
  dayWord d w = true -> edgeAfter bef = true -> edgeAfter post = true ->
  matchAt dayPattern bef (w ++ post) <> None.
Proof.
  intros Hw Hb Ha. apply dayWord_spelling in Hw. destruct Hw as (tok & Hin & Hs).
  pose proof (@sameLetters_length _ _ Hs) as Hlen.
  assert (H : exists y, matches true (pattern dayPattern) (mkState bef (w ++ post) [] 0) y).
  { let r := eval vm_compute in (pattern dayPattern) in change (pattern dayPattern) with r.
    cbn in Hin.
    repeat (destruct Hin as [Hin | Hin];
            [inversion Hin; subst tok d; clear Hin;
             letters_of_length w Hlen; letters_of Hs;
             destruct bef as [|c0 bef]; destruct post as [|c1 post]; cbn [edgeAfter] in Hb, Ha;
             try apply negb_true_iff in Hb; try apply negb_true_iff in Ha;
             cbn [app]; eexists; step_matches
            |]).
    contradiction. }
  destruct H as (y & H). now apply (@matchAt_complete dayPattern bef (w ++ post) y).
Qed.

(** *** What the pattern matches at the word names the day *)

Lemma matches_alt_inv ic rs : forall x y,
  rs <> [] -> matches ic (alt rs) x y -> exists r, In r rs /\ matches ic r x y.
Proof.
  induction rs as [|r rs IH]; intros x y Hne H; [contradiction|].
  destruct rs as [|r' rs].
  - exists r. split; [now left | exact H].
  - change (alt (r :: r' :: rs)) with (Alt r (alt (r' :: rs))) in H.
    inversion H; subst.
    + exists r. split; [now left | assumption].
    + destruct (IH x y) as (r0 & Hin & Hr); [discriminate | assumption |].
      exists r0. split; [now right | exact Hr].
Qed.

Lemma litMatches_cons a w b s :
  litMatches (a :: w) (b :: s) = class_mem true [(a, a)] b && litMatches w s.
Proof. reflexivity. Qed.

Lemma matches_word_inv tok : forall x y,
  tok <> [] -> matches true (seq (map chr tok)) x y ->
  litMatches tok (after x) = true /\ endIndex y = endIndex x + length tok.
Proof.
  induction tok as [|a tok IH]; intros x y Hne H; [contradiction|].
  destruct tok as [|a' tok].
  - cbn [map seq] in H. unfold chr in H. inversion H; subst.
    cbn [litMatches endIndex length].
    match goal with Ha : after x = _ |- _ => rewrite Ha end.
    match goal with Hc : xorb false _ = true |- _ => cbn [xorb] in Hc; rewrite Hc end.
    split; [reflexivity | lia].
  - change (seq (map chr (a :: a' :: tok))) with (Seq (chr a) (seq (map chr (a' :: tok)))) in H.
    inversion H as [| |r1 r2 x0 y1 z0 H1 H2| | | | | | | |]; subst.
    unfold chr in H1. inversion H1; subst.
    apply IH in H2; [|discriminate]. destruct H2 as (Hl & He).
    cbn [after endIndex] in Hl, He.
    match goal with Ha : after x = _ |- _ => rewrite Ha end.
    rewrite litMatches_cons.
    match goal with Hc : xorb false _ = true |- _ => cbn [xorb] in Hc; rewrite Hc end.
    rewrite Hl. split; [reflexivity|]. rewrite He. cbn [length]. lia.
Qed.

Lemma dayNames_inv x y :
  matches true dayNames x y ->
  exists p n, In p dayPrefixes /\ litMatches p (after x) = true /\ 3 <= n /\
              get_capture 1 (captures y) = Some (firstn n (after x)).
Proof.
  unfold dayNames. intros H.
  inversion H as [| | | | | | |k r x0 y1 Halt| | |]; subst.
  apply (@matches_alt_inv true
           [Seq (lit "mon") (opt (lit "day"));
            Seq (lit "tue") (opt (Seq (lit "s") (opt (lit "day"))));
            Seq (lit "wed") (opt (lit "nesday"));
            Seq (lit "thu") (opt (Seq (lit "rs") (opt (lit "day"))));
            Seq (lit "fri") (opt (lit "day"));
            Seq (lit "sat") (opt (lit "urday"));
            Seq (lit "sun") (opt (lit "day"))]) in Halt; [|discriminate].
  destruct Halt as (r & Hin & Hr).
  assert (Hcap : forall p rest,
            r = Seq (lit p) rest -> str p <> [] -> length (str p) = 3 ->
            litMatches (str p) (after x) = true /\
            3 <= endIndex y1 - endIndex x).
  { intros p rest -> Hne Hlen.
    inversion Hr as [| |r1 r2 x0 y2 z0 H1 H2| | | | | | | |]; subst.
    unfold lit in H1. apply matches_word_inv in H1; [|exact Hne].
    destruct H1 as (Hl & He). split; [exact Hl|].
    apply matches_follows, follows_endIndex in H2. lia. }
  cbn [In] in Hin.
  repeat (destruct Hin as [Hin | Hin];
          [symmetry in Hin;
           match type of Hin with
           | _ = Seq (lit ?p) ?rest =>
               destruct (Hcap p rest Hin) as (Hl & Hn); [discriminate | reflexivity |];
               exists (str p), (endIndex y1 - endIndex x);
               split; [unfold dayPrefixes; cbn [map In]; tauto|];
               split; [exact Hl|]; split; [exact Hn|];
               unfold set_capture, consumed; cbn [captures get_capture Nat.eqb];
               reflexivity
           end|]).
  contradiction.
Qed.

Lemma litMatches_firstn p : forall s n,
  litMatches p s = true -> length p <= n -> litMatches p (firstn n s) = true.
Proof.
  induction p as [|a p IH]; intros s n H Hn; [reflexivity|].
  destruct s as [|b s]; [discriminate|]. destruct n as [|n]; [cbn in Hn; lia|].
  cbn [litMatches firstn] in *. apply andb_true_iff in H. destruct H as [-> H].
  cbn [andb]. apply IH; [exact H | cbn in Hn; lia].
Qed.

Lemma litMatches_prefix p q s : litMatches (p ++ q) s = true -> litMatches p s = true.
Proof.
  intros H. destruct (litMatches p s) eqn:E; [reflexivity|].
  rewrite (litMatches_app p q s E) in H. discriminate.
Qed.

Lemma sameLetters_litMatches tok : forall w post,
  forallb isAsciiLower tok = true -> sameLetters tok w = true ->
  litMatches tok (w ++ post) = true.
Proof.
  induction tok as [|a tok IH]; intros w post Hl H; [reflexivity|].
  destruct w as [|b w]; [discriminate|]. cbn [sameLetters litMatches app forallb] in *.
  apply andb_true_iff in H. destruct H as [Hab H].
  apply andb_true_iff in Hl. destruct Hl as [Ha Hl].
  rewrite (@sameLetter_class a b Ha Hab). cbn [andb]. now apply IH.
Qed.

Lemma startsWith_same_length s p q :
  startsWith s p = true -> startsWith s q = true -> length p = length q -> p = q.
Proof.
  intros Hp Hq Hlen. apply startsWith_spec in Hp, Hq.
  destruct Hp as (r1 & Hp). destruct Hq as (r2 & Hq). rewrite Hp in Hq.
  apply (f_equal (firstn (length p))) in Hq.
  rewrite firstn_app, Nat.sub_diag, firstn_all, firstn_O, app_nil_r in Hq.
  rewrite Hlen, firstn_app, Nat.sub_diag, firstn_all, firstn_O, app_nil_r in Hq.
  exact Hq.
Qed.

Lemma trim_startsWith s p :
  p <> [] -> Forall (fun c => isWhiteSpace c = false) p ->
  startsWith s p = true -> startsWith (trim s) p = true.
Proof.
  intros Hne Hall H. apply startsWith_spec in H. destruct H as (rest & ->).
  apply startsWith_spec. exists (trimEnd rest). unfold trim.
  rewrite trimStart_fixed.
  - now apply trimEnd_block.
  - destruct p as [|c p]; [contradiction|]. cbn. now inversion Hall.
Qed.

Lemma spellings_prefix tok d :
  In (tok, d) spellings ->
  In d DAYS_OF_WEEK /\ forallb isAsciiLower tok = true /\
  exists rest, tok = slice0 (toLowerCase d) 3 ++ rest /\
               In (slice0 (toLowerCase d) 3) dayPrefixes.
Proof.
  intros H. cbn in H.
  repeat (destruct H as [H | H];
          [inversion H; subst; split; [cbn; tauto|]; split; [reflexivity|];
           eexists; split; [reflexivity | cbn; tauto]|]).
  contradiction.
Qed.

Lemma dayPrefixes_letters p :
  In p dayPrefixes ->
  length p = 3 /\ forallb isAsciiLower p = true /\ p <> [] /\
  Forall (fun c => isWhiteSpace c = false) p.
Proof.
  intros H. cbn in H.
  repeat (destruct H as [H | H];
          [subst; repeat split; try discriminate; repeat constructor|]).
  contradiction.
Qed.

Lemma dayPattern_names_day d w bef post m :
  dayWord d w = true ->
  matchAt dayPattern bef (w ++ post) = Some m ->
  exists cap, capture m 1 = Some cap /\ normalizeDay cap = Some d.
Proof.
  intros Hw Hm. apply dayWord_spelling in Hw. destruct Hw as (tok & Hin & Hs).
  destruct (@spellings_prefix tok d Hin) as (Hd & Hlow & rest & Etok & Hpd).
  assert (Hw : litMatches (slice0 (toLowerCase d) 3) (w ++ post) = true).
  { apply litMatches_prefix with (q := rest). rewrite <- Etok.
    now apply sameLetters_litMatches. }
  clear Etok Hs Hin Hlow.
  apply matchAt_matches in Hm. destruct Hm as (z & H & Hg & _).
  change (pattern dayPattern) with (seq [WordBoundary; dayNames; WordBoundary]) in H.
  change (ignoreCase dayPattern) with true in H.
  apply matches_seq_cons in H. destruct H as (y1 & H1 & H).
  apply matches_seq_cons in H. destruct H as (y2 & H2 & H3).
  cbn [seq] in H3. inversion H1; subst. inversion H3; subst.
  apply dayNames_inv in H2. destruct H2 as (p & n & Hp & Hl & Hn & Hcap).
  cbn [after] in Hl, Hcap.
  exists (firstn n (w ++ post)). split; [unfold capture; now rewrite Hg|].
  destruct (@dayPrefixes_letters p Hp) as (Hlen & Hplow & Hpne & Hpws).
  destruct (@dayPrefixes_letters _ Hpd) as (Hlen' & Hdlow & _ & _).
  assert (Epp : p = slice0 (toLowerCase d) 3).
  { apply startsWith_same_length with (s := toLowerCase (w ++ post)).
    - now apply litMatches_lower.
    - now apply litMatches_lower.
    - congruence. }
  apply normalizeDay_prefix; [exact Hd|]. rewrite <- Epp.
  apply trim_startsWith; [exact Hpne | exact Hpws|].
  apply litMatches_lower; [exact Hplow|].
  apply litMatches_firstn; [exact Hl | lia].
Qed.

(** *** The matches before the word end before it *)

Lemma letters_class rs ch :
  forallb (fun p => N.eqb (fst p) (snd p) && isAsciiLower (fst p)) rs = true ->
  class_mem true rs ch = true -> isWordChar ch = true.
Proof.
  intros Hrs H.
  assert (Hex : exists a, isAsciiLower a = true /\ class_mem true [(a, a)] ch = true).
  { unfold class_mem, in_ranges in H. cbn [andb] in H.
    rewrite forallb_forall in Hrs.
    apply orb_true_iff in H. destruct H as [H | H];
      apply existsb_exists in H; destruct H as ([lo hi] & Hin & Hr);
      specialize (Hrs _ Hin); cbn [fst snd] in Hrs, Hr;
      apply andb_true_iff in Hrs; destruct Hrs as [E Hlow];
      apply N.eqb_eq in E; subst hi; exists lo; (split; [exact Hlow|]);
      unfold class_mem, in_ranges; cbn [existsb fst snd andb];
      rewrite Hr; cbn; now rewrite ?orb_true_r. }
  destruct Hex as (a & Ha & Hc). now apply (@class_letter_word a ch).
Qed.

Lemma lettersOnly_matches r x y :
  matches true r x y -> lettersOnly r = true ->
  exists w, after x = w ++ after y /\ Forall (fun c => isWordChar c = true) w.
Proof.
  induction 1 as [x | inv rs x ch rest Ha Hc | r1 r2 x y z H1 IH1 H2 IH2
                 | r1 r2 x y H IH | r1 r2 x y H IH
                 | r min max greedy x Hstop
                 | r min max greedy x y z Hmax H1 IH1 Hgo H2 IH2
                 | n r x y H IH | x Hb | x Ha | x Hw];
    intros Hl; cbn [lettersOnly] in Hl;
    try (exists []; split; [reflexivity | constructor]).
  - apply andb_true_iff in Hl. destruct Hl as [Hinv Hrs].
    destruct inv; [discriminate|]. cbn [xorb] in Hc.
    exists [ch]. split; [exact Ha|]. constructor; [|constructor].
    now apply (@letters_class rs ch).
  - apply andb_true_iff in Hl. destruct Hl as [Hl1 Hl2].
    destruct (IH1 Hl1) as (w1 & E1 & F1). destruct (IH2 Hl2) as (w2 & E2 & F2).
    exists (w1 ++ w2). split; [now rewrite E1, E2, app_assoc | now apply Forall_app].
  - apply andb_true_iff in Hl. destruct Hl as [Hl1 Hl2]. now apply IH.
  - apply andb_true_iff in Hl. destruct Hl as [Hl1 Hl2]. now apply IH.
  - destruct (IH1 Hl) as (w1 & E1 & F1). destruct (IH2 Hl) as (w2 & E2 & F2).
    cbn [clear_captures after] in E1.
    exists (w1 ++ w2). split; [now rewrite E1, E2, app_assoc | now apply Forall_app].
  - destruct (IH Hl) as (w & E & F). exists w. split; [exact E | exact F].
Qed.

Lemma prefix_stop (P : char -> Prop) w : forall t2 cl rest tail,
  w ++ tail = t2 ++ cl :: rest -> Forall P w -> ~ P cl -> exists t2', t2 = w ++ t2'.
Proof.
  induction w as [|a w IH]; intros t2 cl rest tail E Hw Hcl; [now exists t2|].
  inversion Hw as [|? ? Ha Hw']; subst.
  destruct t2 as [|b t2]; cbn [app] in E; inversion E; subst.
  - contradiction.
  - destruct (IH t2 cl rest tail) as (t2' & ->); try assumption. now exists t2'.
Qed.

Lemma dayPattern_inside t2 cl rest bef m :
  isWordChar cl = false ->
  matchAt dayPattern bef (t2 ++ cl :: rest) = Some m ->
  exists t2', t2 = matched m ++ t2'.
Proof.
  intros Hcl Hm. apply matchAt_matches in Hm. destruct Hm as (z & H & _ & Hmat & _).
  pose proof (consumed_follows (matches_follows H)) as Hcons.
  apply lettersOnly_matches in H; [|reflexivity]. destruct H as (w & Ea & Hw).
  cbn [after] in Ea, Hcons. rewrite <- Hmat in Hcons.
  assert (Ew : matched m = w).
  { rewrite Hcons in Ea. now apply app_inv_tail in Ea. }
  rewrite Ew. apply (@prefix_stop (fun c => isWordChar c = true) w t2 cl rest (after z)).
  - now rewrite <- Ea.
  - exact Hw.
  - congruence.
Qed.

(** *** The loop of [exec] comes to the word *)

Lemma execFrom_first re : forall aft bef m,
  execFrom re bef aft = Some m ->
  exists skipped aft',
    aft = skipped ++ aft' /\ matchAt re (rev skipped ++ bef) aft' = Some m /\
    forall s1 s2, skipped = s1 ++ s2 -> s2 <> [] ->
                  matchAt re (rev s1 ++ bef) (s2 ++ aft') = None.
Proof.
  induction aft as [|ch aft IH]; intros bef m H; cbn [execFrom] in H.
  - destruct (matchAt re bef []) eqn:E; [|discriminate]. inversion H; subst.
    exists [], []. repeat split; [exact E|]. intros s1 s2 E' Hne.
    destruct s1; destruct s2; try discriminate. contradiction.
  - destruct (matchAt re bef (ch :: aft)) eqn:E.
    + inversion H; subst. exists [], (ch :: aft). repeat split; [exact E|].
      intros s1 s2 E' Hne. destruct s1; destruct s2; try discriminate. contradiction.
    + apply IH in H. destruct H as (skipped & aft' & -> & Hm & Hfirst).
      exists (ch :: skipped), aft'. split; [reflexivity|]. split.
      * cbn [rev]. now rewrite <- app_assoc.
      * intros s1 s2 E' Hne. destruct s1 as [|c s1]; cbn [app] in E'.
        -- subst s2. exact E.
        -- inversion E'; subst. cbn [rev]. rewrite <- app_assoc. now apply Hfirst.
Qed.

Lemma execFrom_None re : forall aft bef,
  execFrom re bef aft = None ->
  forall s1 s2, aft = s1 ++ s2 -> matchAt re (rev s1 ++ bef) s2 = None.
Proof.
  induction aft as [|ch aft IH]; intros bef H s1 s2 E; cbn [execFrom] in H.
  - destruct s1; [|discriminate]. cbn in E. subst s2. cbn [rev app].
    destruct (matchAt re bef []); [discriminate | reflexivity].
  - destruct (matchAt re bef (ch :: aft)) eqn:Em; [discriminate|].
    destruct s1 as [|c s1]; cbn [app] in E.
    + subst s2. cbn [rev app]. exact Em.
    + inversion E; subst. cbn [rev]. rewrite <- app_assoc. now apply (IH _ H).
Qed.

Lemma app_split (A : Type) (t2 : list A) : forall rest skipped aft',
  t2 ++ rest = skipped ++ aft' ->
  (exists u, t2 = skipped ++ u /\ aft' = u ++ rest) \/
  (exists u, u <> [] /\ skipped = t2 ++ u /\ rest = u ++ aft').
Proof.
  induction t2 as [|a t2 IH]; intros rest skipped aft' E.
  - destruct skipped as [|b skipped].
    + left. exists []. now split.
    + right. exists (b :: skipped). repeat split; [discriminate | exact E].
  - destruct skipped as [|b skipped].
    + left. exists (a :: t2). now split.
    + cbn [app] in E. inversion E; subst.
      destruct (IH _ _ _ H1) as [(u & -> & ->) | (u & Hu & -> & ->)].
      * left. now exists u.
      * right. now exists u.
Qed.

Lemma execLoop_reaches re rest :
  nullable (pattern re) = false ->
  forall n t2 bef fuel ms,
    length t2 <= n ->
    matchAt re (rev t2 ++ bef) rest <> None ->
    (forall s1 s2 m, t2 = s1 ++ s2 -> s2 <> [] ->
       matchAt re (rev s1 ++ bef) (s2 ++ rest) = Some m ->
       exists s2', s2' <> [] /\ s2 = matched m ++ s2') ->
    execLoop fuel re bef (t2 ++ rest) = Done ms ->
    exists m, In m ms /\ matchAt re (rev t2 ++ bef) rest = Some m.
Proof.
  intros Hnul. induction n as [|n IH]; intros t2 bef fuel ms Hlen H1 H2 Hloop.
  - destruct t2; [|cbn in Hlen; lia]. cbn [app rev] in *.
    destruct fuel; cbn [execLoop] in Hloop.
    + destruct (execFrom re bef rest) as [m|] eqn:E.
      * destruct (Nat.ltb _ _); discriminate.
      * exfalso. apply H1. exact (@execFrom_None re rest bef E [] rest eq_refl).
    + destruct (execFrom re bef rest) as [m|] eqn:E.
      * destruct (Nat.ltb _ _); [|discriminate].
        destruct (execLoop fuel re _ _) as [ms'| |]; cbn [andThen] in Hloop;
          try discriminate.
        inversion Hloop; subst ms.
        apply execFrom_first in E. destruct E as (skipped & aft' & Ea & Hm & Hfirst).
        destruct skipped as [|c skipped].
        -- cbn [app rev] in *. subst aft'. exists m. split; [now left | exact Hm].
        -- exfalso. apply H1. rewrite Ea.
           exact (Hfirst [] (c :: skipped) eq_refl ltac:(discriminate)).
      * exfalso. apply H1. exact (@execFrom_None re rest bef E [] rest eq_refl).
  - assert (Hnone : execFrom re bef (t2 ++ rest) <> None).
    { intros E. apply H1. exact (@execFrom_None re _ bef E t2 rest eq_refl). }
    destruct fuel; cbn [execLoop] in Hloop;
      destruct (execFrom re bef (t2 ++ rest)) as [m|] eqn:E; try contradiction.
    { destruct (Nat.ltb _ _); discriminate. }
    destruct (Nat.ltb _ _); [|discriminate].
    destruct (execLoop fuel re (rest_before m) (rest_after m)) as [ms'| |] eqn:Eloop;
      cbn [andThen] in Hloop; try discriminate.
    inversion Hloop; subst ms. clear Hloop.
    apply execFrom_first in E. destruct E as (skipped & aft' & Ea & Hm & Hfirst).
    apply app_split in Ea. destruct Ea as [(u & -> & ->) | (u & Hu & -> & ->)].
    + destruct u as [|c u].
      * rewrite app_nil_r in *. cbn [app] in Hm. exists m. split; [now left | exact Hm].
      * destruct (H2 skipped (c :: u) m eq_refl ltac:(discriminate) Hm) as (s2' & Hs2' & Eu).
        pose proof (@matchAt_layout _ _ _ _ Hm) as (Hlay & Hbef & _).
        pose proof (@matchAt_sound _ _ _ _ Hm) as (_ & Hlt & _). specialize (Hlt Hnul).
        rewrite Eu in Hlay. rewrite <- app_assoc in Hlay.
        apply app_inv_head in Hlay.
        assert (Hmatched : 0 < length (matched m)).
        { rewrite <- Hlay in Hlt. rewrite Eu in Hlt.
          rewrite !length_app in Hlt. lia. }
        rewrite <- Hlay, Hbef in Eloop.
        assert (Erev : rev s2' ++ rev (matched m) ++ rev skipped ++ bef =
                       rev (skipped ++ c :: u) ++ bef).
        { rewrite Eu. rewrite !rev_app_distr, <- !app_assoc. reflexivity. }
        destruct (IH s2' (rev (matched m) ++ rev skipped ++ bef) fuel ms')
          as (m' & Hin & Hm').
        -- rewrite Eu in Hlen. rewrite !length_app in Hlen. lia.
        -- rewrite Erev. exact H1.
        -- intros a b m0 Eab Hb Hm0.
           apply (H2 (skipped ++ matched m ++ a) b m0).
           ++ rewrite Eu, Eab. now rewrite <- !app_assoc.
           ++ exact Hb.
           ++ rewrite !rev_app_distr, <- !app_assoc. exact Hm0.
        -- exact Eloop.
        -- exists m'. split; [now right|]. rewrite <- Erev. exact Hm'.
    + exfalso. apply H1. exact (Hfirst t2 u eq_refl Hu).
Qed.

(** *** Every day the text names is in the result *)

Lemma forEachMatch_addDay_In m cap d : forall ms days days',
  In m ms -> capture m 1 = Some cap -> normalizeDay cap = Some d ->
  forEachMatch addDay ms days = Done days' -> In d days'.
Proof.
  induction ms as [|m0 ms IH]; intros days days' Hin Hcap Hnorm H; [destruct Hin|].
  cbn [forEachMatch] in H.
  destruct (addDay days m0) as [d1| |] eqn:E1; cbn [andThen] in H; try discriminate.
  destruct Hin as [-> | Hin].
  - unfold addDay in E1. rewrite Hcap, Hnorm in E1. inversion E1; subst d1.
    destruct (@forEachMatch_extends addDay addDay_extends _ _ _ H) as (l & ->).
    apply in_or_app. left. apply set_add_In. now right.
  - exact (IH _ _ Hin Hcap Hnorm H).
Qed.

Lemma edgeBefore_last s1 s2a cl :
  edgeBefore (s1 ++ s2a ++ [cl]) = true -> isWordChar cl = false.
Proof.
  unfold edgeBefore. rewrite app_assoc, rev_app_distr. cbn [rev app edgeAfter].
  now destruct (isWordChar cl).
Qed.

Lemma execAll_dayPattern_reaches pre w post d mentions :
  dayWord d w = true -> edgeBefore pre = true -> edgeAfter post = true ->
  execAll dayPattern (pre ++ w ++ post) = Done mentions ->
  exists m cap, In m mentions /\ capture m 1 = Some cap /\ normalizeDay cap = Some d.
Proof.
  intros Hw Hpre Hpost Hall. unfold execAll in Hall.
  destruct (@execLoop_reaches dayPattern (w ++ post) eq_refl (length pre) pre []
              (length (pre ++ w ++ post)) mentions) as (m & Hin & Hm).
  - lia.
  - rewrite app_nil_r. now apply (@dayPattern_at_word d).
  - intros s1 s2 m E Hne Hm.
    destruct (exists_last Hne) as (s2a & cl & ->).
    rewrite E in Hpre. apply edgeBefore_last in Hpre.
    rewrite <- app_assoc in Hm. cbn [app] in Hm.
    destruct (@dayPattern_inside _ _ _ _ _ Hpre Hm) as (t' & ->).
    exists (t' ++ [cl]). split; [now destruct t' | now rewrite app_assoc].
  - exact Hall.
  - destruct (@dayPattern_names_day d w _ post m Hw Hm) as (cap & Hcap & Hnorm).
    now exists m, cap.
Qed.

(** A day that the text names as a word of its own, in any of the spellings
    of [dayPattern] and in any letter case, is among the days that
    [extractDays] returns, unless the text has the word weekday, which
    settles the days by itself. *)
Theorem extractDays_names_day pre w post d :
  dayWord d w = true -> edgeBefore pre = true -> edgeAfter post = true ->
  includes (toLowerCase (pre ++ w ++ post)) (str "weekday") = false ->
  exists l, extractDays (pre ++ w ++ post) = Done (Some l) /\ In d l.
Proof.
  intros Hw Hpre Hpost Hweekday.
  assert (Hday : In d DAYS_OF_WEEK).
  { destruct (@dayWord_spelling d w Hw) as (tok & Hin & _).
    exact (proj1 (@spellings_prefix tok d Hin)). }
  destruct (extractDays_returns (pre ++ w ++ post)) as (r & Hr & _).
  revert Hr. unfold extractDays. rewrite Hweekday.
  destruct (_ || _ || _).
  - intros _. now exists DAYS_OF_WEEK.
  - cbv zeta.
    destruct (execAll rangePattern _) as [ranges| |]; cbn [andThen]; try discriminate.
    destruct (forEachMatch addRange ranges _) as [days1| |]; cbn [andThen];
      try discriminate.
    destruct (execAll dayPattern _) as [mentions| |] eqn:Hall; cbn [andThen];
      try discriminate.
    destruct (forEachMatch addDay mentions days1) as [days2| |] eqn:Hdays;
      cbn [andThen]; try discriminate.
    intros _.
    destruct (@execAll_dayPattern_reaches _ _ _ _ _ Hw Hpre Hpost Hall)
      as (m & cap & Hin & Hcap & Hnorm).
    pose proof (@forEachMatch_addDay_In _ _ _ _ _ _ Hin Hcap Hnorm Hdays) as Hd.
    exists days2. split; [|exact Hd].
    destruct days2; [destruct Hd | reflexivity].
Qed.

(** The theorem at the text [Join us FRI and sat!], for the word [FRI]. *)
Lemma extractDays_names_day_witness :
  exists l, extractDays (str "Join us " ++ str "FRI" ++ str " and sat!") = Done (Some l)
            /\ In (str "Friday") l.
Proof.
  apply (@extractDays_names_day (str "Join us ") (str "FRI") (str " and sat!")
           (str "Friday")); vm_compute; reflexivity.
Defined.

(** ** extractor.js: the phrase "Monday-Friday" in a text *)

Lemma class_sameLetter a b :
  isAsciiLower a = true -> class_mem true [(a, a)] b = true -> sameLetter a b = true.
Proof.
  intros Ha H. unfold sameLetter.
  destruct (N.eqb_spec b a) as [|N1]; [reflexivity|].
  destruct (N.eqb_spec b (a - 32)) as [|N2]; [reflexivity|].
  rewrite class_mem_letter in H by assumption. discriminate.
Qed.

Lemma sameLetters_app t1 : forall w1 t2 w2,
  sameLetters t1 w1 = true -> sameLetters t2 w2 = true ->
  sameLetters (t1 ++ t2) (w1 ++ w2) = true.
Proof.
  induction t1 as [|a t1 IH]; intros [|b w1] t2 w2 H1 H2; try discriminate; [exact H2|].
  cbn [sameLetters app] in *. apply andb_true_iff in H1. destruct H1 as [-> H1].
  cbn [andb]. now apply IH.
Qed.

Lemma sameLetters_nil w : sameLetters [] w = true -> w = [].
Proof. destruct w; [reflexivity | discriminate]. Qed.

(** What a pattern of letters matches is one of its words, in any
    case. *)
Lemma wordsOf_matches r x y :
  matches true r x y -> finiteLetters r = true ->
  exists tok w, In tok (wordsOf r) /\ after x = w ++ after y /\ sameLetters tok w = true.
Proof.
  induction 1 as [x | inv rs x ch rest Ha Hc | r1 r2 x y z H1 IH1 H2 IH2
                 | r1 r2 x y H IH | r1 r2 x y H IH
                 | r min max greedy x Hstop
                 | r min max greedy x y z Hmax H1 IH1 Hgo H2 IH2
                 | n r x y H IH | x Hb | x Ha | x Hw];
    intros Hl; cbn [finiteLetters] in Hl; try discriminate.
  - exists [], []. repeat split. now left.
  - destruct rs as [|[a b] [|? ?]]; try discriminate.
    apply andb_true_iff in Hl. destruct Hl as [Hl Hlow].
    apply andb_true_iff in Hl. destruct Hl as [Hinv Hab].
    apply N.eqb_eq in Hab. subst b. destruct inv; [discriminate|]. cbn [xorb] in Hc.
    exists [a], [ch]. cbn [wordsOf after app]. split; [now left|]. split; [exact Ha|].
    cbn [sameLetters]. now rewrite (@class_sameLetter a ch Hlow Hc).
  - apply andb_true_iff in Hl. destruct Hl as [Hl1 Hl2].
    destruct (IH1 Hl1) as (t1 & w1 & Hin1 & E1 & S1).
    destruct (IH2 Hl2) as (t2 & w2 & Hin2 & E2 & S2).
    exists (t1 ++ t2), (w1 ++ w2). split; [|split].
    + cbn [wordsOf]. apply in_flat_map. exists t1. split; [exact Hin1|]. now apply in_map.
    + now rewrite E1, E2, app_assoc.
    + now apply sameLetters_app.
  - apply andb_true_iff in Hl. destruct Hl as [Hl1 Hl2].
    destruct (IH Hl1) as (t & w & Hin & E & S).
    exists t, w. split; [|now split]. cbn [wordsOf]. apply in_or_app. now left.
  - apply andb_true_iff in Hl. destruct Hl as [Hl1 Hl2].
    destruct (IH Hl2) as (t & w & Hin & E & S).
    exists t, w. split; [|now split]. cbn [wordsOf]. apply in_or_app. now right.
  - exists [], []. split; [|now split]. cbn [wordsOf].
    destruct max as [[|[|k]]|]; now left.
  - apply andb_true_iff in Hl. destruct Hl as [Hl Hr].
    apply andb_true_iff in Hl. destruct Hl as [Hmin Hm].
    destruct max as [[|[|k]]|]; try discriminate; [contradiction|].
    destruct min; [|discriminate]. cbn [pred option_map] in *.
    destruct (IH1 Hr) as (t1 & w1 & Hin1 & E1 & S1).
    assert (Hl2 : finiteLetters (Repeat r 0 (Some 0) greedy) = true)
      by (cbn [finiteLetters isZero Nat.eqb]; now rewrite Hr).
    destruct (IH2 Hl2) as (t2 & w2 & Hin2 & E2 & S2).
    cbn [wordsOf] in Hin2. destruct Hin2 as [<- | []].
    apply sameLetters_nil in S2. subst w2. cbn [app] in E2.
    cbn [clear_captures after] in E1.
    exists t1, w1. split; [now right|]. split; [now rewrite E1, E2 | exact S1].
  - destruct (IH Hl) as (t & w & Hin & E & S). exists t, w. now repeat split.
Qed.

Lemma sameLetters_word tok : forall w,
  forallb isAsciiLower tok = true -> sameLetters tok w = true ->
  Forall (fun c => isWordChar c = true) w.
Proof.
  induction tok as [|a tok IH]; intros [|b w] Hl H; try discriminate; constructor.
  - cbn [forallb sameLetters] in *. apply andb_true_iff in Hl, H.
    destruct Hl as [Ha _]. destruct H as [Hab _].
    exact (@class_letter_word a b Ha (@sameLetter_class a b Ha Hab)).
  - cbn [forallb sameLetters] in *. apply andb_true_iff in Hl, H.
    apply IH; tauto.
Qed.

Lemma dayNames_spelling tok :
  In tok (wordsOf dayNames) -> exists d, In (tok, d) spellings.
Proof.
  intros H. cbn in H.
  repeat (destruct H as [H | H];
          [subst tok; eexists; cbn; tauto|]).
  contradiction.
Qed.

Lemma spelling_letters tok d :
  In (tok, d) spellings ->
  forallb isAsciiLower tok = true /\ tok <> [] /\
  forallb (fun a => negb (N.eqb a 109)) (tl tok) = true.
Proof.
  intros H. cbn in H.
  repeat (destruct H as [H | H];
          [inversion H; subst; split; [reflexivity|]; split; [discriminate | reflexivity]|]).
  contradiction.
Qed.

(** A match of [dayPattern] is a word for a day. *)
Lemma dayPattern_dayWordAt bef aft m :
  matchAt dayPattern bef aft = Some m -> dayWordAt bef aft = true.
Proof.
  intros Hm. apply matchAt_matches in Hm. destruct Hm as (z & H & _).
  change (pattern dayPattern) with (Seq WordBoundary (Seq dayNames WordBoundary)) in H.
  change (ignoreCase dayPattern) with true in H.
  inversion H as [| |r1 r2 x0 y0 z0 Hb1 Hrest| | | | | | | |]; subst.
  inversion Hb1 as [| | | | | | | | | |x1 Hx]; subst.
  inversion Hrest as [| |r1 r2 x0 y1 z0 Hnames Hb2| | | | | | | |]; subst.
  inversion Hb2 as [| | | | | | | | | |x1 Hy]; subst.
  pose proof (matches_follows Hnames) as (w' & Ea' & Eb' & _).
  apply wordsOf_matches in Hnames; [|reflexivity].
  destruct Hnames as (tok & w & Hin & Ea & Hs).
  assert (w' = w) by (rewrite Ea in Ea'; now apply app_inv_tail in Ea'). subst w'.
  destruct (@dayNames_spelling tok Hin) as (d & Hsp).
  destruct (@spelling_letters tok d Hsp) as (Hlow & Hne & _).
  pose proof (@sameLetters_word tok _ Hlow Hs) as Hword.
  pose proof (@sameLetters_length _ _ Hs) as Hlen.
  cbn [after before] in *.
  destruct w as [|b w]; [destruct tok; [contradiction | discriminate]|].
  unfold dayWordAt. apply andb_true_iff. split.
  - unfold wordBefore, wordAfter in Hx. cbn [before after] in Hx. rewrite Ea in Hx.
    cbn [app] in Hx. inversion Hword; subst.
    match goal with Hb : isWordChar b = true |- _ => rewrite Hb in Hx end.
    unfold edgeAfter. destruct bef as [|c bef]; [reflexivity|].
    now destruct (isWordChar c).
  - apply existsb_exists. exists (tok, d). split; [exact Hsp|]. cbn [fst].
    rewrite Ea, <- Hlen.
    rewrite firstn_app, Nat.sub_diag, firstn_all, firstn_O, app_nil_r.
    rewrite skipn_app, Nat.sub_diag, skipn_all, skipn_O. cbn [app].
    rewrite Hs. cbn [andb].
    unfold wordBefore, wordAfter in Hy. rewrite Eb' in Hy.
    destruct (rev (b :: w)) as [|c r] eqn:Er.
    { apply (f_equal (@length char)) in Er. rewrite length_rev in Er. discriminate. }
    assert (Hc : isWordChar c = true).
    { rewrite Forall_forall in Hword. apply Hword. apply in_rev. rewrite Er. now left. }
    cbn [app] in Hy. rewrite Hc in Hy.
    unfold edgeAfter. destruct (after z) as [|c' r']; [reflexivity|].
    now destruct (isWordChar c').
Qed.

Lemma hasDayWordFrom_false s : forall bef t1 t2,
  hasDayWordFrom bef s = false -> s = t1 ++ t2 -> dayWordAt (rev t1 ++ bef) t2 = false.
Proof.
  induction s as [|c s IH]; intros bef t1 t2 H E.
  - destruct t1; [|discriminate]. cbn in E. subst t2. cbn [hasDayWordFrom] in H.
    apply orb_false_iff in H. exact (proj1 H).
  - cbn [hasDayWordFrom] in H. apply orb_false_iff in H. destruct H as [H0 H].
    destruct t1 as [|c1 t1]; cbn [app] in E.
    + subst t2. exact H0.
    + inversion E; subst. cbn [rev]. rewrite <- app_assoc. now apply IH.
Qed.

Lemma edgeAfter_app a b : a <> [] -> edgeAfter (a ++ b) = edgeAfter a.
Proof. destruct a; [contradiction | reflexivity]. Qed.

Lemma sameLetters_M tok : forall u v,
  forallb (fun a => negb (N.eqb a 109)) tok = true ->
  forallb isAsciiLower tok = true ->
  sameLetters tok (u ++ 77%N :: v) = false.
Proof.
  induction tok as [|a tok IH]; intros u v Hm Hl; [now destruct u|].
  cbn [forallb] in Hm, Hl. apply andb_true_iff in Hm, Hl.
  destruct Hm as [Ha Hm]. destruct Hl as [Hla Hl].
  destruct u as [|b u]; cbn [app sameLetters].
  - unfold sameLetter. apply negb_true_iff, N.eqb_neq in Ha.
    unfold isAsciiLower, in_range in Hla. apply andb_true_iff in Hla.
    rewrite !N.leb_le in Hla.
    replace (N.eqb 77 a) with false by (symmetry; apply N.eqb_neq; lia).
    replace (N.eqb 77 (a - 32)) with false by (symmetry; apply N.eqb_neq; lia).
    reflexivity.
  - rewrite IH by assumption. apply andb_false_r.
Qed.

(** A word for a day that begins before an "M" ends before it. *)
Lemma dayWordAt_before bef t2 tail :
  t2 <> [] -> dayWordAt bef (t2 ++ 77%N :: tail) = true -> dayWordAt bef t2 = true.
Proof.
  intros Hne H. unfold dayWordAt in *. apply andb_true_iff in H. destruct H as [Hb H].
  rewrite Hb. cbn [andb]. apply existsb_exists in H. destruct H as ([tok d] & Hin & H).
  cbn [fst] in H. apply andb_true_iff in H. destruct H as [Hs He].
  apply existsb_exists. exists (tok, d). split; [exact Hin|]. cbn [fst].
  destruct (@spelling_letters tok d Hin) as (Hlow & _ & Hm).
  destruct (Nat.lt_ge_cases (length tok) (length t2)) as [Hlt | Hge].
  - rewrite firstn_app in Hs. replace (length tok - length t2) with 0 in Hs by lia.
    rewrite firstn_O, app_nil_r in Hs. apply andb_true_iff. split; [exact Hs|].
    rewrite skipn_app in He. replace (length tok - length t2) with 0 in He by lia.
    rewrite skipn_O in He. rewrite edgeAfter_app in He; [exact He|].
    intros E. apply (f_equal (@length char)) in E. rewrite length_skipn in E.
    cbn [length] in E. lia.
  - exfalso. destruct (Nat.eq_dec (length tok) (length t2)) as [Heq | Hneq].
    + rewrite skipn_app, Heq, Nat.sub_diag, skipn_all, skipn_O in He. discriminate.
    + destruct t2 as [|b t2]; [contradiction|].
      destruct tok as [|a tok]; [cbn in Hge; lia|].
      cbn [length] in Hge, Hneq. cbn [app firstn sameLetters length] in Hs.
      apply andb_true_iff in Hs. destruct Hs as [_ Hs].
      cbn [tl] in Hm. cbn [forallb] in Hlow. apply andb_true_iff in Hlow.
      rewrite firstn_app in Hs.
      rewrite firstn_all2 in Hs by lia.
      destruct (length tok - length t2) as [|k] eqn:Ek; [lia|].
      cbn [firstn] in Hs.
      rewrite sameLetters_M in Hs; [discriminate | exact Hm | tauto].
Qed.

(** *** The places before and after the phrase *)

Lemma indicatesDay_false s :
  indicatesDay s = false -> namesDayPhrase s = false /\ hasDayWordFrom [] s = false.
Proof. unfold indicatesDay. apply orb_false_iff. Qed.

Lemma namesDayPhrase_false s kw :
  namesDayPhrase s = false -> In kw dayPhrases -> includes (toLowerCase s) kw = false.
Proof.
  unfold namesDayPhrase. intros H Hkw.
  destruct (includes (toLowerCase s) kw) eqn:E; [|reflexivity].
  assert (existsb (includes (toLowerCase s)) dayPhrases = true)
    by (apply existsb_exists; eauto).
  congruence.
Qed.

Lemma rangePattern_noFullName bef aft :
  noFullName aft -> matchAt rangePattern bef aft = None.
Proof.
  intros H. unfold matchAt, rangePattern. cbn [pattern ignoreCase].
  rewrite seq_head_fails; [reflexivity|].
  intros k. cbn [compile]. unfold fullDayNames, words. apply alt_all_fail; [discriminate|].
  unfold noFullName in H. rewrite Forall_forall in H.
  repeat constructor; intros k'; apply compile_lit_fails, H; simpl; tauto.
Qed.

Lemma noFullName_before pre t1 t2 post :
  namesDayPhrase pre = false -> pre = t1 ++ t2 -> t2 <> [] ->
  noFullName (t2 ++ str "Monday-Friday" ++ post).
Proof.
  intros H E Hne. unfold noFullName.
  repeat constructor;
    (eapply (@word_absent _ _ pre t1 t2 _ 109%N);
     [reflexivity
     | repeat constructor; discriminate
     | apply namesDayPhrase_false; [exact H | simpl; tauto]
     | exact E
     | exact Hne
     | rewrite toLowerCase_app; reflexivity]).
Qed.

Lemma noFullName_after post t1 t2 :
  namesDayPhrase post = false -> post = t1 ++ t2 -> noFullName t2.
Proof.
  intros H E. unfold noFullName.
  repeat constructor;
    (eapply (@word_absent_end _ post t1 t2);
     [reflexivity | apply namesDayPhrase_false; [exact H | simpl; tauto] | exact E]).
Qed.

Lemma dayPattern_before pre t1 t2 post :
  hasDayWordFrom [] pre = false -> pre = t1 ++ t2 -> t2 <> [] ->
  matchAt dayPattern (rev t1 ++ []) (t2 ++ str "Monday-Friday" ++ post) = None.
Proof.
  intros H E Hne.
  destruct (matchAt dayPattern (rev t1 ++ []) (t2 ++ str "Monday-Friday" ++ post))
    as [m|] eqn:Em; [|reflexivity].
  apply dayPattern_dayWordAt in Em.
  change (str "Monday-Friday" ++ post) with (77%N :: str "onday-Friday" ++ post) in Em.
  apply dayWordAt_before in Em; [|exact Hne].
  rewrite (@hasDayWordFrom_false pre [] t1 t2 H E) in Em. discriminate.
Qed.

Lemma dayPattern_after post b t1 t2 :
  hasDayWordFrom [] post = false -> edgeAfter b = false -> post = t1 ++ t2 ->
  matchAt dayPattern (rev t1 ++ b) t2 = None.
Proof.
  intros H Hb E.
  destruct (matchAt dayPattern (rev t1 ++ b) t2) as [m|] eqn:Em; [|reflexivity].
  apply dayPattern_dayWordAt in Em.
  pose proof (@hasDayWordFrom_false post [] t1 t2 H E) as Hno.
  unfold dayWordAt in Em, Hno.
  destruct t1 as [|c t1].
  - cbn [rev app] in Em. rewrite Hb in Em. discriminate.
  - rewrite edgeAfter_app in Em.
    + rewrite edgeAfter_app in Hno; [congruence|].
      intros C. apply (f_equal (@length char)) in C. rewrite length_rev in C. discriminate.
    + intros C. apply (f_equal (@length char)) in C. rewrite length_rev in C. discriminate.
Qed.

(** None of the five phrases is in the text. *)
Lemma phrase_absent pre post k0 kw :
  In (k0 :: kw) dayPhrases ->
  Forall (fun q => q <> 109%N) kw ->
  namesDayPhrase pre = false -> namesDayPhrase post = false ->
  (forall tail, includes (str "monday-friday" ++ tail) (k0 :: kw) = includes tail (k0 :: kw)) ->
  includes (toLowerCase (pre ++ str "Monday-Friday" ++ post)) (k0 :: kw) = false.
Proof.
  intros Hk Hm Hpre Hpost Htail.
  rewrite !toLowerCase_app.
  change (toLowerCase (str "Monday-Friday")) with (109%N :: str "onday-friday").
  apply includes_join; [exact Hm | now apply namesDayPhrase_false |].
  change (includes (str "monday-friday" ++ toLowerCase post) (k0 :: kw) = false).
  rewrite Htail. now apply namesDayPhrase_false.
Qed.

Lemma ranges_Monday_Friday pre post :
  namesDayPhrase pre = false -> namesDayPhrase post = false ->
  exists m, execAll rangePattern (pre ++ str "Monday-Friday" ++ post) = Done [m] /\
            capture m 1 = Some (str "Monday") /\ capture m 2 = Some (str "Friday").
Proof.
  intros Hpre Hpost. unfold execAll.
  rewrite execLoop_pass; [|reflexivity| |apply le_n].
  2: { intros t1 t2 E Hne. apply rangePattern_noFullName.
       exact (@noFullName_before pre t1 t2 post Hpre E Hne). }
  rewrite (@execLoop_match _ _ _ _ _ (rangePattern_Monday_Friday _ _));
    [|cbn [rest_after]; rewrite length_app; simpl; lia | apply le_n].
  cbn [rest_after rest_before].
  rewrite execLoop_none; [|reflexivity|].
  2: { intros t1 t2 E _. apply rangePattern_noFullName.
       exact (@noFullName_after post t1 t2 Hpost E). }
  cbn [andThen]. eexists. split; [reflexivity|]. split; reflexivity.
Qed.

Lemma mentions_from_Friday bef post :
  hasDayWordFrom [] post = false ->
  exists ms, execLoop (length (str "Friday" ++ post)) dayPattern (hyphen :: bef)
                      (str "Friday" ++ post) = Done ms /\
             Forall (fun m => namesDay "Monday" m \/ namesDay "Friday" m) ms.
Proof.
  intros Hpost.
  assert (Hq : forall b, edgeAfter b = false ->
                         execLoop (length post) dayPattern b post = Done []).
  { intros b Hb. apply execLoop_none; [reflexivity|].
    intros t1 t2 E _. exact (@dayPattern_after post b t1 t2 Hpost Hb E). }
  destruct (dayPattern_Friday bef post) as [Hm | (m & Hm & Hd & Hr & Hrb)].
  - change (str "Friday" ++ post) with (70%N :: (str "riday" ++ post)) in *.
    rewrite execLoop_nomatch; [|reflexivity | exact Hm | apply le_n].
    rewrite execLoop_skip; [|reflexivity | now apply concrete_quiet | apply le_n].
    rewrite Hq by reflexivity. exists []. split; [reflexivity | constructor].
  - rewrite (@execLoop_match _ _ _ _ _ Hm); [|rewrite Hr, length_app; simpl; lia | apply le_n].
    rewrite Hr, Hrb, Hq by reflexivity.
    cbn [andThen]. exists [m]. split; [reflexivity|]. constructor; [now right | constructor].
Qed.

Lemma mentions_Monday_Friday pre post :
  hasDayWordFrom [] pre = false -> hasDayWordFrom [] post = false ->
  exists ms, execAll dayPattern (pre ++ str "Monday-Friday" ++ post) = Done ms /\
             Forall (fun m => namesDay "Monday" m \/ namesDay "Friday" m) ms.
Proof.
  intros Hpre Hpost. unfold execAll.
  rewrite execLoop_pass; [|reflexivity| |apply le_n].
  2: { intros t1 t2 E Hne. exact (@dayPattern_before pre t1 t2 post Hpre E Hne). }
  destruct (dayPattern_Monday (rev pre ++ []) post) as [Hm | (m & Hm & Hd & Hr & Hb)].
  - change (str "Monday-Friday" ++ post) with (77%N :: (str "onday-" ++ str "Friday" ++ post)) in *.
    rewrite execLoop_nomatch; [|reflexivity | exact Hm | apply le_n].
    rewrite execLoop_skip; [|reflexivity | now apply concrete_quiet | apply le_n].
    apply mentions_from_Friday. exact Hpost.
  - rewrite (@execLoop_match _ _ _ _ _ Hm); [|rewrite Hr, !length_app; simpl; lia | apply le_n].
    rewrite Hr, Hb.
    change (str "-Friday" ++ post) with ([hyphen] ++ str "Friday" ++ post).
    rewrite execLoop_skip; [|reflexivity | now apply concrete_quiet | apply le_n].
    destruct (@mentions_from_Friday (rev (str "Monday") ++ rev pre ++ []) post Hpost)
      as (ms & E & Hms).
    cbn [rev app] in *. rewrite E. cbn [andThen].
    exists (m :: ms). split; [reflexivity|]. constructor; [now left | exact Hms].
Qed.

(** C5: a text that holds the phrase "Monday-Friday" and that, before
    and after it, indicates no day has the days Monday, Tuesday,
    Wednesday, Thursday and Friday, in this order.  A text indicates a
    day when it holds, in any case, "daily", "every day", "7 days",
    "weekday", "weekend" or the full name of a day (inside a longer word
    too), or when a name or an abbreviation of a day (mon, tue, tues,
    wed, thu, thurs, fri, sat, sun) is a word of its own in it; words
    that only hold such letters ("fries", "Lemon", "satisfy") indicate no
    day. *)
Theorem extractDays_Monday_Friday pre post :
  indicatesDay pre = false -> indicatesDay post = false ->
  extractDays (pre ++ str "Monday-Friday" ++ post) =
  Done (Some [str "Monday"; str "Tuesday"; str "Wednesday"; str "Thursday"; str "Friday"]).
Proof.
  intros Hpre Hpost.
  apply indicatesDay_false in Hpre, Hpost.
  destruct Hpre as [Hpre Wpre]. destruct Hpost as [Hpost Wpost].
  unfold extractDays.
  change (str "daily") with (100%N :: str "aily").
  change (str "every day") with (101%N :: str "very day").
  change (str "7 days") with (55%N :: str " days").
  change (str "weekday") with (119%N :: str "eekday").
  change (str "weekend") with (119%N :: str "eekend").
  rewrite !phrase_absent; try assumption; try reflexivity;
    try (repeat constructor; discriminate); try (simpl; tauto).
  cbn [orb].
  destruct (@ranges_Monday_Friday pre post Hpre Hpost) as (m & -> & H1 & H2).
  cbn [andThen forEachMatch]. unfold addRange. rewrite H1, H2.
  match goal with
  | |- andThen (andThen ?X _) _ = _ =>
      replace X with (Done weekdays : run StringSet) by (vm_compute; reflexivity)
  end.
  destruct (@mentions_Monday_Friday pre post Wpre Wpost) as (ms & -> & Hms).
  cbn [andThen]. rewrite (addDay_known Hms). reflexivity.
Qed.

Lemma extractDays_Monday_Friday_witness :
  extractDays (str "Sunnyside Lemon fries and more, " ++ str "Monday-Friday" ++
               str " 3-6pm. We satisfy!") =
  Done (Some [str "Monday"; str "Tuesday"; str "Wednesday"; str "Thursday"; str "Friday"]).
Proof. apply extractDays_Monday_Friday; vm_compute; reflexivity. Defined.

(** ** App.jsx: the search text *)

(** *** White space around a text *)

Lemma trimStart_ws ws t : Forall whiteSpaceUnit ws -> trimStart (ws ++ t) = trimStart t.
Proof.
  induction 1 as [|c ws Hc Hws IH]; [reflexivity|]. cbn [app trimStart].
  apply isWhiteSpace_spec in Hc. now rewrite Hc.
Qed.

Lemma trimStart_split s : exists ws, s = ws ++ trimStart s /\ Forall whiteSpaceUnit ws.
Proof.
  induction s as [|c s IH]; [exists []; now split|]. cbn [trimStart].
  destruct (isWhiteSpace c) eqn:E.
  - destruct IH as (ws & Es & Hws). exists (c :: ws). split.
    + cbn [app]. now rewrite <- Es.
    + constructor; [now apply isWhiteSpace_spec | exact Hws].
  - exists []. now split.
Qed.


Lemma trimEnd_all_ws ws : Forall whiteSpaceUnit ws -> trimEnd ws = [].
Proof.
  induction 1 as [|c ws Hc Hws IH]; [reflexivity|]. rewrite trimEnd_cons, IH.
  apply isWhiteSpace_spec in Hc. now rewrite Hc.
Qed.

Lemma trimEnd_ws t ws : Forall whiteSpaceUnit ws -> trimEnd (t ++ ws) = trimEnd t.
Proof.
  intros Hws. induction t as [|c t IH]; [now apply trimEnd_all_ws|].
  cbn [app]. now rewrite !trimEnd_cons, IH.
Qed.




Lemma trim_pad ws1 s ws2 :
  Forall whiteSpaceUnit ws1 -> Forall whiteSpaceUnit ws2 -> trim (ws1 ++ s ++ ws2) = trim s.
Proof.
  intros H1 H2. unfold trim. rewrite trimStart_ws by exact H1.
  destruct (trimStart_split s) as (w & Es & Hw).
  destruct (trimStart s) as [|c t] eqn:E.
  - rewrite app_nil_r in Es. subst w.
    replace (trimStart (s ++ ws2)) with (@nil char); [reflexivity|].
    symmetry. rewrite <- (app_nil_r (s ++ ws2)). apply trimStart_ws.
    apply Forall_app. now split.
  - pose proof (trimStart_startsNonSpace s) as Hc. rewrite E in Hc.
    rewrite Es at 1. rewrite <- app_assoc, trimStart_ws by exact Hw.
    rewrite trimStart_fixed by exact Hc. now apply trimEnd_ws.
Qed.

(** *** Lower case of texts that differ in case only *)

Lemma plainPair_spec x y :
  plainPair x y = true ->
  (isHighSurrogate x = false /\ isLowSurrogate x = false) /\
  (isHighSurrogate y = false /\ isLowSurrogate y = false) /\
  (x <> 931%N /\ y <> 931%N) /\
  lowerCodePoint x = lowerCodePoint y /\
  isCaseIgnorable x = isCaseIgnorable y /\
  isCased x = isCased y /\
  isWhiteSpace x = isWhiteSpace y.
Proof.
  unfold plainPair. rewrite !andb_true_iff, !negb_true_iff, !N.eqb_neq.
  intros (((((((((H1 & H2) & H3) & H4) & H5) & H6) & H7) & H8) & H9) & H10).
  apply jsstring_eqb_eq in H7. apply Bool.eqb_prop in H8, H9, H10. tauto.
Qed.

Lemma alike_refl_list (l : list N) : Forall2 alike l l.
Proof. induction l; constructor; [now left | assumption]. Qed.

Lemma alike_surrogates x y :
  alike x y ->
  isHighSurrogate x = isHighSurrogate y /\ isLowSurrogate x = isLowSurrogate y /\
  (isHighSurrogate x = true \/ isLowSurrogate x = true -> x = y).
Proof.
  intros [-> | H]; [tauto|]. apply plainPair_spec in H.
  destruct H as ((H1 & H2) & (H3 & H4) & _).
  rewrite H1, H2, H3, H4. repeat split. intros [C | C]; discriminate.
Qed.

Lemma toCodePoints_alike n : forall s s',
  length s <= n -> Forall2 alike s s' -> Forall2 alike (toCodePoints s) (toCodePoints s').
Proof.
  induction n as [|n IH]; intros s s' Hn H.
  - destruct H; [constructor | cbn in Hn; lia].
  - destruct H as [|x y t t' Hxy Ht]; [constructor|].
    destruct Ht as [|lo lo' r r' Hlo Hr].
    + cbn [toCodePoints]. constructor; [exact Hxy | constructor].
    + cbn [toCodePoints].
      destruct (alike_surrogates Hxy) as (Hh & _ & Hx).
      destruct (alike_surrogates Hlo) as (_ & Hl & Hy).
      rewrite <- Hh, <- Hl.
      destruct (isHighSurrogate x) eqn:Ex; destruct (isLowSurrogate lo) eqn:El;
        cbn [andb].
      * rewrite <- (Hx (or_introl eq_refl)), <- (Hy (or_intror eq_refl)).
        constructor; [now left|]. apply IH; [cbn [length] in Hn; lia | exact Hr].
      * constructor; [exact Hxy|].
        apply (IH (lo :: r) (lo' :: r')); [cbn [length] in *; lia | now constructor].
      * constructor; [exact Hxy|].
        apply (IH (lo :: r) (lo' :: r')); [cbn [length] in *; lia | now constructor].
      * constructor; [exact Hxy|].
        apply (IH (lo :: r) (lo' :: r')); [cbn [length] in *; lia | now constructor].
Qed.

Lemma casedLetterNext_alike a b :
  Forall2 alike a b -> casedLetterNext a = casedLetterNext b.
Proof.
  induction 1 as [|x y a b Hxy Hab IH]; [reflexivity|]. cbn [casedLetterNext].
  destruct Hxy as [-> | H]; [now rewrite IH|].
  apply plainPair_spec in H. destruct H as (_ & _ & _ & _ & Hi & Hc & _).
  now rewrite Hi, Hc, IH.
Qed.

Lemma lowerCodePoints_alike aft aft' :
  Forall2 alike aft aft' ->
  forall bef bef', Forall2 alike bef bef' ->
                   lowerCodePoints bef aft = lowerCodePoints bef' aft'.
Proof.
  induction 1 as [|x y a b Hxy Hab IH]; intros bef bef' Hbef; [reflexivity|].
  cbn [lowerCodePoints].
  rewrite (IH (x :: bef) (y :: bef')) by (now constructor). f_equal.
  destruct Hxy as [-> | H].
  - unfold finalSigma.
    now rewrite (casedLetterNext_alike Hbef), (casedLetterNext_alike Hab).
  - apply plainPair_spec in H. destruct H as (_ & _ & (Hx & Hy) & Hl & _).
    apply N.eqb_neq in Hx, Hy. now rewrite Hx, Hy.
Qed.

Lemma toLowerCaseUnicode_alike s s' :
  Forall2 alike s s' -> toLowerCaseUnicode s = toLowerCaseUnicode s'.
Proof.
  intros H. unfold toLowerCaseUnicode. f_equal.
  apply lowerCodePoints_alike; [|constructor].
  now apply (@toCodePoints_alike (length s)).
Qed.

Lemma trimStart_alike a b : Forall2 alike a b -> Forall2 alike (trimStart a) (trimStart b).
Proof.
  induction 1 as [|x y a b Hxy Hab IH]; [constructor|]. cbn [trimStart].
  assert (E : isWhiteSpace x = isWhiteSpace y).
  { destruct Hxy as [-> | H]; [reflexivity|]. apply plainPair_spec in H. tauto. }
  rewrite <- E. destruct (isWhiteSpace x); [exact IH | now constructor].
Qed.

Lemma Forall2_rev' (A B : Type) (R : A -> B -> Prop) a b :
  Forall2 R a b -> Forall2 R (rev a) (rev b).
Proof.
  induction 1 as [|x y a b Hxy Hab IH]; [constructor|]. cbn [rev].
  apply Forall2_app; [exact IH | now repeat constructor].
Qed.

Lemma trim_alike a b : Forall2 alike a b -> Forall2 alike (trim a) (trim b).
Proof.
  intros H. unfold trim, trimEnd.
  now apply Forall2_rev', trimStart_alike, Forall2_rev', trimStart_alike.
Qed.

Lemma upper_plainPair x :
  isAsciiUpper x = true ->
  plainPair x (x + 32) = true /\ plainPair (x + 32) x = true.
Proof.
  intros H.
  assert (Hall : forallb (fun x => plainPair x (x + 32) && plainPair (x + 32) x)
                   (map N.of_nat (List.seq 65 26)) = true)
    by (vm_compute; reflexivity).
  rewrite forallb_forall in Hall. apply andb_true_iff. apply Hall.
  unfold isAsciiUpper, in_range in H. apply andb_true_iff in H. rewrite !N.leb_le in H.
  apply in_map_iff. exists (N.to_nat x). split; [apply N2Nat.id|].
  apply in_seq. lia.
Qed.

Lemma sameUnit_alike x y : sameUnit x y -> alike x y.
Proof.
  intros [-> | [[H ->] | [H ->]]]; [now left | right | right];
    now apply upper_plainPair.
Qed.

Lemma sameUpToCase_alike a b : sameUpToCase a b -> Forall2 alike a b.
Proof.
  unfold sameUpToCase. induction 1; constructor; [now apply sameUnit_alike | assumption].
Qed.



(** The lower case of a text that is not empty is not empty. *)
Lemma toLowerCaseUnicode_nil s : toLowerCaseUnicode s = [] -> s = [].
Proof.
  destruct s as [|c s]; [reflexivity|]. unfold toLowerCaseUnicode. intros H. exfalso.
  assert (Hcp : exists cp cps, toCodePoints (c :: s) = cp :: cps).
  { cbn [toCodePoints]. destruct s as [|lo r]; [now eexists; eexists|].
    destruct (isHighSurrogate c && isLowSurrogate lo); now eexists; eexists. }
  destruct Hcp as (cp & cps & E). rewrite E in H. cbn [lowerCodePoints] in H.
  assert (Hl : exists a l,
             (if N.eqb cp 931 then [if finalSigma [] cps then 962 else 963]%N
              else lowerCodePoint cp) = a :: l).
  { destruct (N.eqb cp 931); [now eexists; eexists|]. unfold lowerCodePoint.
    destruct (N.eqb cp 304); [now eexists; eexists|].
    destruct (find _ lowerTable) as [[[[? ?] ?] ?]|]; now eexists; eexists. }
  destruct Hl as (a & l & El). rewrite El in H. cbn [app flat_map] in H.
  unfold fromCodePoint in H. destruct (N.ltb a 65536); discriminate.
Qed.

Lemma keeps_search n d s1 s2 v :
  toLowerCaseUnicode (trim s1) = toLowerCaseUnicode (trim s2) ->
  keeps n d s1 v = keeps n d s2 v.
Proof.
  intros E. unfold keeps. rewrite E.
  replace (isZero (length (trim s1))) with (isZero (length (trim s2))); [reflexivity|].
  destruct (trim s1) as [|a t1] eqn:E1.
  - symmetry in E. apply toLowerCaseUnicode_nil in E. now rewrite E.
  - destruct (trim s2) as [|b t2] eqn:E2; [|reflexivity].
    apply toLowerCaseUnicode_nil in E. discriminate.
Qed.


(** The search text counts without the white space around it and without
    the case of its letters: white space added before and after it
    changes nothing; capital letters A to Z for small ones or small ones
    for capital ones change nothing; more generally two search texts
    whose trimmed texts have the same lower case (as U+014C and U+014D,
    O with macron) give the same list; and a blank search text with no
    neighborhood and no day chosen leaves the data as they are. *)
Theorem filtered_search_text data n d s :
  (forall ws1 ws2,
     Forall whiteSpaceUnit ws1 -> Forall whiteSpaceUnit ws2 ->
     filtered data n d (ws1 ++ s ++ ws2) = filtered data n d s) /\
  (forall s', sameUpToCase s s' -> filtered data n d s' = filtered data n d s) /\
  (forall s',
     toLowerCaseUnicode (trim s') = toLowerCaseUnicode (trim s) ->
     filtered data n d s' = filtered data n d s) /\
  (trim s = [] -> filtered data (str "All") (str "All") s = data).
Proof.
  split; [|split; [|split]].
  - intros ws1 ws2 H1 H2. apply filter_ext_all. intros v. apply keeps_search.
    now rewrite trim_pad.
  - intros s' H. apply filter_ext_all. intros v. apply keeps_search.
    symmetry. apply toLowerCaseUnicode_alike, trim_alike. now apply sameUpToCase_alike.
  - intros s' E. apply filter_ext_all. intros v. now apply keeps_search.
  - intros E. unfold filtered. induction data as [|v data IH]; [reflexivity|].
    cbn [filter]. rewrite IH. unfold keeps. rewrite E. reflexivity.
Qed.

(** The theorem at a name with U+014C and the search text with U+014D:
    the venue is found. *)
Lemma filtered_search_text_witness :
  filtered [mkVenueInfo (str "oku-sushi") (332%N :: str "KU Sushi") (str "1 Main St")
                        (str "LoDo") None None]
           (str "All") (str "All") (32%N :: 333%N :: str "ku ") =
  [mkVenueInfo (str "oku-sushi") (332%N :: str "KU Sushi") (str "1 Main St")
               (str "LoDo") None None].
Proof.
  rewrite (proj1 (proj2 (proj2
             (filtered_search_text
                [mkVenueInfo (str "oku-sushi") (332%N :: str "KU Sushi") (str "1 Main St")
                             (str "LoDo") None None]
                (str "All") (str "All") (332%N :: str "KU")))) (32%N :: 333%N :: str "ku "));
    vm_compute; reflexivity.
Defined.
